(** * WalkMesh: barycentric navigation on a triangulated surface

    A shallow embedding of [WalkMesh.cpp]: the barycentric projection, the
    mesh constructor with its directed-edge map, [nearest_walk_point],
    [walk_in_triangle], [cross_edge] and the [WalkMeshes] loader.

    Scalars.  The program computes in IEEE single precision, and its
    [float] is read twice here.  Module [B32], further down, is the
    arithmetic the program runs: binary32 values with the operations of
    [SpecFloat], each rounded to nearest, with overflow, underflow and the
    two zeros; what the program returns, to the last bit, is stated there.
    The definitions at top level are the same code read in exact
    arithmetic: they keep the special values (both infinities and NaN,
    with their rules for [+ - * /] and for comparisons), take the
    rationals for the finite values and identify the two zeros.  A
    statement on them that speaks of values (a world position, weights
    that add up to one) holds of the geometry the code implements and is
    worded "in exact arithmetic"; a statement on them that speaks only of
    indices, of the directed-edge map, of thrown errors or of the outcome
    of the program's own comparisons reads the same in single precision.

    Control.  Assertions are compiled in (no [NDEBUG]); a failed assertion,
    an access past the end of a vector and a thrown [std::runtime_error]
    end the call with a [fault].  Results written through pointer
    arguments are returned as values.

    Outside the sources.  [glm::inversesqrt], [glm::rotation] and the value
    of a default-constructed [WalkPoint] are parameters;
    [WalkMesh::to_world_point] follows the specification; the loader starts
    from the contents of the chunks that [read_chunk] delivers. *)

From Stdlib Require Import QArith Qfield Lqa Lia NArith ZArith Bool Ascii String.
From Stdlib Require Import Floats.SpecFloat.
From stdpp Require Import gmap strings list fin_maps.

(** ** Scalars: [float] *)

Inductive float : Type :=
| Finite (q : Q)
| PosInf
| NegInf
| NaN.

Declare Scope float_scope.
Delimit Scope float_scope with F.
Bind Scope float_scope with float.

Definition zero : float := Finite 0.
Definition one : float := Finite 1.
(** [std::numeric_limits<float>::infinity()] *)
Definition infinity : float := PosInf.

(** Sign of a rational, as the comparison with [0]. *)
Definition Qsign (q : Q) : comparison := (q ?= 0)%Q.

Definition fneg (a : float) : float :=
  match a with
  | Finite q => Finite (- q)
  | PosInf => NegInf
  | NegInf => PosInf
  | NaN => NaN
  end.

Definition fadd (a b : float) : float :=
  match a, b with
  | NaN, _ | _, NaN => NaN
  | Finite p, Finite q => Finite (p + q)
  | PosInf, NegInf | NegInf, PosInf => NaN
  | PosInf, _ | _, PosInf => PosInf
  | NegInf, _ | _, NegInf => NegInf
  end.

Definition fsub (a b : float) : float := fadd a (fneg b).

(** An infinity of the sign [s]; [Eq] stands for the invalid product
    [0 * inf]. *)
Definition signed_inf (s : comparison) : float :=
  match s with Gt => PosInf | Lt => NegInf | Eq => NaN end.

Definition fmul (a b : float) : float :=
  match a, b with
  | NaN, _ | _, NaN => NaN
  | Finite p, Finite q => Finite (p * q)
  | Finite p, PosInf | PosInf, Finite p => signed_inf (Qsign p)
  | Finite p, NegInf | NegInf, Finite p => signed_inf (CompOpp (Qsign p))
  | PosInf, PosInf | NegInf, NegInf => PosInf
  | PosInf, NegInf | NegInf, PosInf => NegInf
  end.

Definition fdiv (a b : float) : float :=
  match a, b with
  | NaN, _ | _, NaN => NaN
  | Finite p, Finite q =>
      match Qsign q with
      | Eq => signed_inf (Qsign p)          (* x/0 = +-inf, 0/0 = NaN *)
      | _ => Finite (p / q)
      end
  | Finite _, (PosInf | NegInf) => zero
  | PosInf, Finite q =>
      match Qsign q with Lt => NegInf | _ => PosInf end
  | NegInf, Finite q =>
      match Qsign q with Lt => PosInf | _ => NegInf end
  | (PosInf | NegInf), (PosInf | NegInf) => NaN
  end.

(** Comparisons: every comparison with NaN is false. *)
Definition fltb (a b : float) : bool :=
  match a, b with
  | NaN, _ | _, NaN => false
  | Finite p, Finite q => match (p ?= q)%Q with Lt => true | _ => false end
  | NegInf, (Finite _ | PosInf) => true
  | Finite _, PosInf => true
  | _, _ => false
  end.

Definition feqb (a b : float) : bool :=
  match a, b with
  | Finite p, Finite q => match (p ?= q)%Q with Eq => true | _ => false end
  | PosInf, PosInf | NegInf, NegInf => true
  | _, _ => false
  end.

Definition fgtb (a b : float) : bool := fltb b a.
Definition fleb (a b : float) : bool := fltb a b || feqb a b.
Definition fgeb (a b : float) : bool := fleb b a.

(** [std::min(a, b)] is [(b < a) ? b : a]. *)
Definition fmin (a b : float) : float := if fltb b a then b else a.

Notation "a + b" := (fadd a b) : float_scope.
Notation "a - b" := (fsub a b) : float_scope.
Notation "a * b" := (fmul a b) : float_scope.
Notation "a / b" := (fdiv a b) : float_scope.
Notation "- a" := (fneg a) : float_scope.
Notation "a <? b" := (fltb a b) : float_scope.
Notation "a >? b" := (fgtb a b) : float_scope.
Notation "a <=? b" := (fleb a b) : float_scope.
Notation "a >=? b" := (fgeb a b) : float_scope.
Notation "a =? b" := (feqb a b) : float_scope.

Definition is_finite (a : float) : Prop :=
  match a with Finite _ => True | _ => False end.

(** Two scalars denote the same value. *)
Definition float_same (a b : float) : Prop :=
  match a, b with
  | Finite p, Finite q => (p == q)%Q
  | PosInf, PosInf | NegInf, NegInf | NaN, NaN => True
  | _, _ => False
  end.

#[export] Instance float_equiv : Equiv float := float_same.

(** ** Vectors: [glm::vec3], [glm::uvec3], [glm::quat] *)

Module vec3.
Record t : Type := mk { x : float; y : float; z : float }.
End vec3.
Abbreviation vec3 := vec3.t.

Module uvec3.
Record t : Type := mk { x : N; y : N; z : N }.
End uvec3.
Abbreviation uvec3 := uvec3.t.

Module quat.
Record t : Type := mk { w : float; x : float; y : float; z : float }.
End quat.
Abbreviation quat := quat.t.

Declare Scope vec_scope.
Delimit Scope vec_scope with V.
Bind Scope vec_scope with vec3.t.

Definition vadd (a b : vec3) : vec3 :=
  vec3.mk (vec3.x a + vec3.x b) (vec3.y a + vec3.y b) (vec3.z a + vec3.z b).
Definition vsub (a b : vec3) : vec3 :=
  vec3.mk (vec3.x a - vec3.x b) (vec3.y a - vec3.y b) (vec3.z a - vec3.z b).
(** [s * v] *)
Definition vscale (s : float) (v : vec3) : vec3 :=
  vec3.mk (s * vec3.x v) (s * vec3.y v) (s * vec3.z v).
(** [v * s] *)
Definition vscale_r (v : vec3) (s : float) : vec3 :=
  vec3.mk (vec3.x v * s) (vec3.y v * s) (vec3.z v * s).

Notation "a + b" := (vadd a b) : vec_scope.
Notation "a - b" := (vsub a b) : vec_scope.

(** [glm::dot] *)
Definition dot (a b : vec3) : float :=
  (vec3.x a * vec3.x b + vec3.y a * vec3.y b + vec3.z a * vec3.z b)%F.

(** [glm::cross] *)
Definition cross (a b : vec3) : vec3 :=
  vec3.mk (vec3.y a * vec3.z b - vec3.y b * vec3.z a)
          (vec3.z a * vec3.x b - vec3.z b * vec3.x a)
          (vec3.x a * vec3.y b - vec3.x b * vec3.y a).

(** [glm::length2] *)
Definition length2 (v : vec3) : float := dot v v.

(** [glm::mix(a, b, t)] is [a * (1 - t) + b * t]. *)
Definition mix (a b : vec3) (t : float) : vec3 :=
  (vscale_r a (one - t) + vscale_r b t)%V.

Definition finite_vec (v : vec3) : Prop :=
  is_finite (vec3.x v) /\ is_finite (vec3.y v) /\ is_finite (vec3.z v).

Definition vec_same (a b : vec3) : Prop :=
  vec3.x a ≡ vec3.x b /\ vec3.y a ≡ vec3.y b /\ vec3.z a ≡ vec3.z b.

#[export] Instance vec3_equiv : Equiv vec3 := vec_same.

(** [(unsigned)-1], the all-ones 32-bit value. *)
Definition UINT_MAX : N := 4294967295.

(** ** Failure

    A call either returns or stops the program: a failed [assert], an
    access past the end of a [std::vector] (undefined behaviour in the
    source, kept apart here), or one of the loader's [std::runtime_error]s. *)

Inductive load_error : Type :=
| MismatchedSizes
| InvalidNameIndices
| InvalidVertexIndices
| InvalidTriangleIndices
| InvalidTriangle
| DuplicatedName (name : string).

Inductive fault : Type :=
| assertion_failed
| out_of_range
| runtime_error (e : load_error).

Inductive outcome (A : Type) : Type :=
| Ok (a : A)
| Stop (f : fault).
Arguments Ok {A} a.
Arguments Stop {A} f.

Definition bind {A B : Type} (c : outcome A) (k : A -> outcome B) : outcome B :=
  match c with
  | Ok a => k a
  | Stop f => Stop f
  end.

Notation "'let*' x := c 'in' k" := (bind c (fun x => k))
  (at level 10, x pattern, c at level 100, k at level 200).

(** [assert(b)] *)
Definition assert (b : bool) : outcome unit :=
  if b then Ok tt else Stop assertion_failed.
(** [if (!b) throw std::runtime_error(e)] *)
Definition require (b : bool) (e : load_error) : outcome unit :=
  if b then Ok tt else Stop (runtime_error e).

(** [v[i]] on a [std::vector]. *)
Definition at_index {A : Type} (v : list A) (i : N) : outcome A :=
  match v !! N.to_nat i with
  | Some a => Ok a
  | None => Stop out_of_range
  end.

(** Run [f] over [l] front to back, threading the state, until a step stops. *)
Fixpoint for_each {A S : Type} (f : S -> A -> outcome S) (l : list A) (s : S)
  : outcome S :=
  match l with
  | [] => Ok s
  | a :: l' => let* s' := f s a in for_each f l' s'
  end.

(** ** The mesh *)

Record WalkPoint : Type := mkWalkPoint {
  indices : uvec3;
  weights : vec3
}.

Record WalkMesh : Type := mkWalkMesh {
  vertices : list vec3;
  normals : list vec3;
  triangles : list uvec3;
  next_vertex : gmap (N * N) N
}.

(** project pt to the plane of triangle a,b,c and return the barycentric
    weights of the projected point (Cramer's rule). *)
Definition barycentric_weights (a b c pt : vec3) : vec3 :=
  let v0 := (b - a)%V in
  let v1 := (c - a)%V in
  let v2 := (pt - a)%V in
  let d00 := dot v0 v0 in
  let d01 := dot v0 v1 in
  let d11 := dot v1 v1 in
  let d20 := dot v2 v0 in
  let d21 := dot v2 v1 in
  let denom := (d00 * d11 - d01 * d01)%F in
  let v := ((d11 * d20 - d01 * d21) / denom)%F in
  let w := ((d00 * d21 - d01 * d20) / denom)%F in
  let u := (one - v - w)%F in
  vec3.mk u v w.

(** Modelled from the spec: [WalkMesh::to_world_point] is declared in
    [WalkMesh.hpp], which is not among the sources; section 4.3 gives it as
    the weighted sum of the triangle's vertices by the barycentric weights. *)
Definition to_world_point (m : WalkMesh) (wp : WalkPoint) : outcome vec3 :=
  let* a := at_index (vertices m) (uvec3.x (indices wp)) in
  let* b := at_index (vertices m) (uvec3.y (indices wp)) in
  let* c := at_index (vertices m) (uvec3.z (indices wp)) in
  Ok (vscale (vec3.x (weights wp)) a
      + vscale (vec3.y (weights wp)) b
      + vscale (vec3.z (weights wp)) c)%V.

(** [do_next] of the constructor: insert [(a,b) -> c], asserting the key
    was not there. *)
Definition do_next (nv : gmap (N * N) N) (a b c : N) : outcome (gmap (N * N) N) :=
  match nv !! (a, b) with
  | None => Ok (<[(a, b) := c]> nv)
  | Some _ => Stop assertion_failed
  end.

Definition insert_triangle (nv : gmap (N * N) N) (tri : uvec3)
  : outcome (gmap (N * N) N) :=
  let* nv := do_next nv (uvec3.x tri) (uvec3.y tri) (uvec3.z tri) in
  let* nv := do_next nv (uvec3.y tri) (uvec3.z tri) (uvec3.x tri) in
  do_next nv (uvec3.z tri) (uvec3.x tri) (uvec3.y tri).

(** Closest-point search state of [nearest_walk_point]. *)
Record nearest_state : Type := mkNearest {
  closest : WalkPoint;
  closest_dis2 : float
}.

(** The lambda [check_edge] of [nearest_walk_point]. *)
Definition check_edge (vs : list vec3) (world_point : vec3) (st : nearest_state)
    (ai bi ci : N) : outcome nearest_state :=
  let* a := at_index vs ai in
  let* b := at_index vs bi in
  let along := dot (world_point - a) (b - a) in
  let max := dot (b - a) (b - a) in
  let '(pt, coords) :=
    if (along <? zero)%F then (a, vec3.mk one zero zero)
    else if (along >? max)%F then (b, vec3.mk zero one zero)
    else
      let amt := (along / max)%F in
      (mix a b amt, vec3.mk (one - amt) amt zero) in
  let dis2 := length2 (world_point - pt) in
  if (dis2 <? closest_dis2 st)%F
  then Ok (mkNearest (mkWalkPoint (uvec3.mk ai bi ci) coords) dis2)
  else Ok st.

(** Body of the loop over the triangles in [nearest_walk_point]. *)
Definition nearest_step (m : WalkMesh) (world_point : vec3) (st : nearest_state)
    (tri : uvec3) : outcome nearest_state :=
  let* a := at_index (vertices m) (uvec3.x tri) in
  let* b := at_index (vertices m) (uvec3.y tri) in
  let* c := at_index (vertices m) (uvec3.z tri) in
  let coords := barycentric_weights a b c world_point in
  if (vec3.x coords >=? zero)%F && (vec3.y coords >=? zero)%F
     && (vec3.z coords >=? zero)%F
  then
    let* p := to_world_point m (mkWalkPoint tri coords) in
    let dis2 := length2 (world_point - p) in
    if (dis2 <? closest_dis2 st)%F
    then Ok (mkNearest (mkWalkPoint tri coords) dis2)
    else Ok st
  else
    let* st := check_edge (vertices m) world_point st
                 (uvec3.x tri) (uvec3.y tri) (uvec3.z tri) in
    let* st := check_edge (vertices m) world_point st
                 (uvec3.y tri) (uvec3.z tri) (uvec3.x tri) in
    check_edge (vertices m) world_point st
      (uvec3.z tri) (uvec3.x tri) (uvec3.y tri).

(** The lambda [cross_on_edge] of [walk_in_triangle]; the state is
    [(min_time, min_coord)]. *)
Definition cross_on_edge (st : float * N) (coord : N) (dest_w start_w : float)
  : float * N :=
  if (dest_w >? zero)%F then st
  else
    let time := (- start_w / (dest_w - start_w))%F in
    if (time <? fst st)%F then (time, coord) else st.

(** [walk_in_triangle]: the results [*end_] and [*time_] are returned as a
    pair; [start] and [*end_] are distinct objects. *)
Definition walk_in_triangle (m : WalkMesh) (start : WalkPoint) (step : vec3)
  : outcome (WalkPoint * float) :=
  let* a := at_index (vertices m) (uvec3.x (indices start)) in
  let* b := at_index (vertices m) (uvec3.y (indices start)) in
  let* c := at_index (vertices m) (uvec3.z (indices start)) in
  let* p := to_world_point m start in
  let dest := (p + step)%V in
  let dest_bary := barycentric_weights a b c dest in
  let st := (infinity, UINT_MAX) in
  let st := cross_on_edge st 0 (vec3.x dest_bary) (vec3.x (weights start)) in
  let st := cross_on_edge st 1 (vec3.y dest_bary) (vec3.y (weights start)) in
  let st := cross_on_edge st 2 (vec3.z dest_bary) (vec3.z (weights start)) in
  let '(min_time, min_coord) := st in
  let time := fmin one min_time in
  let* _ := assert (time >? zero)%F in
  let w := (weights start + vscale time (dest_bary - weights start))%V in
  let i := indices start in
  let end_ :=
    match min_coord with
    | 0%N => mkWalkPoint (uvec3.mk (uvec3.y i) (uvec3.z i) (uvec3.x i))
                         (vec3.mk (vec3.y w) (vec3.z w) zero)
    | 1%N => mkWalkPoint (uvec3.mk (uvec3.z i) (uvec3.x i) (uvec3.y i))
                         (vec3.mk (vec3.z w) (vec3.x w) zero)
    | 2%N => mkWalkPoint i (vec3.mk (vec3.x w) (vec3.y w) zero)
    | _ => mkWalkPoint i w
    end in
  Ok (end_, time).

(** The half-open range [b, e) of a vector, as the iterator-pair
    constructor [std::vector(v.begin() + b, v.begin() + e)] copies it. *)
Definition slice {A : Type} (v : list A) (b e : N) : list A :=
  take (N.to_nat (e - b)) (drop (N.to_nat b) v).

(** The values [ti] takes in [for (ti = b; ti != e; ++ti)] when [b <= e]. *)
Definition index_range (b e : N) : list N :=
  map (fun k => (b + N.of_nat k)%N) (seq 0 (N.to_nat (e - b))).

Record IndexEntry : Type := mkIndexEntry {
  name_begin : N; name_end : N;
  vertex_begin : N; vertex_end : N;
  triangle_begin : N; triangle_end : N
}.

Section WalkMesh.

(** [glm::inversesqrt], [glm::rotation] and the value of a
    default-constructed [WalkPoint] come from headers that are not among
    the sources; the development is parametric in them. *)
Variable inversesqrt : float -> float.
Variable rotation : vec3 -> vec3 -> quat.
Variable WalkPoint_default : WalkPoint.

(** [glm::normalize(v)] is [v * inversesqrt(dot(v, v))]. *)
Definition normalize (v : vec3) : vec3 := vscale_r v (inversesqrt (dot v v)).

(** The consistency check of the constructor for one triangle. *)
Definition check_normal (vs ns : list vec3) (tri : uvec3) : outcome unit :=
  let* a := at_index vs (uvec3.x tri) in
  let* b := at_index vs (uvec3.y tri) in
  let* c := at_index vs (uvec3.z tri) in
  let out := normalize (cross (b - a) (c - a)) in
  let* na := at_index ns (uvec3.x tri) in
  let* nb := at_index ns (uvec3.y tri) in
  let* nc := at_index ns (uvec3.z tri) in
  let da := dot out na in
  let db := dot out nb in
  let dc := dot out nc in
  assert ((da >? zero)%F && (db >? zero)%F && (dc >? zero)%F).

(** [WalkMesh::WalkMesh] *)
Definition WalkMesh_new (vertices_ normals_ : list vec3) (triangles_ : list uvec3)
  : outcome WalkMesh :=
  let* nv := for_each insert_triangle triangles_ ∅ in
  let* _ := for_each (fun _ tri => check_normal vertices_ normals_ tri)
              triangles_ tt in
  Ok (mkWalkMesh vertices_ normals_ triangles_ nv).

(** [WalkMesh::nearest_walk_point] *)
Definition nearest_walk_point (m : WalkMesh) (world_point : vec3)
  : outcome WalkPoint :=
  let* _ := assert (negb (bool_decide (triangles m = []))) in
  let st := mkNearest WalkPoint_default infinity in
  let* st := for_each (nearest_step m world_point) (triangles m) st in
  let size := N.of_nat (length (vertices m)) in
  let* _ := assert (uvec3.x (indices (closest st)) <? size)%N in
  let* _ := assert (uvec3.y (indices (closest st)) <? size)%N in
  let* _ := assert (uvec3.z (indices (closest st)) <? size)%N in
  Ok (closest st).

(** [WalkMesh::cross_edge]: returns the [bool] together with the values
    written to [*end_] and [*rotation_]; [start] and [*end_] are distinct
    objects. *)
Definition cross_edge (m : WalkMesh) (start : WalkPoint)
  : outcome (bool * WalkPoint * quat) :=
  let* _ := assert (vec3.z (weights start) =? zero)%F in
  let i := indices start in
  let twin_triangle :=
    match next_vertex m !! (uvec3.y i, uvec3.x i) with
    | Some d => uvec3.mk (uvec3.y i) (uvec3.x i) d
    | None => uvec3.mk UINT_MAX UINT_MAX UINT_MAX
    end in
  if negb (uvec3.x twin_triangle =? UINT_MAX)%N then
    let* a := at_index (vertices m) (uvec3.x twin_triangle) in
    let* b := at_index (vertices m) (uvec3.y twin_triangle) in
    let* c := at_index (vertices m) (uvec3.z twin_triangle) in
    let* p := to_world_point m start in
    let end_ := mkWalkPoint twin_triangle (barycentric_weights a b c p) in
    let new_norm := normalize (cross (b - a) (c - a)) in
    let* a0 := at_index (vertices m) (uvec3.x i) in
    let* b0 := at_index (vertices m) (uvec3.y i) in
    let* c0 := at_index (vertices m) (uvec3.z i) in
    let old_norm := normalize (cross (b0 - a0) (c0 - a0)) in
    Ok (true, end_, rotation old_norm new_norm)
  else
    Ok (false, start, quat.mk one zero zero zero).

(** Remapping of one triangle of a sub-mesh to its local vertex range. *)
Definition remap_triangle (tris : list uvec3) (e : IndexEntry) (ti : N)
  : outcome uvec3 :=
  let* t := at_index tris ti in
  let inside (v : N) := ((vertex_begin e <=? v) && (v <? vertex_end e))%N in
  let* _ := require (inside (uvec3.x t) && inside (uvec3.y t) && inside (uvec3.z t))
              InvalidTriangle in
  Ok (uvec3.mk (uvec3.x t - vertex_begin e) (uvec3.y t - vertex_begin e)
               (uvec3.z t - vertex_begin e))%N.

(** Body of the loop over the index in [WalkMeshes::WalkMeshes]. *)
Definition load_entry (vs ns : list vec3) (tris : list uvec3) (names : list ascii)
    (meshes : gmap string WalkMesh) (e : IndexEntry)
  : outcome (gmap string WalkMesh) :=
  let* _ := require ((name_begin e <=? name_end e)
                     && (name_end e <=? N.of_nat (length names)))%N
              InvalidNameIndices in
  let* _ := require ((vertex_begin e <=? vertex_end e)
                     && (vertex_end e <=? N.of_nat (length vs)))%N
              InvalidVertexIndices in
  let* _ := require ((triangle_begin e <=? triangle_end e)
                     && (triangle_end e <=? N.of_nat (length tris)))%N
              InvalidTriangleIndices in
  let wm_vertices := slice vs (vertex_begin e) (vertex_end e) in
  let wm_normals := slice ns (vertex_begin e) (vertex_end e) in
  let* wm_triangles :=
    for_each (fun acc ti => let* t := remap_triangle tris e ti in Ok (acc ++ [t]))
      (index_range (triangle_begin e) (triangle_end e)) [] in
  let name := string_of_list_ascii (slice names (name_begin e) (name_end e)) in
  let* wm := WalkMesh_new wm_vertices wm_normals wm_triangles in
  match meshes !! name with
  | None => Ok (<[name := wm]> meshes)
  | Some _ => Stop (runtime_error (DuplicatedName name))
  end.

(** [WalkMeshes::WalkMeshes], from the contents of the five chunks read
    from the file. *)
Definition WalkMeshes_new (vs ns : list vec3) (tris : list uvec3)
    (names : list ascii) (index : list IndexEntry)
  : outcome (gmap string WalkMesh) :=
  let* _ := require (length vs =? length ns)%nat MismatchedSizes in
  for_each (load_entry vs ns tris names) index ∅.

End WalkMesh.

(** ** Vocabulary of the statements *)

(** A vector with rational components. *)
Definition q3 (x y z : Q) : vec3 := vec3.mk (Finite x) (Finite y) (Finite z).

#[export] Instance WalkPoint_equiv : Equiv WalkPoint :=
  fun p q => indices p = indices q /\ weights p ≡ weights q.

(** The validity invariant on weights: all three finite, non-negative, of
    sum one. *)
Definition valid_weights (w : vec3) : Prop :=
  match w with
  | vec3.mk (Finite u) (Finite v) (Finite t) =>
      (0 <= u /\ 0 <= v /\ 0 <= t /\ u + v + t == 1)%Q
  | _ => False
  end.

(** The three rotations of an index triple. *)
Definition rotate (t : uvec3) : uvec3 :=
  uvec3.mk (uvec3.y t) (uvec3.z t) (uvec3.x t).

Definition cyclic (t s : uvec3) : Prop :=
  s = t \/ s = rotate t \/ s = rotate (rotate t).

(** The rotation that brings the edge opposite to component [coord] into
    the first two slots. *)
Definition edge_to_front (coord : N) (t : uvec3) : uvec3 :=
  match coord with
  | 0%N => rotate t
  | 1%N => rotate (rotate t)
  | _ => t
  end.

(** Component [coord] of a vector, as in [v[coord]]. *)
Definition component (coord : N) (v : vec3) : float :=
  match coord with
  | 0%N => vec3.x v
  | 1%N => vec3.y v
  | _ => vec3.z v
  end.

(** The denominator of Cramer's rule for the triangle [a b c]. *)
Definition bary_denom (a b c : vec3) : float :=
  let v0 := (b - a)%V in
  let v1 := (c - a)%V in
  (dot v0 v0 * dot v1 v1 - dot v0 v1 * dot v0 v1)%F.

(** A triangle with finite corners spanning a plane. *)
Definition nondegenerate (a b c : vec3) : Prop :=
  finite_vec a /\ finite_vec b /\ finite_vec c /\
  (bary_denom a b c =? zero)%F = false.

(** The corners of an index triple in a vertex buffer. *)
Definition corners (vs : list vec3) (t : uvec3) : option (vec3 * vec3 * vec3) :=
  a ← vs !! N.to_nat (uvec3.x t);
  b ← vs !! N.to_nat (uvec3.y t);
  c ← vs !! N.to_nat (uvec3.z t);
  Some (a, b, c).

Definition triangle_ok (vs : list vec3) (t : uvec3) : Prop :=
  exists a b c, corners vs t = Some (a, b, c) /\ nondegenerate a b c.

(** What construction guarantees and the algorithms rely on: indices in
    range, non-degenerate triangles, and a directed-edge map that only
    holds edges of triangles of the list. *)
Record mesh_ok (m : WalkMesh) : Prop := {
  ok_triangles : Forall (triangle_ok (vertices m)) (triangles m);
  ok_next_vertex : forall a b c,
    next_vertex m !! (a, b) = Some c ->
    exists t, t ∈ triangles m /\ cyclic t (uvec3.mk a b c)
}.

(** A WalkPoint satisfying the validity invariant on mesh [m]. *)
Definition valid_walk_point (m : WalkMesh) (wp : WalkPoint) : Prop :=
  valid_weights (weights wp) /\
  exists t, t ∈ triangles m /\ cyclic t (indices wp).

(** The destination weights computed at the start of [walk_in_triangle]. *)
Definition destination_weights (m : WalkMesh) (start : WalkPoint) (step : vec3)
  : outcome vec3 :=
  let* a := at_index (vertices m) (uvec3.x (indices start)) in
  let* b := at_index (vertices m) (uvec3.y (indices start)) in
  let* c := at_index (vertices m) (uvec3.z (indices start)) in
  let* p := to_world_point m start in
  Ok (barycentric_weights a b c (p + step)%V).

(** The rest of [walk_in_triangle], from the destination weights on. *)
Definition walk_from (i : uvec3) (s dest_bary : vec3) : outcome (WalkPoint * float) :=
  let st := (infinity, UINT_MAX) in
  let st := cross_on_edge st 0 (vec3.x dest_bary) (vec3.x s) in
  let st := cross_on_edge st 1 (vec3.y dest_bary) (vec3.y s) in
  let st := cross_on_edge st 2 (vec3.z dest_bary) (vec3.z s) in
  let '(min_time, min_coord) := st in
  let time := fmin one min_time in
  let* _ := assert (time >? zero)%F in
  let w := (s + vscale time (dest_bary - s))%V in
  let end_ :=
    match min_coord with
    | 0%N => mkWalkPoint (uvec3.mk (uvec3.y i) (uvec3.z i) (uvec3.x i))
                         (vec3.mk (vec3.y w) (vec3.z w) zero)
    | 1%N => mkWalkPoint (uvec3.mk (uvec3.z i) (uvec3.x i) (uvec3.y i))
                         (vec3.mk (vec3.z w) (vec3.x w) zero)
    | 2%N => mkWalkPoint i (vec3.mk (vec3.x w) (vec3.y w) zero)
    | _ => mkWalkPoint i w
    end in
  Ok (end_, time).

(** Section 4.3, step 3: a weight component "decreases from a non-negative
    start value to a non-positive destination value". *)
Definition crosses (s d : float) : bool :=
  ((zero <=? s) && (d <=? zero) && (d <? s))%F.

(** The crossing time of one component, when the test of [cross_on_edge]
    yields a finite one. *)
Definition crossing_time (s d : Q) : option Q :=
  match Qsign d with
  | Gt => None
  | _ => match Qsign (d - s) with
         | Eq => None
         | _ => Some (- s / (d - s))%Q
         end
  end.

Definition keep_first_min (st : float * N) (coord : N) (c : option Q) : float * N :=
  match c with
  | None => st
  | Some t => if (Finite t <? fst st)%F then (Finite t, coord) else st
  end.

(** The state after the three tests: either nothing was recorded, or the
    recorded time is the least of the finite crossing times and belongs to
    the recorded component. *)
Definition selected (c0 c1 c2 : option Q) (st : float * N) : Prop :=
  match st with
  | (PosInf, i) => i = UINT_MAX /\ c0 = None /\ c1 = None /\ c2 = None
  | (Finite t, i) =>
      (i = 0%N /\ c0 = Some t \/ i = 1%N /\ c1 = Some t \/ i = 2%N /\ c2 = Some t)
      /\ (forall t', c0 = Some t' \/ c1 = Some t' \/ c2 = Some t' -> (t <= t')%Q)
  | _ => False
  end.


(** The interpolated weights [start.weights + time * (dest_bary - start.weights)]. *)
Definition walk_weights (s d : vec3) (time : float) : vec3 :=
  (s + vscale time (d - s))%V.

(** The relabelling of the weights in the [switch] of [walk_in_triangle]. *)
Definition front_weights (coord : N) (w : vec3) : vec3 :=
  match coord with
  | 0%N => vec3.mk (vec3.y w) (vec3.z w) zero
  | 1%N => vec3.mk (vec3.z w) (vec3.x w) zero
  | _ => vec3.mk (vec3.x w) (vec3.y w) zero
  end.

(** ** Instances for the worked examples *)

(** The inverse square root where it is rational: [1/r] on the square of a
    positive rational [r].  An irrational root has no value here and is
    reported as NaN, so that no example rests on an approximation. *)
Definition inversesqrt_exact (a : float) : float :=
  match a with
  | Finite q =>
      let r := Qred q in
      match Qnum r with
      | Zpos n =>
          let sn := Pos.sqrt n in
          let sd := Pos.sqrt (Qden r) in
          if ((sn * sn =? n) && (sd * sd =? Qden r))%positive
          then Finite (Zpos sd # sn)
          else NaN
      | Z0 => PosInf
      | Zneg _ => NaN
      end
  | PosInf => zero
  | NegInf | NaN => NaN
  end.

(** [glm::rotation] between equal vectors is the identity quaternion;
    other arguments do not occur in the examples and are answered by NaN. *)
Definition rotation_of_equal (u v : vec3) : quat :=
  if ((vec3.x u =? vec3.x v) && (vec3.y u =? vec3.y v) && (vec3.z u =? vec3.z v))%F
  then quat.mk one zero zero zero
  else quat.mk NaN NaN NaN NaN.

(** A default-constructed [WalkPoint]: indices [-1U], weights NaN. *)
Definition WalkPoint_unset : WalkPoint :=
  mkWalkPoint (uvec3.mk UINT_MAX UINT_MAX UINT_MAX) (vec3.mk NaN NaN NaN).

(** The unit square in the plane [z = 0], corners numbered
    [(0,0) (1,0) (0,1) (1,1)], with normals [+z]. *)
Definition square_vertices : list vec3 :=
  [q3 0 0 0; q3 1 0 0; q3 0 1 0; q3 1 1 0].
Definition square_normals : list vec3 :=
  [q3 0 0 1; q3 0 0 1; q3 0 0 1; q3 0 0 1].

(** The mesh of the end-to-end scenario of the specification: the single
    triangle [(0,0,0) (1,0,0) (0,1,0)]. *)
Definition flat_triangle : WalkMesh :=
  mkWalkMesh square_vertices square_normals [uvec3.mk 0 1 2]
    (<[(2%N, 0%N) := 1%N]> (<[(1%N, 2%N) := 0%N]> (<[(0%N, 1%N) := 2%N]> ∅))).

(** Both triangles of the square, sharing the edge between vertices 1 and 2. *)
Definition flat_square : WalkMesh :=
  mkWalkMesh square_vertices square_normals [uvec3.mk 0 1 2; uvec3.mk 2 1 3]
    (<[(3%N, 2%N) := 1%N]> (<[(1%N, 3%N) := 2%N]> (<[(2%N, 1%N) := 3%N]>
    (<[(2%N, 0%N) := 1%N]> (<[(1%N, 2%N) := 0%N]> (<[(0%N, 1%N) := 2%N]> ∅)))))).

(** Points of the examples, on the triangle [(0, 1, 2)]: one strictly
    inside, one in the middle of the edge from vertex 0 to vertex 1. *)
Definition inner_point : WalkPoint :=
  mkWalkPoint (uvec3.mk 0 1 2) (q3 (1#2) (1#4) (1#4)).
Definition edge_point : WalkPoint :=
  mkWalkPoint (uvec3.mk 0 1 2) (q3 (1#2) (1#2) 0).



(** Two index entries overlap when their vertex ranges or their triangle
    ranges intersect. *)
Definition ranges_intersect (b1 e1 b2 e2 : N) : bool :=
  ((b1 <? e2) && (b2 <? e1))%N.
Definition overlapping (e1 e2 : IndexEntry) : bool :=
  ranges_intersect (vertex_begin e1) (vertex_end e1) (vertex_begin e2) (vertex_end e2)
  || ranges_intersect (triangle_begin e1) (triangle_end e1)
       (triangle_begin e2) (triangle_end e2).

(** The three range checks made on an index entry. *)
Definition entry_in_bounds (names : list ascii) (vs : list vec3) (tris : list uvec3)
    (e : IndexEntry) : bool :=
  ((name_begin e <=? name_end e) && (name_end e <=? N.of_nat (length names))
   && (vertex_begin e <=? vertex_end e) && (vertex_end e <=? N.of_nat (length vs))
   && (triangle_begin e <=? triangle_end e)
   && (triangle_end e <=? N.of_nat (length tris)))%N.

(** A resource with two sub-meshes, ["a"] and ["b"], over the same three
    vertices and the same triangle. *)
Definition twice_indexed : list IndexEntry :=
  [mkIndexEntry 0 1 0 3 0 1; mkIndexEntry 1 2 0 3 0 1].

Definition first_three : WalkMesh :=
  mkWalkMesh [q3 0 0 0; q3 1 0 0; q3 0 1 0] [q3 0 0 1; q3 0 0 1; q3 0 0 1]
    [uvec3.mk 0 1 2]
    (<[(2%N, 0%N) := 1%N]> (<[(1%N, 2%N) := 0%N]> (<[(0%N, 1%N) := 2%N]> ∅))).

(** ** Candidates of the nearest-point search *)

(** The update [if (dis2 < closest_dis2) { ... }] that both branches of
    [nearest_walk_point] make. *)
Definition consider (st : nearest_state) (c : WalkPoint * float) : nearest_state :=
  if (snd c <? closest_dis2 st)%F then mkNearest (fst c) (snd c) else st.

(** The candidate that [check_edge] proposes for the edge from [a] to [b]. *)
Definition edge_candidate (a b : vec3) (ai bi ci : N) (world_point : vec3)
  : WalkPoint * float :=
  let along := dot (world_point - a) (b - a) in
  let max := dot (b - a) (b - a) in
  let '(pt, coords) :=
    if (along <? zero)%F then (a, vec3.mk one zero zero)
    else if (along >? max)%F then (b, vec3.mk zero one zero)
    else
      let amt := (along / max)%F in
      (mix a b amt, vec3.mk (one - amt) amt zero) in
  (mkWalkPoint (uvec3.mk ai bi ci) coords, length2 (world_point - pt)).

(** The candidates that one iteration of the loop proposes, in order. *)
Definition triangle_candidates (a b c : vec3) (tri : uvec3) (world_point : vec3)
  : list (WalkPoint * float) :=
  let coords := barycentric_weights a b c world_point in
  if (vec3.x coords >=? zero)%F && (vec3.y coords >=? zero)%F
     && (vec3.z coords >=? zero)%F
  then [(mkWalkPoint tri coords,
         length2 (world_point - (vscale (vec3.x coords) a + vscale (vec3.y coords) b
                                 + vscale (vec3.z coords) c)))]
  else [edge_candidate a b (uvec3.x tri) (uvec3.y tri) (uvec3.z tri) world_point;
        edge_candidate b c (uvec3.y tri) (uvec3.z tri) (uvec3.x tri) world_point;
        edge_candidate c a (uvec3.z tri) (uvec3.x tri) (uvec3.y tri) world_point].

Definition code_candidates (m : WalkMesh) (world_point : vec3)
  : list (WalkPoint * float) :=
  flat_map (fun tri =>
              match corners (vertices m) tri with
              | Some (a, b, c) => triangle_candidates a b c tri world_point
              | None => []
              end) (triangles m).

(** The candidates as section 4.2 of the specification words them. *)

(** "clamp along/max to [0,1]" *)
Definition spec_clamp (t : float) : float :=
  if (t <? zero)%F then zero else if (t >? one)%F then one else t.

(** "for each edge (p,q) (the triangle's remaining vertex r is tracked for
    result labeling), compute the closest point on the line segment p-q via
    1D clamped projection, yielding weights (1-t, t, 0) in the (p,q,r)
    ordering". *)
Definition spec_edge_candidate (p q : vec3) (pi qi ri : N) (point : vec3)
  : WalkPoint * float :=
  let along := dot (point - p) (q - p) in
  let max := dot (q - p) (q - p) in
  let t := spec_clamp (along / max) in
  (mkWalkPoint (uvec3.mk pi qi ri) (vec3.mk (one - t) t zero),
   length2 (point - (vscale (one - t) p + vscale t q))).

(** "If all weights >= 0, the projection lands inside the triangle;
    candidate distance is the squared distance from point to the projected
    3D position.  Otherwise, the closest point lies on one of the
    triangle's three edges or vertices". *)
Definition spec_triangle_candidates (a b c : vec3) (tri : uvec3) (point : vec3)
  : list (WalkPoint * float) :=
  let w := barycentric_weights a b c point in
  if (vec3.x w >=? zero)%F && (vec3.y w >=? zero)%F && (vec3.z w >=? zero)%F
  then [(mkWalkPoint tri w,
         length2 (point - (vscale (vec3.x w) a + vscale (vec3.y w) b
                           + vscale (vec3.z w) c)))]
  else [spec_edge_candidate a b (uvec3.x tri) (uvec3.y tri) (uvec3.z tri) point;
        spec_edge_candidate b c (uvec3.y tri) (uvec3.z tri) (uvec3.x tri) point;
        spec_edge_candidate c a (uvec3.z tri) (uvec3.x tri) (uvec3.y tri) point].

Definition spec_candidates (m : WalkMesh) (point : vec3) : list (WalkPoint * float) :=
  flat_map (fun tri =>
              match corners (vertices m) tri with
              | Some (a, b, c) => spec_triangle_candidates a b c tri point
              | None => []
              end) (triangles m).

(** Entry [k] of [l] is the first one of least distance. *)
Definition first_minimum (l : list (WalkPoint * float)) (k : nat)
    (p : WalkPoint) (d : float) : Prop :=
  l !! k = Some (p, d) /\
  forall j p' d', l !! j = Some (p', d') ->
    (d <=? d')%F = true /\ ((j < k)%nat -> (d <? d')%F = true).

(** Two candidates denote the same point at the same distance. *)
Definition candidate_same (c s : WalkPoint * float) : Prop :=
  fst c ≡ fst s /\ snd c ≡ snd s.

(** Unfold the vector algebra down to rational expressions, leaving the
    rational operations, divisions and comparisons in place. *)
Ltac vec_compute :=
  cbv [barycentric_weights bary_denom dot vsub vadd vscale vscale_r cross length2
       mix q3 walk_weights front_weights vec3.x vec3.y vec3.z
       fadd fsub fmul fneg one zero].
Ltac vec_compute_in H :=
  cbv [barycentric_weights bary_denom dot vsub vadd vscale vscale_r cross length2
       mix q3 walk_weights front_weights vec3.x vec3.y vec3.z
       fadd fsub fmul fneg one zero] in H.


(** ** Further vocabulary: lookup, directed edges, sub-meshes *)

(** [WalkMeshes::lookup]: the mesh bound to [name], or the message of the
    [std::runtime_error] that is thrown. *)
Definition WalkMeshes_lookup (meshes : gmap string WalkMesh) (name : string)
  : string + WalkMesh :=
  match meshes !! name with
  | Some m => inr m
  | None =>
      inl (String.append "WalkMesh with name '" (String.append name "' not found."))
  end.

(** The three directed edges that the constructor enters for a triangle. *)
Definition directed_edges (t : uvec3) : list (N * N) :=
  [(uvec3.x t, uvec3.y t); (uvec3.y t, uvec3.z t); (uvec3.z t, uvec3.x t)].


(** The name of an index entry: the bytes [name_begin, name_end) of the
    name chunk. *)
Definition entry_name (names : list ascii) (e : IndexEntry) : string :=
  string_of_list_ascii (slice names (name_begin e) (name_end e)).

(** The test made on each triangle of an entry: all three vertices inside
    the entry's vertex range. *)
Definition inside_entry (e : IndexEntry) (t : uvec3) : bool :=
  let inside (v : N) := ((vertex_begin e <=? v) && (v <? vertex_end e))%N in
  inside (uvec3.x t) && inside (uvec3.y t) && inside (uvec3.z t).

(** A triangle renumbered from the entry's first vertex. *)
Definition local_triangle (e : IndexEntry) (t : uvec3) : uvec3 :=
  uvec3.mk (uvec3.x t - vertex_begin e) (uvec3.y t - vertex_begin e)
           (uvec3.z t - vertex_begin e)%N.


(** ** The contract of [glm::rotation]

    [cross_edge] passes two normalized normals to [glm::rotation] and
    hands the quaternion back.  What that quaternion does is glm's
    business; its documented contract is stated here, over glm's rotation
    of a vector by a quaternion ([q * v]). *)







(** ** The same code in IEEE single precision

    The definitions above read the program's [float] as exact numbers.
    Module [B32] embeds the same functions with the arithmetic the program
    runs: binary32 values ([prec = 24], [emax = 128]) with the operations
    of [SpecFloat], every one rounded to nearest, ties to even, with
    signed zeros, gradual underflow and overflow to infinity.  The control
    flow is the one above, line for line; only the scalars differ. *)

Module B32.

Definition prec : Z := 24.
Definition emax : Z := 128.

Definition float : Type := spec_float.

Definition zero : float := S754_zero false.
Definition one : float := S754_finite false 8388608 (-23).
(** [std::numeric_limits<float>::infinity()] *)
Definition infinity : float := S754_infinity false.

Definition fneg : float -> float := SFopp.
Definition fadd : float -> float -> float := SFadd prec emax.
Definition fsub : float -> float -> float := SFsub prec emax.
Definition fmul : float -> float -> float := SFmul prec emax.
Definition fdiv : float -> float -> float := SFdiv prec emax.
Definition fsqrt : float -> float := SFsqrt prec emax.

(** Comparisons: every comparison with NaN is false. *)
Definition fltb : float -> float -> bool := SFltb.
Definition feqb : float -> float -> bool := SFeqb.
Definition fleb : float -> float -> bool := SFleb.
Definition fgtb (a b : float) : bool := fltb b a.
Definition fgeb (a b : float) : bool := fleb b a.

(** [std::min(a, b)] is [(b < a) ? b : a]. *)
Definition fmin (a b : float) : float := if fltb b a then b else a.

Module Export FloatNotations.
Declare Scope b32_scope.
Delimit Scope b32_scope with B.
Bind Scope b32_scope with float.
Notation "a + b" := (fadd a b) : b32_scope.
Notation "a - b" := (fsub a b) : b32_scope.
Notation "a * b" := (fmul a b) : b32_scope.
Notation "a / b" := (fdiv a b) : b32_scope.
Notation "- a" := (fneg a) : b32_scope.
Notation "a <? b" := (fltb a b) : b32_scope.
Notation "a >? b" := (fgtb a b) : b32_scope.
Notation "a <=? b" := (fleb a b) : b32_scope.
Notation "a >=? b" := (fgeb a b) : b32_scope.
Notation "a =? b" := (feqb a b) : b32_scope.
End FloatNotations.

(** The binary32 value nearest to the integer [n], to [m * 2^e] and to the
    quotient [n / d]: what the compiler makes of a decimal literal. *)
Definition of_Z (n : Z) : float := binary_normalize prec emax n 0 false.
Definition of_scaled (m e : Z) : float := binary_normalize prec emax m e false.
Definition of_ratio (n d : Z) : float := fdiv (of_Z n) (of_Z d).

Module vec3.
Record t : Type := mk { x : float; y : float; z : float }.
End vec3.
Abbreviation vec3 := vec3.t.

Module quat.
Record t : Type := mk { w : float; x : float; y : float; z : float }.
End quat.
Abbreviation quat := quat.t.


Definition vadd (a b : vec3) : vec3 :=
  vec3.mk (vec3.x a + vec3.x b)%B (vec3.y a + vec3.y b)%B (vec3.z a + vec3.z b)%B.
Definition vsub (a b : vec3) : vec3 :=
  vec3.mk (vec3.x a - vec3.x b)%B (vec3.y a - vec3.y b)%B (vec3.z a - vec3.z b)%B.
(** [s * v] *)
Definition vscale (s : float) (v : vec3) : vec3 :=
  vec3.mk (s * vec3.x v)%B (s * vec3.y v)%B (s * vec3.z v)%B.
(** [v * s] *)
Definition vscale_r (v : vec3) (s : float) : vec3 :=
  vec3.mk (vec3.x v * s)%B (vec3.y v * s)%B (vec3.z v * s)%B.

Module Export VecNotations.
Declare Scope b32_vec_scope.
Delimit Scope b32_vec_scope with BV.
Bind Scope b32_vec_scope with vec3.t.
Notation "a + b" := (vadd a b) : b32_vec_scope.
Notation "a - b" := (vsub a b) : b32_vec_scope.
End VecNotations.

(** [glm::dot] *)
Definition dot (a b : vec3) : float :=
  (vec3.x a * vec3.x b + vec3.y a * vec3.y b + vec3.z a * vec3.z b)%B.

(** [glm::cross] *)
Definition cross (a b : vec3) : vec3 :=
  vec3.mk (vec3.y a * vec3.z b - vec3.y b * vec3.z a)%B
          (vec3.z a * vec3.x b - vec3.z b * vec3.x a)%B
          (vec3.x a * vec3.y b - vec3.x b * vec3.y a)%B.

(** [glm::length2] *)
Definition length2 (v : vec3) : float := dot v v.

(** [glm::mix(a, b, t)] is [a * (1 - t) + b * t]. *)
Definition mix (a b : vec3) (t : float) : vec3 :=
  (vscale_r a (one - t)%B + vscale_r b t)%BV.

Record WalkPoint : Type := mkWalkPoint {
  indices : uvec3;
  weights : vec3
}.

Record WalkMesh : Type := mkWalkMesh {
  vertices : list vec3;
  normals : list vec3;
  triangles : list uvec3;
  next_vertex : gmap (N * N) N
}.

(** project pt to the plane of triangle a,b,c and return the barycentric
    weights of the projected point (Cramer's rule). *)
Definition barycentric_weights (a b c pt : vec3) : vec3 :=
  let v0 := (b - a)%BV in
  let v1 := (c - a)%BV in
  let v2 := (pt - a)%BV in
  let d00 := dot v0 v0 in
  let d01 := dot v0 v1 in
  let d11 := dot v1 v1 in
  let d20 := dot v2 v0 in
  let d21 := dot v2 v1 in
  let denom := (d00 * d11 - d01 * d01)%B in
  let v := ((d11 * d20 - d01 * d21) / denom)%B in
  let w := ((d00 * d21 - d01 * d20) / denom)%B in
  let u := (one - v - w)%B in
  vec3.mk u v w.

(** Modelled from the spec: [WalkMesh::to_world_point] is declared in
    [WalkMesh.hpp], which is not among the sources; section 4.3 gives it as
    the weighted sum of the triangle's vertices by the barycentric weights. *)
Definition to_world_point (m : WalkMesh) (wp : WalkPoint) : outcome vec3 :=
  let* a := at_index (vertices m) (uvec3.x (indices wp)) in
  let* b := at_index (vertices m) (uvec3.y (indices wp)) in
  let* c := at_index (vertices m) (uvec3.z (indices wp)) in
  Ok (vscale (vec3.x (weights wp)) a
      + vscale (vec3.y (weights wp)) b
      + vscale (vec3.z (weights wp)) c)%BV.

(** Closest-point search state of [nearest_walk_point]. *)
Record nearest_state : Type := mkNearest {
  closest : WalkPoint;
  closest_dis2 : float
}.

(** The lambda [check_edge] of [nearest_walk_point]. *)
Definition check_edge (vs : list vec3) (world_point : vec3) (st : nearest_state)
    (ai bi ci : N) : outcome nearest_state :=
  let* a := at_index vs ai in
  let* b := at_index vs bi in
  let along := dot (world_point - a) (b - a) in
  let max := dot (b - a) (b - a) in
  let '(pt, coords) :=
    if (along <? zero)%B then (a, vec3.mk one zero zero)
    else if (along >? max)%B then (b, vec3.mk zero one zero)
    else
      let amt := (along / max)%B in
      (mix a b amt, vec3.mk (one - amt)%B amt zero) in
  let dis2 := length2 (world_point - pt) in
  if (dis2 <? closest_dis2 st)%B
  then Ok (mkNearest (mkWalkPoint (uvec3.mk ai bi ci) coords) dis2)
  else Ok st.

(** Body of the loop over the triangles in [nearest_walk_point]. *)
Definition nearest_step (m : WalkMesh) (world_point : vec3) (st : nearest_state)
    (tri : uvec3) : outcome nearest_state :=
  let* a := at_index (vertices m) (uvec3.x tri) in
  let* b := at_index (vertices m) (uvec3.y tri) in
  let* c := at_index (vertices m) (uvec3.z tri) in
  let coords := barycentric_weights a b c world_point in
  if (vec3.x coords >=? zero)%B && (vec3.y coords >=? zero)%B
     && (vec3.z coords >=? zero)%B
  then
    let* p := to_world_point m (mkWalkPoint tri coords) in
    let dis2 := length2 (world_point - p) in
    if (dis2 <? closest_dis2 st)%B
    then Ok (mkNearest (mkWalkPoint tri coords) dis2)
    else Ok st
  else
    let* st := check_edge (vertices m) world_point st
                 (uvec3.x tri) (uvec3.y tri) (uvec3.z tri) in
    let* st := check_edge (vertices m) world_point st
                 (uvec3.y tri) (uvec3.z tri) (uvec3.x tri) in
    check_edge (vertices m) world_point st
      (uvec3.z tri) (uvec3.x tri) (uvec3.y tri).

(** The lambda [cross_on_edge] of [walk_in_triangle]; the state is
    [(min_time, min_coord)]. *)
Definition cross_on_edge (st : float * N) (coord : N) (dest_w start_w : float)
  : float * N :=
  if (dest_w >? zero)%B then st
  else
    let time := (- start_w / (dest_w - start_w))%B in
    if (time <? fst st)%B then (time, coord) else st.

(** [walk_in_triangle]: the results [*end_] and [*time_] are returned as a
    pair; [start] and [*end_] are distinct objects. *)
Definition walk_in_triangle (m : WalkMesh) (start : WalkPoint) (step : vec3)
  : outcome (WalkPoint * float) :=
  let* a := at_index (vertices m) (uvec3.x (indices start)) in
  let* b := at_index (vertices m) (uvec3.y (indices start)) in
  let* c := at_index (vertices m) (uvec3.z (indices start)) in
  let* p := to_world_point m start in
  let dest := (p + step)%BV in
  let dest_bary := barycentric_weights a b c dest in
  let st := (infinity, UINT_MAX) in
  let st := cross_on_edge st 0 (vec3.x dest_bary) (vec3.x (weights start)) in
  let st := cross_on_edge st 1 (vec3.y dest_bary) (vec3.y (weights start)) in
  let st := cross_on_edge st 2 (vec3.z dest_bary) (vec3.z (weights start)) in
  let '(min_time, min_coord) := st in
  let time := fmin one min_time in
  let* _ := assert (time >? zero)%B in
  let w := (weights start + vscale time (dest_bary - weights start))%BV in
  let i := indices start in
  let end_ :=
    match min_coord with
    | 0%N => mkWalkPoint (uvec3.mk (uvec3.y i) (uvec3.z i) (uvec3.x i))
                         (vec3.mk (vec3.y w) (vec3.z w) zero)
    | 1%N => mkWalkPoint (uvec3.mk (uvec3.z i) (uvec3.x i) (uvec3.y i))
                         (vec3.mk (vec3.z w) (vec3.x w) zero)
    | 2%N => mkWalkPoint i (vec3.mk (vec3.x w) (vec3.y w) zero)
    | _ => mkWalkPoint i w
    end in
  Ok (end_, time).

Section WalkMesh.

(** [glm::inversesqrt], [glm::rotation] and the value of a
    default-constructed [WalkPoint] come from headers that are not among
    the sources. *)
Variable inversesqrt : float -> float.
Variable rotation : vec3 -> vec3 -> quat.
Variable WalkPoint_default : WalkPoint.

(** [glm::normalize(v)] is [v * inversesqrt(dot(v, v))]. *)
Definition normalize (v : vec3) : vec3 := vscale_r v (inversesqrt (dot v v)).

(** [WalkMesh::nearest_walk_point] *)
Definition nearest_walk_point (m : WalkMesh) (world_point : vec3)
  : outcome WalkPoint :=
  let* _ := assert (negb (bool_decide (triangles m = []))) in
  let st := mkNearest WalkPoint_default infinity in
  let* st := for_each (nearest_step m world_point) (triangles m) st in
  let size := N.of_nat (length (vertices m)) in
  let* _ := assert (uvec3.x (indices (closest st)) <? size)%N in
  let* _ := assert (uvec3.y (indices (closest st)) <? size)%N in
  let* _ := assert (uvec3.z (indices (closest st)) <? size)%N in
  Ok (closest st).

(** [WalkMesh::cross_edge]: returns the [bool] together with the values
    written to [*end_] and [*rotation_]; [start] and [*end_] are distinct
    objects. *)
Definition cross_edge (m : WalkMesh) (start : WalkPoint)
  : outcome (bool * WalkPoint * quat) :=
  let* _ := assert (vec3.z (weights start) =? zero)%B in
  let i := indices start in
  let twin_triangle :=
    match next_vertex m !! (uvec3.y i, uvec3.x i) with
    | Some d => uvec3.mk (uvec3.y i) (uvec3.x i) d
    | None => uvec3.mk UINT_MAX UINT_MAX UINT_MAX
    end in
  if negb (uvec3.x twin_triangle =? UINT_MAX)%N then
    let* a := at_index (vertices m) (uvec3.x twin_triangle) in
    let* b := at_index (vertices m) (uvec3.y twin_triangle) in
    let* c := at_index (vertices m) (uvec3.z twin_triangle) in
    let* p := to_world_point m start in
    let end_ := mkWalkPoint twin_triangle (barycentric_weights a b c p) in
    let new_norm := normalize (cross (b - a) (c - a)) in
    let* a0 := at_index (vertices m) (uvec3.x i) in
    let* b0 := at_index (vertices m) (uvec3.y i) in
    let* c0 := at_index (vertices m) (uvec3.z i) in
    let old_norm := normalize (cross (b0 - a0) (c0 - a0)) in
    Ok (true, end_, rotation old_norm new_norm)
  else
    Ok (false, start, quat.mk one zero zero zero).

End WalkMesh.

(** *** Vocabulary of the statements *)

Definition is_nan (a : float) : bool :=
  match a with S754_nan => true | _ => false end.

(** Equality of values: [==] on every component (the two zeros are equal,
    NaN is equal to nothing). *)
Definition same_vec (u v : vec3) : Prop :=
  (vec3.x u =? vec3.x v)%B = true /\ (vec3.y u =? vec3.y v)%B = true
  /\ (vec3.z u =? vec3.z v)%B = true.

(** A weight that is finite and not negative. *)
Definition weight_ok (a : float) : bool := ((zero <=? a) && (a <? infinity))%B.

(** Component [coord] of a vector, as in [v[coord]]. *)
Definition component (coord : N) (v : vec3) : float :=
  match coord with
  | 0%N => vec3.x v
  | 1%N => vec3.y v
  | _ => vec3.z v
  end.

(** The corners of an index triple in a vertex buffer. *)
Definition corners (vs : list vec3) (t : uvec3) : option (vec3 * vec3 * vec3) :=
  a ← vs !! N.to_nat (uvec3.x t);
  b ← vs !! N.to_nat (uvec3.y t);
  c ← vs !! N.to_nat (uvec3.z t);
  Some (a, b, c).

(** The destination weights computed at the start of [walk_in_triangle]. *)
Definition destination_weights (m : WalkMesh) (start : WalkPoint) (step : vec3)
  : outcome vec3 :=
  let* a := at_index (vertices m) (uvec3.x (indices start)) in
  let* b := at_index (vertices m) (uvec3.y (indices start)) in
  let* c := at_index (vertices m) (uvec3.z (indices start)) in
  let* p := to_world_point m start in
  Ok (barycentric_weights a b c (p + step)%BV).

(** The rest of [walk_in_triangle], from the destination weights on. *)
Definition walk_from (i : uvec3) (s dest_bary : vec3) : outcome (WalkPoint * float) :=
  let st := (infinity, UINT_MAX) in
  let st := cross_on_edge st 0 (vec3.x dest_bary) (vec3.x s) in
  let st := cross_on_edge st 1 (vec3.y dest_bary) (vec3.y s) in
  let st := cross_on_edge st 2 (vec3.z dest_bary) (vec3.z s) in
  let '(min_time, min_coord) := st in
  let time := fmin one min_time in
  let* _ := assert (time >? zero)%B in
  let w := (s + vscale time (dest_bary - s))%BV in
  let end_ :=
    match min_coord with
    | 0%N => mkWalkPoint (uvec3.mk (uvec3.y i) (uvec3.z i) (uvec3.x i))
                         (vec3.mk (vec3.y w) (vec3.z w) zero)
    | 1%N => mkWalkPoint (uvec3.mk (uvec3.z i) (uvec3.x i) (uvec3.y i))
                         (vec3.mk (vec3.z w) (vec3.x w) zero)
    | 2%N => mkWalkPoint i (vec3.mk (vec3.x w) (vec3.y w) zero)
    | _ => mkWalkPoint i w
    end in
  Ok (end_, time).

(** The quotient [-start_w / (dest_w - start_w)] of [cross_on_edge]. *)
Definition crossing_quotient (start_w dest_w : float) : float :=
  (- start_w / (dest_w - start_w))%B.

(** The interpolated weights [start.weights + time * (dest_bary - start.weights)]. *)
Definition walk_weights (s d : vec3) (time : float) : vec3 :=
  (s + vscale time (d - s))%BV.

(** The relabelling of the weights in the [switch] of [walk_in_triangle]. *)
Definition front_weights (coord : N) (w : vec3) : vec3 :=
  match coord with
  | 0%N => vec3.mk (vec3.y w) (vec3.z w) zero
  | 1%N => vec3.mk (vec3.z w) (vec3.x w) zero
  | _ => vec3.mk (vec3.x w) (vec3.y w) zero
  end.

(** The update [if (dis2 < closest_dis2) { ... }] that both branches of
    [nearest_walk_point] make. *)
Definition consider (st : nearest_state) (c : WalkPoint * float) : nearest_state :=
  if (snd c <? closest_dis2 st)%B then mkNearest (fst c) (snd c) else st.

(** The candidates as sections 4.1 and 4.2 of the specification word them. *)

(** "projects point onto the plane through triangle (a,b,c) and returns
    the weights such that point_projected = u*a + v*b + w*c, u+v+w = 1.
    Computed via the standard 2x2 linear solve (Cramer's rule) using the
    dot products of edge vectors (b-a), (c-a), and (point-a)": the system
    [m11 v + m12 w = r1], [m12 v + m22 w = r2], each unknown the quotient
    of the determinant with its column replaced by the right-hand side. *)
Definition spec_plane_weights (a b c point : vec3) : vec3 :=
  let e1 := (b - a)%BV in
  let e2 := (c - a)%BV in
  let r := (point - a)%BV in
  let m11 := dot e1 e1 in
  let m12 := dot e1 e2 in
  let m22 := dot e2 e2 in
  let r1 := dot r e1 in
  let r2 := dot r e2 in
  let det := (m11 * m22 - m12 * m12)%B in
  let v := ((r1 * m22 - m12 * r2) / det)%B in
  let w := ((m11 * r2 - r1 * m12) / det)%B in
  vec3.mk (one - v - w)%B v w.

(** "for each edge (p,q) (the triangle's remaining vertex r is tracked for
    result labeling), compute the closest point on the line segment p-q
    via 1D clamped projection (along = dot(point-p, q-p), max = dot(q-p,
    q-p), clamp along/max to [0,1]), yielding weights (1-t, t, 0) in the
    (p,q,r) ordering": the end [p] when [along] is negative, the end [q]
    when [along] exceeds [max], the point at [along/max] between them
    otherwise. *)
Definition spec_edge_candidate (p q : vec3) (pi qi ri : N) (point : vec3)
  : WalkPoint * float :=
  let along := dot (point - p) (q - p) in
  let max := dot (q - p) (q - p) in
  if (along <? zero)%B
  then (mkWalkPoint (uvec3.mk pi qi ri) (vec3.mk one zero zero), length2 (point - p))
  else if (max <? along)%B
  then (mkWalkPoint (uvec3.mk pi qi ri) (vec3.mk zero one zero), length2 (point - q))
  else
    let t := (along / max)%B in
    (mkWalkPoint (uvec3.mk pi qi ri) (vec3.mk (one - t)%B t zero),
     length2 (point - mix p q t)).

(** "If all weights >= 0, the projection lands inside the triangle;
    candidate distance is the squared distance from point to the projected
    3D position.  Otherwise, the closest point lies on one of the
    triangle's three edges or vertices". *)
Definition spec_triangle_candidates (a b c : vec3) (tri : uvec3) (point : vec3)
  : list (WalkPoint * float) :=
  let w := spec_plane_weights a b c point in
  if (zero <=? vec3.x w)%B && (zero <=? vec3.y w)%B && (zero <=? vec3.z w)%B
  then [(mkWalkPoint tri w,
         length2 (point - (vscale (vec3.x w) a + vscale (vec3.y w) b
                           + vscale (vec3.z w) c)))]
  else [spec_edge_candidate a b (uvec3.x tri) (uvec3.y tri) (uvec3.z tri) point;
        spec_edge_candidate b c (uvec3.y tri) (uvec3.z tri) (uvec3.x tri) point;
        spec_edge_candidate c a (uvec3.z tri) (uvec3.x tri) (uvec3.y tri) point].

Definition spec_candidates (m : WalkMesh) (point : vec3) : list (WalkPoint * float) :=
  flat_map (fun tri =>
              match corners (vertices m) tri with
              | Some (a, b, c) => spec_triangle_candidates a b c tri point
              | None => []
              end) (triangles m).

(** Every triangle of the list names three vertices of the buffer. *)
Definition indices_in_range (m : WalkMesh) : Prop :=
  Forall (fun tri => is_Some (corners (vertices m) tri)) (triangles m).

(** Entry [k] of [l] is the first one of least distance: its distance is
    below [+inf], no entry is nearer, and every earlier entry is farther
    (or has no distance, being NaN). *)
Definition first_minimum (l : list (WalkPoint * float)) (k : nat)
    (p : WalkPoint) (d : float) : Prop :=
  l !! k = Some (p, d) /\ (d <? infinity)%B = true /\
  forall j p' d', l !! j = Some (p', d') ->
    (d' <? d)%B = false /\ ((j < k)%nat -> (d' <=? d)%B = false).

(** The directed-edge map holds edges of triangles of the list only, as
    the constructor builds it. *)
Definition map_sound (m : WalkMesh) : Prop :=
  forall a b c,
    next_vertex m !! (a, b) = Some c ->
    exists t, t ∈ triangles m /\ cyclic t (uvec3.mk a b c).

(** What is left of [nearest_walk_point] when no candidate was recorded:
    the three assertions on the default-constructed [closest]. *)
Definition nothing_nearer (m : WalkMesh) (dflt : WalkPoint) : outcome WalkPoint :=
  let size := N.of_nat (length (vertices m)) in
  let* _ := assert (uvec3.x (indices dflt) <? size)%N in
  let* _ := assert (uvec3.y (indices dflt) <? size)%N in
  let* _ := assert (uvec3.z (indices dflt) <? size)%N in
  Ok dflt.

(** *** Instances for the worked examples *)

Definition v3 (x y z : float) : vec3 := vec3.mk x y z.

(** [glm::inversesqrt(x)] is [1 / sqrt(x)]. *)
Definition inversesqrt_ieee (x : float) : float := (one / fsqrt x)%B.

(** [glm::rotation] plays no part in the indices and weights that
    [cross_edge] returns; the examples put the identity in its place. *)
Definition rotation_unused (u v : vec3) : quat := quat.mk one zero zero zero.

(** A default-constructed [WalkPoint]: indices [-1U], weights NaN. *)
Definition WalkPoint_unset : WalkPoint :=
  mkWalkPoint (uvec3.mk UINT_MAX UINT_MAX UINT_MAX) (v3 S754_nan S754_nan S754_nan).

Definition square_vertices : list vec3 :=
  [v3 zero zero zero; v3 one zero zero; v3 zero one zero; v3 one one zero].
Definition square_normals : list vec3 :=
  [v3 zero zero one; v3 zero zero one; v3 zero zero one; v3 zero zero one].

(** The single triangle [(0,0,0) (1,0,0) (0,1,0)]. *)
Definition flat_triangle : WalkMesh :=
  mkWalkMesh square_vertices square_normals [uvec3.mk 0 1 2]
    (<[(2%N, 0%N) := 1%N]> (<[(1%N, 2%N) := 0%N]> (<[(0%N, 1%N) := 2%N]> ∅))).

(** Both triangles of the unit square. *)
Definition flat_square : WalkMesh :=
  mkWalkMesh square_vertices square_normals [uvec3.mk 0 1 2; uvec3.mk 2 1 3]
    (<[(3%N, 2%N) := 1%N]> (<[(1%N, 3%N) := 2%N]> (<[(2%N, 1%N) := 3%N]>
    (<[(2%N, 0%N) := 1%N]> (<[(1%N, 2%N) := 0%N]> (<[(0%N, 1%N) := 2%N]> ∅)))))).

(** The point of weights [(1/2, 1/4, 1/4)] on the triangle [(0, 1, 2)]. *)
Definition inner_point : WalkPoint :=
  mkWalkPoint (uvec3.mk 0 1 2) (v3 (of_scaled 1 (-1)) (of_scaled 1 (-2)) (of_scaled 1 (-2))).

(** The middle of the edge from vertex 0 to vertex 1. *)
Definition edge_point : WalkPoint :=
  mkWalkPoint (uvec3.mk 0 1 2) (v3 (of_scaled 1 (-1)) (of_scaled 1 (-1)) zero).

(** The triangle [(0,0,0) (1,2,0) (1,3,0)] and the point of weights
    [(0.3f, 0.7f, 0)] on it. *)
Definition slanted_triangle : WalkMesh :=
  mkWalkMesh [v3 zero zero zero; v3 one (of_Z 2) zero; v3 one (of_Z 3) zero]
    [v3 zero zero one; v3 zero zero one; v3 zero zero one] [uvec3.mk 0 1 2]
    (<[(2%N, 0%N) := 1%N]> (<[(1%N, 2%N) := 0%N]> (<[(0%N, 1%N) := 2%N]> ∅))).
Definition slanted_point : WalkPoint :=
  mkWalkPoint (uvec3.mk 0 1 2) (v3 (of_ratio 3 10) (of_ratio 7 10) zero).


(** A start inside the triangle [(0, 1, 2)] and a step that stays inside,
    both with 24-bit mantissas. *)
Definition long_start : WalkPoint :=
  mkWalkPoint (uvec3.mk 0 1 2)
    (v3 (of_scaled 9685683 (-25)) (of_scaled 5080549 (-24)) (of_scaled 13707651 (-25))).
Definition long_step : vec3 :=
  v3 (of_scaled (-4823603) (-24)) (of_scaled (-9706669) (-25)) zero.

(** A start strictly inside the triangle, of weights
    [(1/2, 1/2 - 2^-25, 2^-25)], and the step [(0, -3e38f, 0)]. *)
Definition shallow_start : WalkPoint :=
  mkWalkPoint (uvec3.mk 0 1 2)
    (v3 (of_scaled 1 (-1)) (of_scaled 16777215 (-25)) (of_scaled 1 (-25))).
Definition huge_step : vec3 := v3 zero (- of_Z (3 * 10 ^ 38))%B zero.

End B32.

(** *** The order of binary32 values

    Every value but NaN has a place in a lexicographic order of triples:
    the class (the infinities, the negative and the positive finite values,
    the two zeros together), then the exponent, then the mantissa, the
    last two counted downwards on the negative side.  [SFcompare] is the
    comparison of these triples. *)

Definition order_key (a : B32.float) : Z * Z * Z :=
  match a with
  | S754_nan => (0, 0, 0)
  | S754_zero _ => (0, 0, 0)
  | S754_infinity true => (-2, 0, 0)
  | S754_infinity false => (2, 0, 0)
  | S754_finite false m e => (1, e, Zpos m)
  | S754_finite true m e => (-1, - e, Zneg m)
  end%Z.

Definition key_lt (a b : Z * Z * Z) : Prop :=
  (a.1.1 < b.1.1 \/ a.1.1 = b.1.1 /\ (a.1.2 < b.1.2 \/ a.1.2 = b.1.2 /\ a.2 < b.2))%Z.

(** The search state after the three calls. *)
Definition b32_crossing_state (s d : B32.vec3) : B32.float * N :=
  B32.cross_on_edge
    (B32.cross_on_edge
       (B32.cross_on_edge (B32.infinity, UINT_MAX) 0 (B32.vec3.x d) (B32.vec3.x s))
       1 (B32.vec3.y d) (B32.vec3.y s))
    2 (B32.vec3.z d) (B32.vec3.z s).
(** ** Properties *)

(** *** Scalars *)

Lemma fdiv_finite (p q : Q) :
  ~ (q == 0)%Q -> (Finite p / Finite q)%F = Finite (p / q).
Proof.
  intros Hq. unfold fdiv, Qsign.
  destruct (Qcompare_spec q 0) as [E | _ | _]; [contradiction | reflexivity ..].
Qed.

Lemma fdiv_zero_zero (p q : Q) :
  (p == 0)%Q -> (q == 0)%Q -> (Finite p / Finite q)%F = NaN.
Proof.
  intros Hp Hq. unfold fdiv, Qsign.
  destruct (Qcompare_spec q 0) as [_ | L | L]; [| lra ..].
  destruct (Qcompare_spec p 0) as [_ | L | L]; [reflexivity | lra ..].
Qed.

Lemma fltb_finite (p q : Q) : (Finite p <? Finite q)%F = true <-> (p < q)%Q.
Proof.
  unfold fltb. destruct (Qcompare_spec p q); split; intros; try easy; lra.
Qed.

Lemma fltb_finite_false (p q : Q) : (Finite p <? Finite q)%F = false <-> (q <= p)%Q.
Proof.
  unfold fltb. destruct (Qcompare_spec p q); split; intros; try easy; lra.
Qed.

Lemma feqb_finite (p q : Q) : (Finite p =? Finite q)%F = true <-> (p == q)%Q.
Proof.
  unfold feqb. destruct (Qcompare_spec p q); split; intros; try easy; lra.
Qed.

Lemma feqb_finite_false (p q : Q) : (Finite p =? Finite q)%F = false <-> ~ (p == q)%Q.
Proof.
  unfold feqb. destruct (Qcompare_spec p q); split; intros; try easy; lra.
Qed.

Lemma fgeb_finite (p q : Q) : (Finite p >=? Finite q)%F = true <-> (q <= p)%Q.
Proof.
  unfold fgeb, fleb. rewrite orb_true_iff, fltb_finite, feqb_finite. lra.
Qed.

Lemma is_finite_inv (a : float) : is_finite a -> exists q, a = Finite q.
Proof. destruct a; simpl; intros H; try contradiction. eauto. Qed.

Lemma finite_vec_inv (v : vec3) : finite_vec v -> exists x y z, v = q3 x y z.
Proof.
  destruct v as [x y z]. intros (Hx & Hy & Hz). simpl in *.
  apply is_finite_inv in Hx as [? ->], Hy as [? ->], Hz as [? ->].
  unfold q3. eauto.
Qed.


#[export] Instance float_same_equivalence : Equivalence (≡@{float}).
Proof.
  split.
  - intros [q| | |]; cbn; auto. reflexivity.
  - intros [p| | |] [q| | |]; cbn; auto. intros H. symmetry. exact H.
  - intros [p| | |] [q| | |] [r| | |]; cbn; auto; try contradiction.
    intros H1 H2. rewrite H1. exact H2.
Qed.

#[export] Instance vec_same_equivalence : Equivalence (≡@{vec3}).
Proof.
  split.
  - intros v. repeat split; reflexivity.
  - intros u v (Hx & Hy & Hz). repeat split; symmetry; assumption.
  - intros u v w (Hx & Hy & Hz) (Hx' & Hy' & Hz').
    repeat split; etransitivity; eassumption.
Qed.

#[export] Instance WalkPoint_same_equivalence : Equivalence (≡@{WalkPoint}).
Proof.
  split.
  - intros p. split; reflexivity.
  - intros p q (Hi & Hw). split; symmetry; assumption.
  - intros p q r (Hi & Hw) (Hi' & Hw'). split; etransitivity; eassumption.
Qed.

(** *** The crossing test of [walk_in_triangle] *)

Lemma cross_on_edge_finite (st : float * N) (coord : N) (d s : Q) :
  (d <= 0 -> d - s == 0 -> s == 0)%Q ->
  cross_on_edge st coord (Finite d) (Finite s)
  = keep_first_min st coord (crossing_time s d).
Proof.
  intros Hs. unfold cross_on_edge, crossing_time, keep_first_min, fgtb, fltb at 1, zero, Qsign.
  destruct (Qcompare_spec 0 d) as [E | L | L];
    destruct (Qcompare_spec d 0) as [E' | L' | L']; try lra; try reflexivity.
  - cbn [fsub fneg fadd]. change (d + - s)%Q with (d - s)%Q.
    destruct (Qcompare_spec (d - s) 0) as [E2 | L2 | L2].
    + rewrite fdiv_zero_zero by lra. reflexivity.
    + rewrite fdiv_finite by lra. reflexivity.
    + rewrite fdiv_finite by lra. reflexivity.
  - cbn [fsub fneg fadd]. change (d + - s)%Q with (d - s)%Q.
    destruct (Qcompare_spec (d - s) 0) as [E2 | L2 | L2].
    + rewrite fdiv_zero_zero by lra. reflexivity.
    + rewrite fdiv_finite by lra. reflexivity.
    + rewrite fdiv_finite by lra. reflexivity.
Qed.

(** With a non-negative start weight a finite crossing time lies in
    [[0,1]], and the weight reaches zero exactly then. *)
Lemma crossing_time_range (s d t : Q) :
  (0 <= s)%Q -> crossing_time s d = Some t ->
  (d <= 0 /\ d - s < 0 /\ 0 <= t <= 1 /\ t * (s - d) == s)%Q.
Proof.
  intros Hs. unfold crossing_time, Qsign.
  destruct (Qcompare_spec d 0) as [E | L | L]; try discriminate;
    destruct (Qcompare_spec (d - s) 0) as [E2 | L2 | L2]; try discriminate;
    try lra; intros [= <-].
  all: assert (Hd : (0 < s - d)%Q) by lra.
  all: assert (Ht : (- s / (d - s) == s / (s - d))%Q) by (field; lra).
  all: rewrite Ht; repeat split; try lra.
  all: try (apply Qle_shift_div_l; lra).
  all: try (apply Qle_shift_div_r; lra).
  all: field; lra.
Qed.


Lemma crossing_time_some (s d : Q) :
  (d <= 0)%Q -> ~ (d - s == 0)%Q -> crossing_time s d = Some (- s / (d - s))%Q.
Proof.
  intros Hd Hn. unfold crossing_time, Qsign.
  destruct (Qcompare_spec d 0) as [E | L | L];
    destruct (Qcompare_spec (d - s) 0) as [E2 | L2 | L2];
    try reflexivity; try contradiction; lra.
Qed.

Lemma crossing_time_pos (s d : Q) : (0 < d)%Q -> crossing_time s d = None.
Proof.
  intros Hd. unfold crossing_time, Qsign.
  destruct (Qcompare_spec d 0); try reflexivity; lra.
Qed.

Lemma crossing_time_zero (s d : Q) : (d == 0)%Q -> (s == 0)%Q -> crossing_time s d = None.
Proof.
  intros Hd Hs. unfold crossing_time, Qsign.
  destruct (Qcompare_spec d 0); try lra; destruct (Qcompare_spec (d - s) 0);
    try reflexivity; lra.
Qed.

Lemma keep_first_min_selected (c0 c1 c2 : option Q) :
  selected c0 c1 c2
    (keep_first_min (keep_first_min (keep_first_min (infinity, UINT_MAX) 0 c0) 1 c1) 2 c2).
Proof.
  unfold keep_first_min, infinity.
  destruct c0 as [t0|], c1 as [t1|], c2 as [t2|]; cbn [fst fltb];
    repeat match goal with
      | |- context [(?p ?= ?q)%Q] => destruct (Qcompare_spec p q)
      end; cbn [fst fltb selected];
    repeat match goal with
      | |- context [(?p ?= ?q)%Q] => destruct (Qcompare_spec p q)
      end; cbn [selected];
    try (split; [tauto | intros t' [[= <-] | [[= <-] | [= <-]]]; lra]);
    try (split; [tauto | intros t' [[=] | [[=] | [=]]]; lra]);
    try lra; auto 6.
Qed.

(** *** [walk_in_triangle] *)

Lemma walk_in_triangle_split (m : WalkMesh) (start : WalkPoint) (step : vec3) :
  walk_in_triangle m start step
  = let* d := destination_weights m start step in
    walk_from (indices start) (weights start) d.
Proof.
  unfold walk_in_triangle, destination_weights, walk_from.
  destruct (at_index (vertices m) (uvec3.x (indices start))) as [a|]; [|reflexivity].
  destruct (at_index (vertices m) (uvec3.y (indices start))) as [b|]; [|reflexivity].
  destruct (at_index (vertices m) (uvec3.z (indices start))) as [c|]; [|reflexivity].
  cbn [bind].
  destruct (to_world_point m start) as [p|]; reflexivity.
Qed.

Lemma walk_from_keep (i : uvec3) (s0 s1 s2 d0 d1 d2 : Q) :
  (0 <= s0 -> 0 <= s1 -> 0 <= s2 ->
   forall st,
     st = keep_first_min
            (keep_first_min
               (keep_first_min (infinity, UINT_MAX) 0 (crossing_time s0 d0))
               1 (crossing_time s1 d1))
            2 (crossing_time s2 d2) ->
     walk_from i (q3 s0 s1 s2) (q3 d0 d1 d2)
     = let time := fmin one (fst st) in
       let* _ := assert (time >? zero)%F in
       let w := walk_weights (q3 s0 s1 s2) (q3 d0 d1 d2) time in
       Ok (match snd st with
           | 0%N | 1%N | 2%N =>
               mkWalkPoint (edge_to_front (snd st) i) (front_weights (snd st) w)
           | _ => mkWalkPoint i w
           end, time))%Q.
Proof.
  intros H0 H1 H2 st ->. unfold walk_from, q3. cbn [vec3.x vec3.y vec3.z].
  rewrite !cross_on_edge_finite by (intros; lra).
  destruct (keep_first_min _ 2 _) as [mt mc]. cbn [fst snd].
  destruct (assert _); [|reflexivity]. cbn [bind].
  destruct mc as [|[[|[]|]|[]|]]; reflexivity.
Qed.

(** What [walk_in_triangle] does from a start with non-negative weights,
    by cases on the finite crossing times. *)
Lemma walk_from_cases (i : uvec3) (s0 s1 s2 d0 d1 d2 : Q) :
  (0 <= s0 -> 0 <= s1 -> 0 <= s2 ->
   let c := fun k : N =>
     match k with
     | 0%N => crossing_time s0 d0
     | 1%N => crossing_time s1 d1
     | _ => crossing_time s2 d2
     end in
   let s := q3 s0 s1 s2 in
   let d := q3 d0 d1 d2 in
   (c 0%N = None /\ c 1%N = None /\ c 2%N = None /\
    walk_from i s d = Ok (mkWalkPoint i (walk_weights s d one), one))
   \/
   (exists k t,
      (k = 0 \/ k = 1 \/ k = 2)%N /\ c k = Some t /\
      (forall j t', (j = 0 \/ j = 1 \/ j = 2)%N -> c j = Some t' -> t <= t') /\
      ((t <= 0 /\ walk_from i s d = Stop assertion_failed)
       \/
       (0 < t /\ exists tq, tq == t /\
          walk_from i s d
          = Ok (mkWalkPoint (edge_to_front k i)
                  (front_weights k (walk_weights s d (Finite tq))),
                Finite tq)))))%Q.
Proof.
  intros H0 H1 H2 c s d.
  pose proof (keep_first_min_selected (c 0%N) (c 1%N) (c 2%N)) as Hsel.
  pose proof (walk_from_keep i s0 s1 s2 d0 d1 d2 H0 H1 H2 _ eq_refl) as Hw.
  fold s d in Hw. cbn [c] in Hsel.
  destruct (keep_first_min _ 2 _) as [mt mc]. cbn [fst snd] in Hw.
  destruct mt as [t| | |]; cbn [selected] in Hsel; try contradiction.
  - right. destruct Hsel as [Hk Hmin].
    assert (Hk' : exists k, (k = 0 \/ k = 1 \/ k = 2)%N /\ mc = k /\ c k = Some t).
    { destruct Hk as [[-> E] | [[-> E] | [-> E]]];
        [exists 0%N | exists 1%N | exists 2%N]; cbn [c]; auto 6. }
    destruct Hk' as (k & Hk3 & -> & Hck).
    exists k, t. split; [exact Hk3|]. split; [exact Hck|]. split.
    { intros j t' Hj Hcj. apply Hmin.
      destruct Hj as [-> | [-> | ->]]; cbn [c] in Hcj; auto. }
    assert (Hrange : (0 <= t <= 1)%Q).
    { destruct Hk3 as [-> | [-> | ->]]; cbn [c] in Hck;
        eapply crossing_time_range in Hck; try eassumption; tauto. }
    unfold fmin in Hw.
    destruct (Qlt_le_dec 0 t) as [Hpos | Hnp].
    + right. split; [exact Hpos|].
      destruct (Finite t <? one)%F eqn:Hlt.
      * exists t. split; [reflexivity|].
        rewrite Hw. unfold assert, fgtb, zero.
        replace (Finite 0 <? Finite t)%F with true
          by (symmetry; apply fltb_finite; exact Hpos).
        cbn [bind]. destruct Hk3 as [-> | [-> | ->]]; reflexivity.
      * apply fltb_finite_false in Hlt.
        exists 1%Q. split; [lra|].
        rewrite Hw. unfold assert, fgtb, zero, one. cbn [bind fltb Qcompare].
        destruct Hk3 as [-> | [-> | ->]]; reflexivity.
    + left. split; [exact Hnp|].
      assert (Hlt : (Finite t <? one)%F = true) by (apply fltb_finite; lra).
      rewrite Hw, Hlt. unfold assert, fgtb, zero.
      replace (Finite 0 <? Finite t)%F with false
        by (symmetry; apply fltb_finite_false; exact Hnp).
      reflexivity.
  - left. destruct Hsel as (-> & E0 & E1 & E2). repeat (split; [assumption|]).
    rewrite Hw. reflexivity.
Qed.

(** *** Barycentric weights *)

Lemma barycentric_roundtrip_q (ax ay az bx by_ bz cx cy cz u v w px py pz : Q) :
  (bary_denom (q3 ax ay az) (q3 bx by_ bz) (q3 cx cy cz) =? zero)%F = false ->
  (u + v + w == 1 ->
   px == u * ax + v * bx + w * cx ->
   py == u * ay + v * by_ + w * cy ->
   pz == u * az + v * bz + w * cz ->
   exists u' v' w',
     barycentric_weights (q3 ax ay az) (q3 bx by_ bz) (q3 cx cy cz) (q3 px py pz)
     = q3 u' v' w' /\ u' == u /\ v' == v /\ w' == w)%Q.
Proof.
  intros Hden Hsum Hx Hy Hz.
  vec_compute_in Hden. apply feqb_finite_false in Hden.
  vec_compute. rewrite !fdiv_finite by exact Hden.
  cbv [fadd fneg]. eexists _, _, _. split; [reflexivity|].
  assert (Hu : (u == 1 - v - w)%Q) by lra.
  rewrite Hx, Hy, Hz, Hu.
  split; [|split]; field; exact Hden.
Qed.

Lemma barycentric_finite (a b c pt : vec3) :
  nondegenerate a b c -> finite_vec pt ->
  exists u v w, barycentric_weights a b c pt = q3 u v w /\ (u + v + w == 1)%Q.
Proof.
  intros (Ha & Hb & Hc & Hden) Hpt.
  apply finite_vec_inv in Ha as (ax & ay & az & ->), Hb as (bx & by_ & bz & ->),
    Hc as (cx & cy & cz & ->), Hpt as (px & py & pz & ->).
  vec_compute_in Hden. apply feqb_finite_false in Hden.
  vec_compute. rewrite !fdiv_finite by exact Hden.
  cbv [fadd fneg]. eexists _, _, _. split; [reflexivity|]. ring.
Qed.


Lemma at_index_Ok {A : Type} (v : list A) (i : N) (a : A) :
  at_index v i = Ok a <-> v !! N.to_nat i = Some a.
Proof.
  unfold at_index. destruct (v !! N.to_nat i); split; intros [=]; subst; reflexivity.
Qed.

Lemma corners_Some (vs : list vec3) (t : uvec3) (a b c : vec3) :
  corners vs t = Some (a, b, c) <->
  at_index vs (uvec3.x t) = Ok a /\ at_index vs (uvec3.y t) = Ok b
  /\ at_index vs (uvec3.z t) = Ok c.
Proof.
  unfold corners. rewrite !at_index_Ok.
  destruct (vs !! N.to_nat (uvec3.x t)), (vs !! N.to_nat (uvec3.y t)),
    (vs !! N.to_nat (uvec3.z t)); cbn; split; intros H;
    try discriminate; try (destruct H as (? & ? & ?); congruence).
  injection H as -> -> ->. auto.
Qed.

Lemma to_world_point_corners (m : WalkMesh) (wp : WalkPoint) (a b c : vec3) :
  corners (vertices m) (indices wp) = Some (a, b, c) ->
  to_world_point m wp
  = Ok (vscale (vec3.x (weights wp)) a + vscale (vec3.y (weights wp)) b
        + vscale (vec3.z (weights wp)) c)%V.
Proof.
  intros (Ha & Hb & Hc)%corners_Some. unfold to_world_point.
  rewrite Ha, Hb, Hc. reflexivity.
Qed.

Lemma destination_weights_corners (m : WalkMesh) (start : WalkPoint) (step a b c : vec3) :
  corners (vertices m) (indices start) = Some (a, b, c) ->
  destination_weights m start step
  = Ok (barycentric_weights a b c
          (vscale (vec3.x (weights start)) a + vscale (vec3.y (weights start)) b
           + vscale (vec3.z (weights start)) c + step)%V).
Proof.
  intros Hc. unfold destination_weights.
  rewrite (to_world_point_corners _ _ _ _ _ Hc).
  apply corners_Some in Hc as (Ha & Hb & Hc). rewrite Ha, Hb, Hc. reflexivity.
Qed.


Lemma N_lt_3 (j : N) : (j < 3)%N -> j = 0%N \/ j = 1%N \/ j = 2%N.
Proof. lia. Qed.

Lemma valid_weights_inv (w : vec3) :
  valid_weights w ->
  exists s0 s1 s2, w = q3 s0 s1 s2 /\ (0 <= s0 /\ 0 <= s1 /\ 0 <= s2 /\ s0 + s1 + s2 == 1)%Q.
Proof.
  destruct w as [[s0| | |] [s1| | |] [s2| | |]]; cbn; try contradiction.
  intros H. exists s0, s1, s2. split; [reflexivity | exact H].
Qed.

Lemma crosses_finite (s d : Q) :
  crosses (Finite s) (Finite d) = true <-> (0 <= s /\ d <= 0 /\ d < s)%Q.
Proof.
  unfold crosses, fleb, zero.
  rewrite !andb_true_iff, !orb_true_iff, !fltb_finite, !feqb_finite. lra.
Qed.

(** *** A step that stays inside, in exact arithmetic *)

(** In exact arithmetic: from a valid start, a step whose destination
    weights are all strictly positive consumes the whole step (fraction 1),
    ends at the destination weights and keeps the index triple. *)
Theorem walk_in_triangle_inside (m : WalkMesh) (start : WalkPoint) (step : vec3)
    (d0 d1 d2 : Q) :
  valid_weights (weights start) ->
  destination_weights m start step = Ok (q3 d0 d1 d2) ->
  (0 < d0)%Q -> (0 < d1)%Q -> (0 < d2)%Q ->
  exists w,
    walk_in_triangle m start step = Ok (mkWalkPoint (indices start) w, one)
    /\ w ≡ q3 d0 d1 d2.
Proof.
  intros (s0 & s1 & s2 & Hs & H0 & H1 & H2 & _)%valid_weights_inv Hd P0 P1 P2.
  rewrite walk_in_triangle_split, Hd, Hs. cbn [bind].
  destruct (walk_from_cases (indices start) s0 s1 s2 d0 d1 d2 H0 H1 H2)
    as [(_ & _ & _ & ->) | (k & t & Hk & Hc & _)].
  - eexists. split; [reflexivity|]. vec_compute.
    repeat split; cbn; ring.
  - exfalso. destruct Hk as [-> | [-> | ->]];
      rewrite crossing_time_pos in Hc by assumption; discriminate.
Qed.

(** *** The example meshes are what the constructor builds *)

Example flat_triangle_constructed :
  WalkMesh_new inversesqrt_exact square_vertices square_normals [uvec3.mk 0 1 2]
  = Ok flat_triangle.
Proof. vm_compute. reflexivity. Qed.

Example flat_square_constructed :
  WalkMesh_new inversesqrt_exact square_vertices square_normals
    [uvec3.mk 0 1 2; uvec3.mk 2 1 3]
  = Ok flat_square.
Proof. vm_compute. reflexivity. Qed.

Lemma walk_in_triangle_inside_witness :
  exists w,
    walk_in_triangle flat_triangle inner_point (q3 (1#4) 0 0)
    = Ok (mkWalkPoint (uvec3.mk 0 1 2) w, one)
    /\ w ≡ q3 (1#4) (1#2) (1#4).
Proof.
  edestruct (walk_in_triangle_inside flat_triangle inner_point (q3 (1#4) 0 0))
    as (w & Hw & (Hx & Hy & Hz)).
  - cbn. lra.
  - vm_compute. reflexivity.
  - reflexivity.
  - reflexivity.
  - reflexivity.
  - exists w. split; [exact Hw|].
    repeat split; (etransitivity; [eassumption | reflexivity]).
Defined.

(** *** The zero step, in exact arithmetic *)

Lemma crossing_time_same (s d : Q) :
  (0 <= s)%Q -> (d == s)%Q -> crossing_time s d = None.
Proof.
  intros Hs Hd. destruct (Qlt_le_dec 0 s).
  - apply crossing_time_pos. lra.
  - apply crossing_time_zero; lra.
Qed.

(** In exact arithmetic: on a non-degenerate triangle, walking a valid
    WalkPoint by the zero vector returns the same WalkPoint (same indices,
    same weights) and the fraction 1. *)
Theorem walk_in_triangle_zero_step (m : WalkMesh) (p : WalkPoint) (a b c : vec3) :
  corners (vertices m) (indices p) = Some (a, b, c) ->
  nondegenerate a b c ->
  valid_weights (weights p) ->
  exists p', walk_in_triangle m p (q3 0 0 0) = Ok (p', one) /\ p' ≡ p.
Proof.
  intros Hc Hnd (s0 & s1 & s2 & Hs & H0 & H1 & H2 & Hsum)%valid_weights_inv.
  rewrite walk_in_triangle_split, (destination_weights_corners _ _ _ _ _ _ Hc), Hs.
  cbn [bind].
  destruct Hnd as (Ha & Hb & Hcc & Hden).
  apply finite_vec_inv in Ha as (ax & ay & az & ->), Hb as (bx & by_ & bz & ->),
    Hcc as (cx & cy & cz & ->).
  destruct (barycentric_roundtrip_q ax ay az bx by_ bz cx cy cz s0 s1 s2
              (s0 * ax + s1 * bx + s2 * cx + 0) (s0 * ay + s1 * by_ + s2 * cy + 0)
              (s0 * az + s1 * bz + s2 * cz + 0) Hden Hsum)
    as (d0 & d1 & d2 & Hbary & E0 & E1 & E2); try ring.
  vec_compute_in Hbary. vec_compute. rewrite Hbary.
  destruct (walk_from_cases (indices p) s0 s1 s2 d0 d1 d2 H0 H1 H2)
    as [(_ & _ & _ & Hw) | (k & t & Hk & Hck & _)].
  - vec_compute_in Hw. rewrite Hw. eexists. split; [reflexivity|].
    split; [reflexivity|]. rewrite Hs. repeat split; cbn; lra.
  - exfalso. destruct Hk as [-> | [-> | ->]];
      rewrite crossing_time_same in Hck by assumption; discriminate.
Qed.

Lemma walk_in_triangle_zero_step_witness :
  exists p', walk_in_triangle flat_triangle edge_point (q3 0 0 0) = Ok (p', one)
             /\ p' ≡ edge_point.
Proof.
  apply (walk_in_triangle_zero_step flat_triangle edge_point
           (q3 0 0 0) (q3 1 0 0) (q3 0 1 0)).
  - reflexivity.
  - repeat split.
  - cbn. lra.
Defined.

(** ** C1 *)

Lemma component_q3 (k : N) (x0 x1 x2 : Q) :
  component k (q3 x0 x1 x2)
  = Finite (match k with 0%N => x0 | 1%N => x1 | _ => x2 end).
Proof. destruct k as [|[[]|[]|]]; reflexivity. Qed.

(** C1 does not hold from a start on the crossed edge: from the middle of
    the edge between vertices 0 and 1 of the flat triangle, the step
    [(0,-1,0)] leaves through that edge and through no other, and the
    call stops at [assert(time > 0.0f)] instead of returning a fraction. *)
Lemma walk_in_triangle_crossing_from_edge :
  valid_weights (weights edge_point) /\
  exists dest,
    destination_weights flat_triangle edge_point (q3 0 (-1) 0) = Ok dest
    /\ crosses (component 0 (weights edge_point)) (component 0 dest) = false
    /\ crosses (component 1 (weights edge_point)) (component 1 dest) = false
    /\ crosses (component 2 (weights edge_point)) (component 2 dest) = true
    /\ walk_in_triangle flat_triangle edge_point (q3 0 (-1) 0)
       = Stop assertion_failed.
Proof.
  split; [cbn; lra|].
  eexists. split; [vm_compute; reflexivity|].
  repeat split; vm_compute; reflexivity.
Qed.

(** In exact arithmetic, for a crossed component that starts positive:
    from a valid start, when exactly one weight component [k] crosses and
    its start weight is strictly positive, the call returns a fraction [t]
    with [0 < t <= 1] and [t = -start_w / (dest_w - start_w)] for
    component [k], a third weight that is exactly zero, and the index
    triple rotated so that the edge opposite to [k] comes first. *)
Theorem walk_in_triangle_single_crossing (m : WalkMesh) (start : WalkPoint)
    (step dest : vec3) (k : N) :
  valid_weights (weights start) ->
  destination_weights m start step = Ok dest ->
  finite_vec dest ->
  (k < 3)%N ->
  (forall j, (j < 3)%N ->
     crosses (component j (weights start)) (component j dest) = true <-> j = k) ->
  (zero <? component k (weights start))%F = true ->
  exists t w0 w1,
    walk_in_triangle m start step
    = Ok (mkWalkPoint (edge_to_front k (indices start)) (vec3.mk w0 w1 zero), t)
    /\ (zero <? t)%F = true /\ (t <=? one)%F = true
    /\ t ≡ (- component k (weights start)
            / (component k dest - component k (weights start)))%F.
Proof.
  intros (s0 & s1 & s2 & Hs & H0 & H1 & H2 & _)%valid_weights_inv Hd
    (d0 & d1 & d2 & ->)%finite_vec_inv Hk Hone Hpos.
  rewrite walk_in_triangle_split, Hd, Hs. cbn [bind].
  rewrite Hs in Hone, Hpos. rewrite component_q3 in Hpos.
  apply fltb_finite in Hpos.
  assert (Hcross : forall j, (j < 3)%N ->
            (match j with 0%N => d0 | 1%N => d1 | _ => d2 end <= 0 /\
             match j with 0%N => d0 | 1%N => d1 | _ => d2 end
             < match j with 0%N => s0 | 1%N => s1 | _ => s2 end)%Q <-> j = k).
  { intros j Hj. rewrite <- (Hone j Hj), !component_q3, crosses_finite.
    apply N_lt_3 in Hj as [-> | [-> | ->]]; tauto. }
  set (sk := match k with 0%N => s0 | 1%N => s1 | _ => s2 end) in *.
  set (dk := match k with 0%N => d0 | 1%N => d1 | _ => d2 end) in *.
  assert (Hkk : (dk <= 0 /\ dk < sk)%Q) by (apply (Hcross k Hk); reflexivity).
  assert (Hsk : (0 <= sk)%Q) by lra.
  assert (Hck : crossing_time sk dk = Some (- sk / (dk - sk))%Q)
    by (apply crossing_time_some; lra).
  pose proof (crossing_time_range _ _ _ Hsk Hck) as (_ & _ & Hrange & Hmul).
  assert (Htpos : (0 < - sk / (dk - sk))%Q) by nra.
  destruct (walk_from_cases (indices start) s0 s1 s2 d0 d1 d2 H0 H1 H2)
    as [(E0 & E1 & E2 & _) | (k' & t & Hk' & Hck' & _ & Hres)].
  - exfalso. apply N_lt_3 in Hk as [-> | [-> | ->]]; subst sk dk; congruence.
  - assert (k' = k) as ->.
    { assert (Hlt : (k' < 3)%N) by lia. apply (Hcross k' Hlt).
      destruct Hk' as [-> | [-> | ->]];
        apply crossing_time_range in Hck'; try assumption; lra. }
    assert (t = (- sk / (dk - sk))%Q) as ->.
    { apply N_lt_3 in Hk as [-> | [-> | ->]]; subst sk dk; congruence. }
    destruct Hres as [(Hle & _) | (_ & tq & Htq & ->)]; [lra|].
    assert (Hfront : exists w0 w1,
              front_weights k (walk_weights (q3 s0 s1 s2) (q3 d0 d1 d2) (Finite tq))
              = vec3.mk w0 w1 zero).
    { apply N_lt_3 in Hk as [-> | [-> | ->]]; eexists _, _; reflexivity. }
    destruct Hfront as (w0 & w1 & ->).
    exists (Finite tq), w0, w1. split; [reflexivity|].
    split; [apply fltb_finite; lra|].
    split.
    { unfold fleb, one. apply orb_true_iff.
      destruct (Qlt_le_dec tq 1); [left; apply fltb_finite; assumption|].
      right. apply feqb_finite. lra. }
    rewrite !component_q3. fold sk dk. cbn [fsub fneg fadd].
    rewrite fdiv_finite by lra. exact Htq.
Qed.

Lemma walk_in_triangle_single_crossing_witness :
  exists t w0 w1,
    walk_in_triangle flat_triangle inner_point (q3 0 (-1) 0)
    = Ok (mkWalkPoint (uvec3.mk 0 1 2) (vec3.mk w0 w1 zero), t)
    /\ t ≡ Finite (1#4).
Proof.
  edestruct (walk_in_triangle_single_crossing flat_triangle inner_point
               (q3 0 (-1) 0)) with (k := 2%N)
    as (t & w0 & w1 & Hw & _ & _ & Ht).
  - cbn. lra.
  - vm_compute. reflexivity.
  - repeat split.
  - reflexivity.
  - intros j Hj. apply N_lt_3 in Hj as [-> | [-> | ->]]; vm_compute;
      split; intros H; (discriminate || reflexivity).
  - reflexivity.
  - exists t, w0, w1. split; [exact Hw|].
    etransitivity; [exact Ht | reflexivity].
Defined.

(** ** C7 *)

(** C7 does not hold on the boundary: the middle of the edge between
    vertices 0 and 1 has weights [(1/2, 1/2, 0)], all non-negative; for the
    outward step [(0,-1,0)] the selected time is zero and the assertion
    stops the call. *)
Lemma walk_in_triangle_zero_time_on_boundary :
  valid_weights (weights edge_point) /\
  exists dest,
    destination_weights flat_triangle edge_point (q3 0 (-1) 0) = Ok dest
    /\ (let s := weights edge_point in
        let st := cross_on_edge (infinity, UINT_MAX) 0 (vec3.x dest) (vec3.x s) in
        let st := cross_on_edge st 1 (vec3.y dest) (vec3.y s) in
        let st := cross_on_edge st 2 (vec3.z dest) (vec3.z s) in
        snd st = 2%N /\ (fmin one (fst st) =? zero)%F = true)
    /\ walk_in_triangle flat_triangle edge_point (q3 0 (-1) 0)
       = Stop assertion_failed.
Proof.
  split; [cbn; lra|].
  eexists. split; [vm_compute; reflexivity|].
  repeat split; vm_compute; reflexivity.
Qed.

(** In exact arithmetic, away from outward steps off an edge: from a
    start with non-negative weights, the call passes the assertion and
    returns a fraction in [(0,1]] whenever every component with a negative
    destination weight starts strictly positive; in particular from every
    start strictly inside the triangle. *)
Theorem walk_in_triangle_time_positive (m : WalkMesh) (start : WalkPoint)
    (step dest : vec3) :
  valid_weights (weights start) ->
  destination_weights m start step = Ok dest ->
  finite_vec dest ->
  (forall j, (j < 3)%N ->
     (component j dest <? zero)%F = true ->
     (zero <? component j (weights start))%F = true) ->
  exists end_ t,
    walk_in_triangle m start step = Ok (end_, t)
    /\ (zero <? t)%F = true /\ (t <=? one)%F = true.
Proof.
  intros (s0 & s1 & s2 & Hs & H0 & H1 & H2 & _)%valid_weights_inv Hd
    (d0 & d1 & d2 & ->)%finite_vec_inv Hin.
  rewrite walk_in_triangle_split, Hd, Hs. cbn [bind].
  rewrite Hs in Hin.
  assert (Hin' : forall j, (j < 3)%N ->
            (match j with 0%N => d0 | 1%N => d1 | _ => d2 end < 0 ->
             0 < match j with 0%N => s0 | 1%N => s1 | _ => s2 end)%Q).
  { intros j Hj Hlt. specialize (Hin j Hj). rewrite !component_q3 in Hin.
    apply fltb_finite, Hin, fltb_finite, Hlt. }
  destruct (walk_from_cases (indices start) s0 s1 s2 d0 d1 d2 H0 H1 H2)
    as [(_ & _ & _ & ->) | (k & t & Hk & Hck & _ & Hres)].
  - eexists _, _. split; [reflexivity|]. split; reflexivity.
  - assert (Ht : (0 < t <= 1)%Q).
    { destruct Hk as [-> | [-> | ->]];
        pose proof Hck as Hr; apply crossing_time_range in Hr; try assumption;
        destruct Hr as (Hd0 & Hds & Hr & Hmul);
        [pose proof (Hin' 0%N ltac:(lia)) | pose proof (Hin' 1%N ltac:(lia))
         | pose proof (Hin' 2%N ltac:(lia))]; cbn beta iota in *; nra. }
    destruct Hres as [(Hle & _) | (_ & tq & Htq & ->)]; [lra|].
    eexists _, _. split; [reflexivity|].
    split; [apply fltb_finite; lra|].
    unfold fleb, one. apply orb_true_iff.
    destruct (Qlt_le_dec tq 1); [left; apply fltb_finite; assumption|].
    right. apply feqb_finite. lra.
Qed.

Lemma walk_in_triangle_time_positive_witness :
  exists end_ t,
    walk_in_triangle flat_triangle inner_point (q3 0 (-1) 0) = Ok (end_, t)
    /\ (zero <? t)%F = true /\ (t <=? one)%F = true.
Proof.
  eapply (walk_in_triangle_time_positive flat_triangle inner_point (q3 0 (-1) 0)).
  - cbn. lra.
  - vm_compute. reflexivity.
  - repeat split.
  - intros j Hj _. apply N_lt_3 in Hj as [-> | [-> | ->]]; reflexivity.
Defined.

(** The converse: a component that starts at zero and has a negative
    destination weight makes the assertion fail. *)
Lemma walk_in_triangle_outward_stops (m : WalkMesh) (start : WalkPoint)
    (step dest : vec3) (j : N) :
  valid_weights (weights start) ->
  destination_weights m start step = Ok dest ->
  finite_vec dest ->
  (j < 3)%N ->
  (component j (weights start) =? zero)%F = true ->
  (component j dest <? zero)%F = true ->
  walk_in_triangle m start step = Stop assertion_failed.
Proof.
  intros (s0 & s1 & s2 & Hs & H0 & H1 & H2 & _)%valid_weights_inv Hd
    (d0 & d1 & d2 & ->)%finite_vec_inv Hj Hz Hneg.
  rewrite walk_in_triangle_split, Hd, Hs. cbn [bind].
  rewrite Hs in Hz. rewrite !component_q3 in Hz, Hneg.
  apply feqb_finite in Hz. apply fltb_finite in Hneg.
  set (sj := match j with 0%N => s0 | 1%N => s1 | _ => s2 end) in *.
  set (dj := match j with 0%N => d0 | 1%N => d1 | _ => d2 end) in *.
  assert (Hcj : crossing_time sj dj = Some (- sj / (dj - sj))%Q)
    by (apply crossing_time_some; lra).
  assert (Hzero : (- sj / (dj - sj) == 0)%Q).
  { rewrite Hz. field. lra. }
  destruct (walk_from_cases (indices start) s0 s1 s2 d0 d1 d2 H0 H1 H2)
    as [(E0 & E1 & E2 & _) | (k & t & _ & _ & Hmin & Hres)].
  - exfalso. apply N_lt_3 in Hj as [-> | [-> | ->]]; subst sj dj; congruence.
  - destruct Hres as [(_ & ->) | (Hpos & _)]; [reflexivity|].
    exfalso.
    assert (Hle : (t <= - sj / (dj - sj))%Q).
    { apply (Hmin j); [lia|].
      apply N_lt_3 in Hj as [-> | [-> | ->]]; exact Hcj. }
    lra.
Qed.

(** ** C10 *)

(** C10 does not hold for a step along an edge: from the middle of the edge between vertices 0
    and 1, a step along that edge leaves the third destination weight at
    zero; the guard [dest_w > 0] does not return, and the denominator
    [dest_w - start_w] is zero. *)
Lemma cross_on_edge_zero_denominator :
  valid_weights (weights edge_point) /\
  exists dest,
    destination_weights flat_triangle edge_point (q3 (1#4) 0 0) = Ok dest
    /\ (vec3.z dest >? zero)%F = false
    /\ (vec3.z dest - vec3.z (weights edge_point) =? zero)%F = true.
Proof.
  split; [cbn; lra|].
  eexists. split; [vm_compute; reflexivity|].
  split; vm_compute; reflexivity.
Qed.

(** C10, with the case of two zero weights set apart: for a finite non-negative start weight and a finite
    destination weight that passes the guard, the denominator is strictly
    negative unless both weights are zero; when both are zero the
    denominator is zero, the quotient is NaN, and the test leaves the
    recorded minimum unchanged. *)
Theorem cross_on_edge_denominator (st : float * N) (coord : N) (s d : float) :
  is_finite s -> is_finite d ->
  (s >=? zero)%F = true -> (d >? zero)%F = false ->
  if ((s =? zero) && (d =? zero))%F
  then (d - s =? zero)%F = true /\ (- s / (d - s))%F = NaN
       /\ cross_on_edge st coord d s = st
  else (d - s <? zero)%F = true.
Proof.
  intros [s' ->]%is_finite_inv [d' ->]%is_finite_inv Hs Hd.
  apply fgeb_finite in Hs. unfold fgtb, zero in Hd.
  apply fltb_finite_false in Hd. unfold zero.
  destruct (Finite s' =? Finite 0)%F eqn:Es; cbn [andb].
  - apply feqb_finite in Es.
    destruct (Finite d' =? Finite 0)%F eqn:Ed.
    + apply feqb_finite in Ed. cbn [fsub fneg fadd].
      split; [apply feqb_finite; lra|].
      split; [apply fdiv_zero_zero; lra|].
      rewrite cross_on_edge_finite by (intros; lra).
      rewrite crossing_time_zero by assumption. reflexivity.
    + apply feqb_finite_false in Ed. cbn [fsub fneg fadd].
      apply fltb_finite. lra.
  - apply feqb_finite_false in Es. cbn [fsub fneg fadd].
    apply fltb_finite. lra.
Qed.

Lemma cross_on_edge_denominator_witness :
  (Finite (-1) - Finite (1#2) <? zero)%F = true.
Proof.
  apply (cross_on_edge_denominator (infinity, UINT_MAX) 2 (Finite (1#2)) (Finite (-1)));
    reflexivity.
Defined.

(** *** The rotation contract *)











Section CrossEdge.

Variable inversesqrt : float -> float.
Variable rotation : vec3 -> vec3 -> quat.
(** glm's rotation of a vector by a quaternion, [q * v]. *)
Variable rotate_vec : quat -> vec3 -> vec3.

(** ** C4 *)

(** C4: on a boundary edge (no entry for the reverse directed edge) and a
    start with [weights.z == 0], [cross_edge] returns [false], the start
    point itself and the identity rotation. *)
Theorem cross_edge_boundary (m : WalkMesh) (start : WalkPoint) :
  (vec3.z (weights start) =? zero)%F = true ->
  next_vertex m !! (uvec3.y (indices start), uvec3.x (indices start)) = None ->
  cross_edge inversesqrt rotation m start
  = Ok (false, start, quat.mk one zero zero zero).
Proof.
  intros Hz Hnone. unfold cross_edge. rewrite Hz, Hnone. reflexivity.
Qed.

(** ** C3 *)




End CrossEdge.

Lemma cross_edge_boundary_witness :
  cross_edge inversesqrt_exact rotation_of_equal flat_square edge_point
  = Ok (false, edge_point, quat.mk one zero zero zero).
Proof.
  apply (cross_edge_boundary inversesqrt_exact rotation_of_equal
           flat_square edge_point); reflexivity.
Defined.


(** ** C9 *)

(** C9 does not hold for overlapping entries: the loader never compares
    two index entries.
    The resource below has two entries over the same vertices and the
    same triangle; it loads, and both names are bound. *)
Lemma WalkMeshes_overlapping_entries_load :
  overlapping (mkIndexEntry 0 1 0 3 0 1) (mkIndexEntry 1 2 0 3 0 1) = true /\
  WalkMeshes_new inversesqrt_exact square_vertices square_normals
    [uvec3.mk 0 1 2] ["a"%char; "b"%char] twice_indexed
  = Ok (<["b"%string := first_three]> (<["a"%string := first_three]> ∅)).
Proof. split; vm_compute; reflexivity. Qed.

Lemma load_entry_out_of_bounds (inversesqrt : float -> float)
    (vs ns : list vec3) (tris : list uvec3) (names : list ascii)
    (meshes : gmap string WalkMesh) (e : IndexEntry) :
  entry_in_bounds names vs tris e = false ->
  exists err, load_entry inversesqrt vs ns tris names meshes e
              = Stop (runtime_error err).
Proof.
  unfold entry_in_bounds, load_entry, require. intros H.
  destruct ((name_begin e <=? name_end e)
            && (name_end e <=? N.of_nat (length names)))%N eqn:En;
    [|eexists; reflexivity].
  destruct ((vertex_begin e <=? vertex_end e)
            && (vertex_end e <=? N.of_nat (length vs)))%N eqn:Ev;
    [|eexists; reflexivity].
  destruct ((triangle_begin e <=? triangle_end e)
            && (triangle_end e <=? N.of_nat (length tris)))%N eqn:Et;
    [|eexists; reflexivity].
  exfalso.
  apply andb_true_iff in En as [En1 En2], Ev as [Ev1 Ev2], Et as [Et1 Et2].
  rewrite ?En1, ?En2, ?Ev1, ?Ev2, ?Et1, ?Et2 in H. discriminate.
Qed.

(** C9, for the range checks the loader makes: a resource whose index holds an entry with an ill-ordered
    or out-of-range name, vertex or triangle range does not load: the
    constructor stops and no collection is obtained. *)
Theorem WalkMeshes_rejects_bad_ranges (inversesqrt : float -> float)
    (vs ns : list vec3) (tris : list uvec3) (names : list ascii)
    (index : list IndexEntry) (e : IndexEntry) :
  e ∈ index ->
  entry_in_bounds names vs tris e = false ->
  exists f, WalkMeshes_new inversesqrt vs ns tris names index = Stop f.
Proof.
  intros Hin Hbad. unfold WalkMeshes_new.
  destruct (require _ _); [|eexists; reflexivity]. cbn [bind].
  generalize (∅ : gmap string WalkMesh) as acc.
  induction Hin as [e index | e e' index Hin IH]; intros acc; cbn [for_each].
  - destruct (load_entry_out_of_bounds inversesqrt vs ns tris names acc e Hbad)
      as [err ->].
    eexists. reflexivity.
  - destruct (load_entry inversesqrt vs ns tris names acc e') as [acc'|f];
      cbn [bind]; [apply IH; exact Hbad | eexists; reflexivity].
Qed.

Lemma WalkMeshes_rejects_bad_ranges_witness :
  exists f,
    WalkMeshes_new inversesqrt_exact square_vertices square_normals
      [uvec3.mk 0 1 2] ["a"%char] [mkIndexEntry 0 1 0 5 0 1]
    = Stop f.
Proof.
  apply (WalkMeshes_rejects_bad_ranges inversesqrt_exact square_vertices
           square_normals [uvec3.mk 0 1 2] ["a"%char]
           [mkIndexEntry 0 1 0 5 0 1] (mkIndexEntry 0 1 0 5 0 1)).
  - apply list_elem_of_here.
  - reflexivity.
Defined.

(** *** [nearest_walk_point]: the loop as a fold over candidates *)

Lemma check_edge_consider (vs : list vec3) (world_point : vec3) (st : nearest_state)
    (ai bi ci : N) (a b : vec3) :
  at_index vs ai = Ok a -> at_index vs bi = Ok b ->
  check_edge vs world_point st ai bi ci
  = Ok (consider st (edge_candidate a b ai bi ci world_point)).
Proof.
  intros Ha Hb. unfold check_edge, consider, edge_candidate.
  rewrite Ha, Hb. cbn [bind].
  destruct (dot (world_point - a) (b - a) <? zero)%F; cbn [fst snd].
  - destruct (_ <? closest_dis2 st)%F; reflexivity.
  - destruct (dot (world_point - a) (b - a) >? dot (b - a) (b - a))%F; cbn [fst snd];
      destruct (_ <? closest_dis2 st)%F; reflexivity.
Qed.

Lemma nearest_step_consider (m : WalkMesh) (world_point : vec3) (st : nearest_state)
    (tri : uvec3) (a b c : vec3) :
  corners (vertices m) tri = Some (a, b, c) ->
  nearest_step m world_point st tri
  = Ok (fold_left consider (triangle_candidates a b c tri world_point) st).
Proof.
  intros Hcs. unfold nearest_step, triangle_candidates.
  pose proof Hcs as (Ha & Hb & Hc)%corners_Some. rewrite Ha, Hb, Hc.
  cbn [bind]. cbv zeta.
  rewrite (to_world_point_corners m (mkWalkPoint tri _) _ _ _ Hcs).
  destruct (_ && _ && _).
  - cbn [fold_left weights bind]. unfold consider at 1. cbn [fst snd].
    destruct (_ <? closest_dis2 st)%F; reflexivity.
  - rewrite (check_edge_consider _ _ _ _ _ _ a b Ha Hb). cbn [bind].
    rewrite (check_edge_consider _ _ _ _ _ _ b c Hb Hc). cbn [bind].
    rewrite (check_edge_consider _ _ _ _ _ _ c a Hc Ha). reflexivity.
Qed.

Lemma for_each_nearest_step (m : WalkMesh) (world_point : vec3)
    (tris : list uvec3) (st : nearest_state) :
  Forall (triangle_ok (vertices m)) tris ->
  for_each (nearest_step m world_point) tris st
  = Ok (fold_left consider
          (flat_map (fun tri =>
                       match corners (vertices m) tri with
                       | Some (a, b, c) => triangle_candidates a b c tri world_point
                       | None => []
                       end) tris) st).
Proof.
  intros Hok. revert st. induction Hok as [|tri tris (a & b & c & Hc & _) _ IH];
    intros st; [reflexivity|].
  cbn [for_each flat_map]. rewrite (nearest_step_consider _ _ _ _ _ _ _ Hc), Hc.
  cbn [bind]. rewrite IH, fold_left_app. reflexivity.
Qed.

Lemma fleb_finite (p q : Q) : (Finite p <=? Finite q)%F = true <-> (p <= q)%Q.
Proof.
  unfold fleb. rewrite orb_true_iff, fltb_finite, feqb_finite. lra.
Qed.

Lemma fltb_same (a a' b b' : float) :
  a ≡ a' -> b ≡ b' -> (a <? b)%F = (a' <? b')%F.
Proof.
  destruct a, a', b, b'; cbn; try contradiction; try reflexivity.
  intros -> ->. reflexivity.
Qed.

Lemma feqb_same (a a' b b' : float) :
  a ≡ a' -> b ≡ b' -> (a =? b)%F = (a' =? b')%F.
Proof.
  destruct a, a', b, b'; cbn; try contradiction; try reflexivity.
  intros -> ->. reflexivity.
Qed.

Lemma fleb_same (a a' b b' : float) :
  a ≡ a' -> b ≡ b' -> (a <=? b)%F = (a' <=? b')%F.
Proof.
  intros Ha Hb. unfold fleb.
  rewrite (fltb_same _ _ _ _ Ha Hb), (feqb_same _ _ _ _ Ha Hb). reflexivity.
Qed.

(** The fold keeps the first candidate of least distance. *)
Lemma fold_consider_first_minimum (dflt : WalkPoint) (l : list (WalkPoint * float)) :
  Forall (fun c => is_finite (snd c)) l -> l <> [] ->
  exists k p d,
    first_minimum l k p d
    /\ fold_left consider l (mkNearest dflt infinity) = mkNearest p d.
Proof.
  induction l as [|c l IH] using rev_ind; [congruence|].
  intros [Hl Hc]%Forall_app _. apply Forall_inv in Hc.
  destruct c as [pc dc]. cbn [snd] in Hc. apply is_finite_inv in Hc as [qc ->].
  rewrite fold_left_app. cbn [fold_left].
  destruct l as [|c0 l0].
  - exists 0%nat, pc, (Finite qc). split; [|reflexivity].
    split; [reflexivity|].
    intros [|j] p' d' Hj; [|destruct j; discriminate].
    injection Hj as <- <-. split; [apply fleb_finite; lra | lia].
  - destruct (IH Hl ltac:(discriminate)) as (k & p & d & [Hk Hmin] & ->).
    set (l := c0 :: l0) in *.
    pose proof (Forall_lookup_1 _ _ _ _ Hl Hk) as Hfin. cbn [snd] in Hfin.
    apply is_finite_inv in Hfin as [q ->].
    pose proof (lookup_lt_Some _ _ _ Hk) as Hklt.
    unfold consider. cbn [fst snd closest_dis2].
    destruct (Finite qc <? Finite q)%F eqn:Hlt.
    + apply fltb_finite in Hlt.
      exists (length l), pc, (Finite qc). split; [|reflexivity].
      split; [apply list_lookup_middle; reflexivity|].
      intros j p' d' [[Hj Hlj] | [-> [= <- <-]]]%lookup_snoc_Some.
      * destruct (Hmin j p' d' Hlj) as [Hle _].
        pose proof (Forall_lookup_1 _ _ _ _ Hl Hlj) as Hfin. cbn [snd] in Hfin.
        apply is_finite_inv in Hfin as [q' ->].
        apply fleb_finite in Hle.
        split; [apply fleb_finite; lra | intros _; apply fltb_finite; lra].
      * split; [apply fleb_finite; lra | lia].
    + apply fltb_finite_false in Hlt.
      exists k, p, (Finite q). split; [|reflexivity].
      split; [rewrite lookup_app_l by assumption; exact Hk|].
      intros j p' d' [[Hj Hlj] | [-> [= <- <-]]]%lookup_snoc_Some.
      * apply (Hmin j p' d' Hlj).
      * split; [apply fleb_finite; lra | lia].
Qed.

Lemma first_minimum_same (l s : list (WalkPoint * float)) (k : nat)
    (p : WalkPoint) (d : float) :
  Forall2 candidate_same l s ->
  first_minimum l k p d ->
  exists p' d', first_minimum s k p' d' /\ p ≡ p' /\ d ≡ d'.
Proof.
  intros Hsame [Hk Hmin].
  destruct (Forall2_lookup_l _ _ _ _ _ Hsame Hk) as ([p' d'] & Hk' & Hp & Hd).
  cbn [fst snd] in Hp, Hd.
  exists p', d'. split; [|split; assumption].
  split; [exact Hk'|].
  intros j q' e' Hj.
  destruct (Forall2_lookup_r _ _ _ _ _ Hsame Hj) as ([q e] & Hj' & Hq & He).
  cbn [fst snd] in Hq, He.
  destruct (Hmin j q e Hj') as [Hle Hlt].
  rewrite <- (fleb_same _ _ _ _ Hd He), <- (fltb_same _ _ _ _ Hd He).
  split; assumption.
Qed.

(** *** Edge candidates *)

Lemma Qdiv_neg_iff (a m : Q) : (0 < m -> (a / m < 0 <-> a < 0))%Q.
Proof.
  intros Hm. split; intros H.
  - destruct (Qlt_le_dec a 0) as [|Hge]; [assumption|]. exfalso.
    assert (0 <= a / m)%Q by (apply Qle_shift_div_l; lra). lra.
  - apply Qlt_shift_div_r; lra.
Qed.

Lemma Qdiv_gt_one_iff (a m : Q) : (0 < m -> (1 < a / m <-> m < a))%Q.
Proof.
  intros Hm. split; intros H.
  - destruct (Qlt_le_dec m a) as [|Hge]; [assumption|]. exfalso.
    assert (a / m <= 1)%Q by (apply Qle_shift_div_r; lra). lra.
  - apply Qlt_shift_div_l; lra.
Qed.

(** On a segment of positive length between finite end points, the
    candidate of [check_edge] has finite distance and valid weights with a
    zero third component, and it is the candidate of the specification. *)
Lemma edge_candidate_spec (ax ay az bx by_ bz px py pz : Q) (ai bi ci : N) :
  let a := q3 ax ay az in
  let b := q3 bx by_ bz in
  let point := q3 px py pz in
  (zero <? dot (b - a) (b - a))%F = true ->
  exists w0 w1 dq,
    edge_candidate a b ai bi ci point
    = (mkWalkPoint (uvec3.mk ai bi ci) (q3 w0 w1 0), Finite dq)
    /\ (0 <= w0 /\ 0 <= w1 /\ w0 + w1 == 1)%Q
    /\ candidate_same (edge_candidate a b ai bi ci point)
         (spec_edge_candidate a b ai bi ci point).
Proof.
  intros a b point Hm. subst a b point.
  unfold edge_candidate, spec_edge_candidate, spec_clamp, fgtb, candidate_same.
  vec_compute_in Hm. vec_compute.
  match goal with
  | |- context [(Finite ?A <? Finite 0)%F] => set (along := A) in *
  end.
  match goal with
  | |- context [(Finite ?M <? Finite along)%F] => set (max := M) in *
  end.
  apply fltb_finite in Hm.
  rewrite !fdiv_finite by lra.
  pose proof (Qdiv_neg_iff along max Hm) as Hneg.
  pose proof (Qdiv_gt_one_iff along max Hm) as Hgt.
  destruct (Qlt_le_dec along 0) as [L0 | G0].
  - replace (Finite along <? Finite 0)%F with true
      by (symmetry; apply fltb_finite; assumption).
    replace (Finite (along / max) <? Finite 0)%F with true
      by (symmetry; apply fltb_finite, Hneg; assumption).
    eexists _, _, _. split; [reflexivity|]. split; [lra|].
    repeat split; cbn; ring.
  - replace (Finite along <? Finite 0)%F with false
      by (symmetry; apply fltb_finite_false; assumption).
    replace (Finite (along / max) <? Finite 0)%F with false
      by (symmetry; apply fltb_finite_false;
          destruct (Qlt_le_dec (along / max) 0) as [L|]; [apply Hneg in L; lra | assumption]).
    destruct (Qlt_le_dec max along) as [L1 | G1].
    + replace (Finite max <? Finite along)%F with true
        by (symmetry; apply fltb_finite; assumption).
      replace (Finite 1 <? Finite (along / max))%F with true
        by (symmetry; apply fltb_finite, Hgt; assumption).
      eexists _, _, _. split; [reflexivity|]. split; [lra|].
      repeat split; cbn; ring.
    + replace (Finite max <? Finite along)%F with false
        by (symmetry; apply fltb_finite_false; assumption).
      replace (Finite 1 <? Finite (along / max))%F with false
        by (symmetry; apply fltb_finite_false;
            destruct (Qlt_le_dec 1 (along / max)) as [L|]; [apply Hgt in L; lra | assumption]).
      cbv [fadd fneg fmul].
      eexists _, _, _. split; [reflexivity|].
      assert (0 <= along / max)%Q by (apply Qle_shift_div_l; lra).
      assert (along / max <= 1)%Q by (apply Qle_shift_div_r; lra).
      split; [split; [lra | split; [lra | ring]]|].
      repeat split; cbn; ring.
Qed.

(** *** Non-degenerate triangles *)

Lemma Qsquares_zero (x y z : Q) :
  (x * x + y * y + z * z <= 0 -> x == 0 /\ y == 0 /\ z == 0)%Q.
Proof. intros H. repeat split; nra. Qed.

Lemma nondegenerate_rotate (a b c : vec3) :
  nondegenerate a b c -> nondegenerate b c a.
Proof.
  intros (Ha & Hb & Hc & Hden). repeat split; try apply Hb; try apply Hc; try apply Ha.
  apply finite_vec_inv in Ha as (ax & ay & az & ->), Hb as (bx & by_ & bz & ->),
    Hc as (cx & cy & cz & ->).
  vec_compute_in Hden. vec_compute.
  apply feqb_finite_false in Hden. apply feqb_finite_false.
  intros E. apply Hden. rewrite <- E. ring.
Qed.

Lemma nondegenerate_edges (a b c : vec3) :
  nondegenerate a b c ->
  (zero <? dot (b - a) (b - a))%F = true
  /\ (zero <? dot (c - b) (c - b))%F = true
  /\ (zero <? dot (a - c) (a - c))%F = true.
Proof.
  assert (Hfirst : forall a b c, nondegenerate a b c ->
                     (zero <? dot (b - a) (b - a))%F = true).
  { clear. intros a b c (Ha & Hb & Hc & Hden).
    apply finite_vec_inv in Ha as (ax & ay & az & ->), Hb as (bx & by_ & bz & ->),
      Hc as (cx & cy & cz & ->).
    vec_compute_in Hden. vec_compute.
    apply feqb_finite_false in Hden. apply fltb_finite.
    match goal with |- (0 < ?S)%Q => destruct (Qlt_le_dec 0 S) as [|Hle] end;
      [assumption|].
    exfalso. apply Hden.
    apply Qsquares_zero in Hle as (Ex & Ey & Ez).
    rewrite Ex, Ey, Ez. ring. }
  intros H. split; [|split].
  - apply (Hfirst a b c H).
  - apply (Hfirst b c a), nondegenerate_rotate, H.
  - apply (Hfirst c a b), nondegenerate_rotate, nondegenerate_rotate, H.
Qed.

Lemma corners_rotate (vs : list vec3) (t : uvec3) (a b c : vec3) :
  corners vs t = Some (a, b, c) -> corners vs (rotate t) = Some (b, c, a).
Proof.
  rewrite !corners_Some. unfold rotate. cbn [uvec3.x uvec3.y uvec3.z]. tauto.
Qed.

Lemma triangle_ok_rotate (vs : list vec3) (t : uvec3) :
  triangle_ok vs t -> triangle_ok vs (rotate t).
Proof.
  intros (a & b & c & Hc & Hnd). exists b, c, a.
  split; [apply corners_rotate, Hc | apply nondegenerate_rotate, Hnd].
Qed.

Lemma triangle_ok_cyclic (vs : list vec3) (t s : uvec3) :
  triangle_ok vs t -> cyclic t s -> triangle_ok vs s.
Proof.
  intros Hok [-> | [-> | ->]]; auto using triangle_ok_rotate.
Qed.

Lemma cyclic_rotate (t s : uvec3) : cyclic t s -> cyclic t (rotate s).
Proof.
  destruct t as [x y z]. intros [-> | [-> | ->]]; unfold cyclic, rotate; cbn; auto.
Qed.

(** *** The candidates of one triangle *)

Lemma triangle_candidates_spec (a b c : vec3) (tri : uvec3) (point : vec3) :
  nondegenerate a b c -> finite_vec point ->
  Forall (fun cand =>
            is_finite (snd cand)
            /\ valid_weights (weights (fst cand))
            /\ cyclic tri (indices (fst cand)))
    (triangle_candidates a b c tri point)
  /\ triangle_candidates a b c tri point <> []
  /\ Forall2 candidate_same (triangle_candidates a b c tri point)
       (spec_triangle_candidates a b c tri point).
Proof.
  intros Hnd Hpt.
  pose proof (nondegenerate_edges a b c Hnd) as (Hab & Hbc & Hca).
  destruct (barycentric_finite a b c point Hnd Hpt) as (u & v & w & Hbary & Hsum).
  destruct Hnd as (Ha & Hb & Hc & _).
  apply finite_vec_inv in Ha as (ax & ay & az & ->), Hb as (bx & by_ & bz & ->),
    Hc as (cx & cy & cz & ->), Hpt as (px & py & pz & ->).
  unfold triangle_candidates, spec_triangle_candidates. rewrite Hbary.
  destruct (_ && _ && _) eqn:Hin.
  - rewrite !andb_true_iff in Hin. destruct Hin as [[Hu Hv] Hw].
    apply fgeb_finite in Hu, Hv, Hw.
    split; [|split; [discriminate|]].
    + constructor; [|constructor]. cbn [fst snd weights indices].
      split; [exact I|]. split; [cbn; lra | left; reflexivity].
    + constructor; [|constructor]. split; reflexivity.
  - destruct (edge_candidate_spec ax ay az bx by_ bz px py pz
                (uvec3.x tri) (uvec3.y tri) (uvec3.z tri) Hab)
      as (w0 & w1 & dq & E1 & (P0 & P1 & S1) & Same1).
    destruct (edge_candidate_spec bx by_ bz cx cy cz px py pz
                (uvec3.y tri) (uvec3.z tri) (uvec3.x tri) Hbc)
      as (w0' & w1' & dq' & E2 & (P0' & P1' & S2) & Same2).
    destruct (edge_candidate_spec cx cy cz ax ay az px py pz
                (uvec3.z tri) (uvec3.x tri) (uvec3.y tri) Hca)
      as (w0'' & w1'' & dq'' & E3 & (P0'' & P1'' & S3) & Same3).
    split; [|split; [discriminate|]].
    + rewrite E1, E2, E3. destruct tri as [x y z].
      constructor; [|constructor; [|constructor; [|constructor]]];
        (split; [exact I|]); (split; [cbn; lra|]);
        unfold cyclic, rotate; cbn; auto.
    + constructor; [|constructor; [|constructor; [|constructor]]]; assumption.
Qed.

Lemma code_candidates_spec (vs : list vec3) (tris : list uvec3) (point : vec3) :
  Forall (triangle_ok vs) tris -> finite_vec point ->
  let cands (f : vec3 -> vec3 -> vec3 -> uvec3 -> vec3 -> list (WalkPoint * float)) :=
    flat_map (fun tri => match corners vs tri with
                         | Some (a, b, c) => f a b c tri point
                         | None => []
                         end) tris in
  Forall (fun cand =>
            is_finite (snd cand)
            /\ valid_weights (weights (fst cand))
            /\ exists t, t ∈ tris /\ cyclic t (indices (fst cand)))
    (cands triangle_candidates)
  /\ (tris <> [] -> cands triangle_candidates <> [])
  /\ Forall2 candidate_same (cands triangle_candidates) (cands spec_triangle_candidates).
Proof.
  intros Hok Hpt. cbv zeta.
  induction Hok as [|tri tris (a & b & c & Hc & Hnd) _ (IH1 & _ & IH3)].
  - split; [constructor|]. split; [congruence | constructor].
  - cbn [flat_map]. rewrite Hc.
    destruct (triangle_candidates_spec a b c tri point Hnd Hpt) as (T1 & T2 & T3).
    split; [|split].
    + apply Forall_app. split.
      * eapply Forall_impl; [exact T1|]. cbv beta.
        intros cand (F & V & Cy). repeat split; try assumption.
        exists tri. split; [apply list_elem_of_here | assumption].
      * eapply Forall_impl; [exact IH1|]. cbv beta.
        intros cand (F & V & t & Ht & Cy). repeat split; try assumption.
        exists t. split; [apply list_elem_of_further | ]; assumption.
    + intros _ E. apply app_eq_nil in E as [E _]. contradiction.
    + apply Forall2_app; assumption.
Qed.

Lemma corners_in_range (vs : list vec3) (s : uvec3) (a b c : vec3) :
  corners vs s = Some (a, b, c) ->
  ((uvec3.x s <? N.of_nat (length vs)) = true
   /\ (uvec3.y s <? N.of_nat (length vs)) = true
   /\ (uvec3.z s <? N.of_nat (length vs)) = true)%N.
Proof.
  intros (Ha & Hb & Hc)%corners_Some.
  apply at_index_Ok, lookup_lt_Some in Ha, Hb, Hc.
  rewrite !N.ltb_lt. lia.
Qed.

Section Nearest.

Variable WalkPoint_default : WalkPoint.

(** The loop of [nearest_walk_point] ends on the first code candidate of
    least distance, which is a valid WalkPoint and passes the final
    assertions. *)
Lemma nearest_walk_point_code (m : WalkMesh) (point : vec3) :
  Forall (triangle_ok (vertices m)) (triangles m) ->
  finite_vec point ->
  triangles m <> [] ->
  exists k wp d,
    nearest_walk_point WalkPoint_default m point = Ok wp
    /\ first_minimum (code_candidates m point) k wp d
    /\ valid_walk_point m wp.
Proof.
  intros Hok Hpt Hne.
  destruct (code_candidates_spec (vertices m) (triangles m) point Hok Hpt)
    as (Hall & Hne' & _).
  specialize (Hne' Hne).
  assert (Hfin : Forall (fun c => is_finite (snd c)) (code_candidates m point)).
  { eapply Forall_impl; [exact Hall|]. cbv beta. tauto. }
  destruct (fold_consider_first_minimum WalkPoint_default _ Hfin Hne')
    as (k & wp & d & Hmin & Hfold).
  exists k, wp, d.
  pose proof (Forall_lookup_1 _ _ _ _ Hall (proj1 Hmin)) as (_ & Hvalid & t & Ht & Hcy).
  cbn [fst] in Hvalid, Hcy.
  assert (Htok : triangle_ok (vertices m) (indices wp)).
  { eapply triangle_ok_cyclic; [|exact Hcy].
    rewrite Forall_forall in Hok. apply Hok, Ht. }
  destruct Htok as (a & b & c & Hc & _).
  apply corners_in_range in Hc as (Rx & Ry & Rz).
  split; [|split; [exact Hmin | split; [exact Hvalid | exists t; auto]]].
  unfold nearest_walk_point.
  rewrite bool_decide_eq_false_2 by exact Hne. cbn [negb assert bind].
  rewrite (for_each_nearest_step m point _ _ Hok). cbn [bind].
  fold (code_candidates m point). rewrite Hfold. cbn [closest].
  rewrite Rx, Ry, Rz. reflexivity.
Qed.

(** *** The first minimum, in exact arithmetic *)

(** In exact arithmetic: on an empty triangle list [nearest_walk_point]
    stops at its assertion; on a non-empty mesh of non-degenerate
    triangles it returns
    the first candidate of least squared distance among the candidates of
    section 4.2 (the projection for a triangle that contains it, the three
    clamped edge points otherwise), in iteration order. *)
Theorem nearest_walk_point_first_minimum (m : WalkMesh) (point : vec3) :
  (triangles m = [] ->
   nearest_walk_point WalkPoint_default m point = Stop assertion_failed)
  /\
  (Forall (triangle_ok (vertices m)) (triangles m) ->
   finite_vec point ->
   triangles m <> [] ->
   exists wp k cand dist,
     nearest_walk_point WalkPoint_default m point = Ok wp
     /\ first_minimum (spec_candidates m point) k cand dist
     /\ wp ≡ cand).
Proof.
  split.
  - intros E. unfold nearest_walk_point. rewrite E. reflexivity.
  - intros Hok Hpt Hne.
    destruct (nearest_walk_point_code m point Hok Hpt Hne)
      as (k & wp & d & Hres & Hmin & _).
    destruct (code_candidates_spec (vertices m) (triangles m) point Hok Hpt)
      as (_ & _ & Hsame).
    destruct (first_minimum_same _ _ _ _ _ Hsame Hmin)
      as (cand & dist & Hmin' & Hwp & _).
    exists wp, k, cand, dist. auto.
Qed.

End Nearest.

(** *** The directed-edge map built by the constructor *)

Lemma do_next_sound (nv nv' : gmap (N * N) N) (a b c : N) :
  do_next nv a b c = Ok nv' ->
  forall x y z, nv' !! (x, y) = Some z ->
    (x = a /\ y = b /\ z = c) \/ nv !! (x, y) = Some z.
Proof.
  unfold do_next. destruct (nv !! (a, b)) eqn:E; [discriminate|].
  intros [= <-] x y z [[[= <- <-] <-] | [_ H]]%lookup_insert_Some; auto.
Qed.

Lemma insert_triangle_sound (nv nv' : gmap (N * N) N) (tri : uvec3) :
  insert_triangle nv tri = Ok nv' ->
  forall x y z, nv' !! (x, y) = Some z ->
    cyclic tri (uvec3.mk x y z) \/ nv !! (x, y) = Some z.
Proof.
  unfold insert_triangle. destruct tri as [a b c]. cbn [uvec3.x uvec3.y uvec3.z].
  destruct (do_next nv a b c) as [nv1|] eqn:E1; [|discriminate]. cbn [bind].
  destruct (do_next nv1 b c a) as [nv2|] eqn:E2; [|discriminate]. cbn [bind].
  intros E3 x y z H.
  destruct (do_next_sound _ _ _ _ _ E3 x y z H) as [(-> & -> & ->) | H2];
    [left; unfold cyclic, rotate; cbn; auto|].
  destruct (do_next_sound _ _ _ _ _ E2 x y z H2) as [(-> & -> & ->) | H1];
    [left; unfold cyclic, rotate; cbn; auto|].
  destruct (do_next_sound _ _ _ _ _ E1 x y z H1) as [(-> & -> & ->) | H0];
    [left; unfold cyclic, rotate; cbn; auto | right; exact H0].
Qed.

Lemma for_each_insert_triangle_sound (tris : list uvec3) (nv nv' : gmap (N * N) N) :
  for_each insert_triangle tris nv = Ok nv' ->
  forall x y z, nv' !! (x, y) = Some z ->
    (exists t, t ∈ tris /\ cyclic t (uvec3.mk x y z)) \/ nv !! (x, y) = Some z.
Proof.
  revert nv. induction tris as [|tri tris IH]; intros nv; cbn [for_each].
  - intros [= <-] x y z H. right. exact H.
  - destruct (insert_triangle nv tri) as [nv1|] eqn:E1; [|discriminate]. cbn [bind].
    intros E x y z H.
    destruct (IH _ E x y z H) as [(t & Ht & Hcy) | H1].
    + left. exists t. split; [apply list_elem_of_further, Ht | exact Hcy].
    + destruct (insert_triangle_sound _ _ _ E1 x y z H1) as [Hcy | H0].
      * left. exists tri. split; [apply list_elem_of_here | exact Hcy].
      * right. exact H0.
Qed.

(** Every entry of the map of a constructed mesh is a directed edge of one
    of its triangles. *)
Lemma WalkMesh_new_next_vertex (inversesqrt : float -> float)
    (vs ns : list vec3) (tris : list uvec3) (m : WalkMesh) :
  WalkMesh_new inversesqrt vs ns tris = Ok m ->
  forall a b c, next_vertex m !! (a, b) = Some c ->
    exists t, t ∈ triangles m /\ cyclic t (uvec3.mk a b c).
Proof.
  unfold WalkMesh_new.
  destruct (for_each insert_triangle tris ∅) as [nv|] eqn:E; [|discriminate].
  cbn [bind]. destruct (for_each _ tris tt) as [[]|]; [|discriminate]. cbn [bind].
  intros [= <-] a b c H. cbn [next_vertex triangles] in *.
  destruct (for_each_insert_triangle_sound _ _ _ E a b c H) as [Ht | H0];
    [exact Ht|].
  rewrite lookup_empty in H0. discriminate.
Qed.

Lemma flat_square_ok : mesh_ok flat_square.
Proof.
  split.
  - repeat constructor; eexists _, _, _; (split; [reflexivity | repeat split]).
  - apply (WalkMesh_new_next_vertex inversesqrt_exact square_vertices square_normals
             [uvec3.mk 0 1 2; uvec3.mk 2 1 3]).
    exact flat_square_constructed.
Qed.

Lemma nearest_walk_point_first_minimum_witness :
  exists wp k cand dist,
    nearest_walk_point WalkPoint_unset flat_square (q3 (1#5) (1#5) 5) = Ok wp
    /\ first_minimum (spec_candidates flat_square (q3 (1#5) (1#5) 5)) k cand dist
    /\ wp ≡ cand.
Proof.
  apply (proj2 (nearest_walk_point_first_minimum WalkPoint_unset flat_square
                  (q3 (1#5) (1#5) 5))).
  - apply flat_square_ok.
  - repeat split.
  - discriminate.
Defined.

(** *** The validity invariant *)




Lemma cyclic_edge_to_front (t i : uvec3) (k : N) :
  cyclic t i -> cyclic t (edge_to_front k i).
Proof.
  intros H. destruct k as [|[[]|[]|]]; cbn [edge_to_front];
    auto using cyclic_rotate.
Qed.


Section Validity.

Variable inversesqrt : float -> float.
Variable rotation : vec3 -> vec3 -> quat.
Variable WalkPoint_default : WalkPoint.



(** ** C8 *)


End Validity.


(** *** The end-to-end scenario of the specification *)

(** On the flat triangle the point [(0.2, 0.2, 5)] projects inside, to the
    weights [(0.6, 0.2, 0.2)]. *)
Example scenario_nearest :
  exists wp,
    nearest_walk_point WalkPoint_unset flat_triangle (q3 (1#5) (1#5) 5) = Ok wp
    /\ wp ≡ mkWalkPoint (uvec3.mk 0 1 2) (q3 (3#5) (1#5) (1#5)).
Proof.
  eexists. split; [vm_compute; reflexivity|].
  split; [reflexivity|]. repeat split; reflexivity.
Qed.

(** From there the step [(1, 1, 0)] reaches the edge opposite to vertex 0
    after three tenths of the way; the result is named on [(1, 2, 0)]. *)
Example scenario_walk :
  exists end_ t,
    walk_in_triangle flat_triangle
      (mkWalkPoint (uvec3.mk 0 1 2) (q3 (3#5) (1#5) (1#5))) (q3 1 1 0)
    = Ok (end_, t)
    /\ t ≡ Finite (3#10)
    /\ end_ ≡ mkWalkPoint (uvec3.mk 1 2 0) (q3 (1#2) (1#2) 0).
Proof.
  eexists _, _. split; [vm_compute; reflexivity|].
  split; [reflexivity|]. split; [reflexivity|]. repeat split; reflexivity.
Qed.

(** * Further properties of the code *)

(** ** [barycentric_weights] *)






(** ** The constructor [WalkMesh::WalkMesh] *)

Lemma do_next_grows (nv nv' : gmap (N * N) N) (a b c : N) :
  do_next nv a b c = Ok nv' ->
  nv !! (a, b) = None /\ nv' !! (a, b) = Some c
  /\ forall k v, nv !! k = Some v -> nv' !! k = Some v.
Proof.
  unfold do_next. destruct (nv !! (a, b)) eqn:E; [discriminate|].
  intros [= <-]. split; [reflexivity|]. split; [apply lookup_insert_eq|].
  intros k v Hk. rewrite lookup_insert_ne; [exact Hk | congruence].
Qed.

Lemma do_next_fault (nv : gmap (N * N) N) (a b c : N) (f : fault) :
  do_next nv a b c = Stop f -> f = assertion_failed.
Proof. unfold do_next. destruct (nv !! (a, b)); intros [=]. congruence. Qed.

Lemma insert_triangle_grows (nv nv' : gmap (N * N) N) (t : uvec3) :
  insert_triangle nv t = Ok nv' ->
  NoDup (directed_edges t)
  /\ (forall e, e ∈ directed_edges t -> nv !! e = None)
  /\ nv' !! (uvec3.x t, uvec3.y t) = Some (uvec3.z t)
  /\ nv' !! (uvec3.y t, uvec3.z t) = Some (uvec3.x t)
  /\ nv' !! (uvec3.z t, uvec3.x t) = Some (uvec3.y t)
  /\ forall k v, nv !! k = Some v -> nv' !! k = Some v.
Proof.
  unfold insert_triangle, directed_edges. destruct t as [a b c].
  cbn [uvec3.x uvec3.y uvec3.z].
  destruct (do_next nv a b c) as [nv1|] eqn:E1; [|discriminate]. cbn [bind].
  destruct (do_next nv1 b c a) as [nv2|] eqn:E2; [|discriminate]. cbn [bind].
  intros E3.
  apply do_next_grows in E1 as (N1 & S1 & M1), E2 as (N2 & S2 & M2),
    E3 as (N3 & S3 & M3).
  assert (D12 : (a, b) <> (b, c)) by (intros E; rewrite <- E in N2; congruence).
  assert (D13 : (a, b) <> (c, a))
    by (intros E; rewrite <- E in N3; apply M2 in S1; congruence).
  assert (D23 : (b, c) <> (c, a)) by (intros E; rewrite <- E in N3; congruence).
  assert (A2 : nv !! (b, c) = None).
  { destruct (nv !! (b, c)) eqn:E; [|reflexivity]. apply M1 in E. congruence. }
  assert (A3 : nv !! (c, a) = None).
  { destruct (nv !! (c, a)) eqn:E; [|reflexivity]. apply M1, M2 in E. congruence. }
  split; [|split; [|repeat split; auto]].
  - repeat (apply NoDup_cons; split); try apply NoDup_nil_2;
      rewrite ?elem_of_cons, ?elem_of_nil; intuition congruence.
  - intros e He. rewrite !elem_of_cons, elem_of_nil in He.
    destruct He as [-> | [-> | [-> | []]]]; assumption.
Qed.

Lemma insert_triangle_fault (nv : gmap (N * N) N) (t : uvec3) (f : fault) :
  insert_triangle nv t = Stop f -> f = assertion_failed.
Proof.
  unfold insert_triangle.
  destruct (do_next nv _ _ _) as [nv1|f1] eqn:E1; cbn [bind];
    [|intros [= <-]; eapply do_next_fault, E1].
  destruct (do_next nv1 _ _ _) as [nv2|f2] eqn:E2; cbn [bind];
    [|intros [= <-]; eapply do_next_fault, E2].
  apply do_next_fault.
Qed.

Lemma for_each_insert_triangle_fault (tris : list uvec3) (nv : gmap (N * N) N)
    (f : fault) :
  for_each insert_triangle tris nv = Stop f -> f = assertion_failed.
Proof.
  revert nv. induction tris as [|t tris IH]; intros nv; cbn [for_each]; [discriminate|].
  destruct (insert_triangle nv t) as [nv1|f1] eqn:E1; cbn [bind];
    [apply IH | intros [= <-]; eapply insert_triangle_fault, E1].
Qed.

Lemma for_each_insert_triangle_grows (tris : list uvec3) (nv nv' : gmap (N * N) N) :
  for_each insert_triangle tris nv = Ok nv' ->
  NoDup (flat_map directed_edges tris)
  /\ (forall e, e ∈ flat_map directed_edges tris -> nv !! e = None)
  /\ (forall t, t ∈ tris ->
        nv' !! (uvec3.x t, uvec3.y t) = Some (uvec3.z t)
        /\ nv' !! (uvec3.y t, uvec3.z t) = Some (uvec3.x t)
        /\ nv' !! (uvec3.z t, uvec3.x t) = Some (uvec3.y t))
  /\ forall k v, nv !! k = Some v -> nv' !! k = Some v.
Proof.
  revert nv. induction tris as [|t tris IH]; intros nv; cbn [for_each flat_map].
  - intros [= <-]. split; [constructor|]. split; [intros e He; inversion He|].
    split; [intros t Ht; inversion Ht | auto].
  - destruct (insert_triangle nv t) as [nv1|] eqn:E1; [|discriminate]. cbn [bind].
    intros E.
    apply insert_triangle_grows in E1 as (D1 & A1 & Sx & Sy & Sz & M1).
    apply IH in E as (D & A & S & M).
    split; [|split; [|split]].
    + apply NoDup_app. split; [exact D1|]. split; [|exact D].
      intros e He Hin. apply A in Hin.
      unfold directed_edges in He.
      apply elem_of_cons in He as [-> | He]; [congruence|].
      apply elem_of_cons in He as [-> | He]; [congruence|].
      apply elem_of_cons in He as [-> | He]; [congruence|].
      inversion He.
    + intros e [He | He]%elem_of_app; [apply A1, He|].
      apply A in He. destruct (nv !! e) eqn:Ee; [|reflexivity].
      apply M1 in Ee. congruence.
    + intros t' [-> | Ht]%elem_of_cons; [|apply S, Ht].
      repeat split; apply M; assumption.
    + intros k v Hk. apply M, M1, Hk.
Qed.

Section Constructor.

Variable inversesqrt : float -> float.

Lemma WalkMesh_new_map (vs ns : list vec3) (tris : list uvec3)
    (m : WalkMesh) :
  WalkMesh_new inversesqrt vs ns tris = Ok m ->
  vertices m = vs /\ normals m = ns /\ triangles m = tris
  /\ forall a b c,
       next_vertex m !! (a, b) = Some c
       <-> exists t, t ∈ tris /\ cyclic t (uvec3.mk a b c).
Proof.
  intros Hnew. pose proof (WalkMesh_new_next_vertex _ _ _ _ _ Hnew) as Hsound.
  unfold WalkMesh_new in Hnew.
  destruct (for_each insert_triangle tris ∅) as [nv|] eqn:E; [|discriminate].
  cbn [bind] in Hnew. destruct (for_each _ tris tt) as [[]|]; [|discriminate].
  cbn [bind] in Hnew. injection Hnew as <-.
  cbn [vertices normals triangles next_vertex] in *.
  repeat split; try reflexivity.
  - apply Hsound.
  - intros (t & Ht & Hcy).
    apply for_each_insert_triangle_grows in E as (_ & _ & S & _).
    destruct (S t Ht) as (Sx & Sy & Sz). destruct t as [x y z].
    cbn [uvec3.x uvec3.y uvec3.z] in *.
    destruct Hcy as [[= -> -> ->] | [[= -> -> ->] | [= -> -> ->]]]; assumption.
Qed.

(** X3: a constructed mesh keeps the three buffers it was given, and its
    map sends a directed edge [(a, b)] to [c] exactly when [(a, b, c)] is a
    rotation of one of its triangles. *)
Theorem WalkMesh_new_next_vertex_iff (vs ns : list vec3) (tris : list uvec3)
    (m : WalkMesh) :
  WalkMesh_new inversesqrt vs ns tris = Ok m ->
  vertices m = vs /\ normals m = ns /\ triangles m = tris
  /\ forall a b c,
       next_vertex m !! (a, b) = Some c
       <-> exists t, t ∈ tris /\ cyclic t (uvec3.mk a b c).
Proof. apply WalkMesh_new_map. Qed.

(** X4: when two of the directed edges of the triangle list coincide (a
    repeated triangle, an edge used twice in the same direction, a triangle
    with a repeated vertex pair), the constructor stops at the assertion of
    [do_next]. *)
Theorem WalkMesh_new_repeated_edge (vs ns : list vec3) (tris : list uvec3) :
  ~ NoDup (flat_map directed_edges tris) ->
  WalkMesh_new inversesqrt vs ns tris = Stop assertion_failed.
Proof.
  intros Hdup. unfold WalkMesh_new.
  destruct (for_each insert_triangle tris ∅) as [nv|f] eqn:E.
  - exfalso. apply Hdup. apply for_each_insert_triangle_grows in E. tauto.
  - apply for_each_insert_triangle_fault in E as ->. reflexivity.
Qed.



End Constructor.

Lemma WalkMesh_new_next_vertex_iff_witness :
  vertices flat_square = square_vertices /\ normals flat_square = square_normals
  /\ triangles flat_square = [uvec3.mk 0 1 2; uvec3.mk 2 1 3]
  /\ forall a b c,
       next_vertex flat_square !! (a, b) = Some c
       <-> exists t, t ∈ [uvec3.mk 0 1 2; uvec3.mk 2 1 3]
                     /\ cyclic t (uvec3.mk a b c).
Proof.
  apply (WalkMesh_new_next_vertex_iff inversesqrt_exact square_vertices
           square_normals [uvec3.mk 0 1 2; uvec3.mk 2 1 3] flat_square).
  vm_compute. reflexivity.
Defined.

Lemma WalkMesh_new_repeated_edge_witness :
  WalkMesh_new inversesqrt_exact square_vertices square_normals
    [uvec3.mk 0 1 2; uvec3.mk 1 2 3]
  = Stop assertion_failed.
Proof.
  apply (WalkMesh_new_repeated_edge inversesqrt_exact).
  intros H. vm_compute in H.
  apply NoDup_cons in H as [_ H]. apply NoDup_cons in H as [H _].
  apply H. set_solver.
Defined.


(** ** [cross_edge] *)

Section CrossEdgeMore.

Variable inversesqrt : float -> float.
Variable rotation : vec3 -> vec3 -> quat.



End CrossEdgeMore.



(** ** [walk_in_triangle] *)

(** X8: whenever [walk_in_triangle] returns from a valid start, the
    fraction lies in [(0, 1]] and is at most the crossing time
    [-start_w / (dest_w - start_w)] of every component that starts positive
    and ends non-positive: the walk stops at the first edge reached. *)
Theorem walk_in_triangle_first_edge (m : WalkMesh) (start end_ : WalkPoint)
    (step dest : vec3) (t : float) :
  valid_weights (weights start) ->
  destination_weights m start step = Ok dest ->
  finite_vec dest ->
  walk_in_triangle m start step = Ok (end_, t) ->
  (zero <? t)%F = true /\ (t <=? one)%F = true
  /\ forall j, (j < 3)%N ->
       (component j dest <=? zero)%F = true ->
       (zero <? component j (weights start))%F = true ->
       (t <=? - component j (weights start)
               / (component j dest - component j (weights start)))%F = true.
Proof.
  intros (s0 & s1 & s2 & Hs & H0 & H1 & H2 & _)%valid_weights_inv Hd
    (d0 & d1 & d2 & ->)%finite_vec_inv.
  rewrite walk_in_triangle_split, Hd, Hs. cbn [bind].
  assert (Hsome : forall j, (j < 3)%N ->
            (component j (q3 d0 d1 d2) <=? zero)%F = true ->
            (zero <? component j (q3 s0 s1 s2))%F = true ->
            let sj := match j with 0%N => s0 | 1%N => s1 | _ => s2 end in
            let dj := match j with 0%N => d0 | 1%N => d1 | _ => d2 end in
            (~ dj - sj == 0)%Q
            /\ match j with
               | 0%N => crossing_time s0 d0
               | 1%N => crossing_time s1 d1
               | _ => crossing_time s2 d2
               end = Some (- sj / (dj - sj))%Q).
  { intros j Hj Hle Hpos. rewrite !component_q3 in Hle, Hpos.
    apply fleb_finite in Hle. apply fltb_finite in Hpos. cbv zeta.
    split; [lra|].
    apply N_lt_3 in Hj as [-> | [-> | ->]]; apply crossing_time_some; lra. }
  destruct (walk_from_cases (indices start) s0 s1 s2 d0 d1 d2 H0 H1 H2)
    as [(E0 & E1 & E2 & ->) | (k & tk & Hk & Hck & Hmin & Hres)].
  - intros [= _ <-]. split; [reflexivity|]. split; [reflexivity|].
    intros j Hj Hle Hpos. exfalso.
    destruct (Hsome j Hj Hle Hpos) as (_ & Hc).
    apply N_lt_3 in Hj as [-> | [-> | ->]]; congruence.
  - destruct Hres as [(_ & ->) | (Hpos & tq & Htq & ->)]; [discriminate|].
    intros [= _ <-].
    assert (Hr : (0 <= tk <= 1)%Q).
    { destruct Hk as [-> | [-> | ->]];
        apply crossing_time_range in Hck; try assumption; tauto. }
    split; [apply fltb_finite; lra|]. split; [apply fleb_finite; lra|].
    intros j Hj Hle Hposj.
    destruct (Hsome j Hj Hle Hposj) as (Hne & Hc).
    rewrite !component_q3. cbn [fsub fneg fadd].
    rewrite fdiv_finite by exact Hne. apply fleb_finite. rewrite Htq.
    apply (Hmin j); [lia | exact Hc].
Qed.

Lemma walk_in_triangle_first_edge_witness :
  exists end_ t,
    walk_in_triangle flat_triangle inner_point (q3 1 1 0) = Ok (end_, t)
    /\ (zero <? t)%F = true /\ (t <=? one)%F = true.
Proof.
  eexists _, _. split; [vm_compute; reflexivity|].
  edestruct (walk_in_triangle_first_edge flat_triangle inner_point)
    with (step := q3 1 1 0) as (Hpos & Hle & _).
  - cbn. lra.
  - vm_compute. reflexivity.
  - repeat split.
  - vm_compute. reflexivity.
  - split; [exact Hpos | exact Hle].
Defined.

(** X9: whenever [walk_in_triangle] returns from a valid start, the index
    triple of the result is a rotation of the start's; and when the
    fraction is less than one the third weight of the result is exactly
    zero, which is what [cross_edge] asserts of its argument. *)
Theorem walk_in_triangle_stops_on_edge (m : WalkMesh) (start end_ : WalkPoint)
    (step dest : vec3) (t : float) :
  valid_weights (weights start) ->
  destination_weights m start step = Ok dest ->
  finite_vec dest ->
  walk_in_triangle m start step = Ok (end_, t) ->
  cyclic (indices start) (indices end_)
  /\ ((t <? one)%F = true -> vec3.z (weights end_) = zero).
Proof.
  intros (s0 & s1 & s2 & Hs & H0 & H1 & H2 & _)%valid_weights_inv Hd
    (d0 & d1 & d2 & ->)%finite_vec_inv.
  rewrite walk_in_triangle_split, Hd, Hs. cbn [bind].
  destruct (walk_from_cases (indices start) s0 s1 s2 d0 d1 d2 H0 H1 H2)
    as [(_ & _ & _ & ->) | (k & tk & Hk & _ & _ & Hres)].
  - intros [= <- <-]. split; [left; reflexivity | discriminate].
  - destruct Hres as [(_ & ->) | (_ & tq & _ & ->)]; [discriminate|].
    intros [= <- <-]. cbn [indices weights].
    split; [apply cyclic_edge_to_front; left; reflexivity|].
    intros _. destruct Hk as [-> | [-> | ->]]; reflexivity.
Qed.

Lemma walk_in_triangle_stops_on_edge_witness :
  exists end_ t,
    walk_in_triangle flat_triangle inner_point (q3 1 1 0) = Ok (end_, t)
    /\ cyclic (uvec3.mk 0 1 2) (indices end_)
    /\ vec3.z (weights end_) = zero.
Proof.
  eexists _, _. split; [vm_compute; reflexivity|].
  edestruct (walk_in_triangle_stops_on_edge flat_triangle inner_point)
    with (step := q3 1 1 0) as (Hcy & Hz).
  - cbn. lra.
  - vm_compute. reflexivity.
  - repeat split.
  - vm_compute. reflexivity.
  - split; [exact Hcy | apply Hz; reflexivity].
Defined.




(** ** [nearest_walk_point] *)






Section NearestMore.

Variable WalkPoint_default : WalkPoint.


End NearestMore.


(** ** The loader [WalkMeshes::WalkMeshes] and [WalkMeshes::lookup] *)

Lemma remap_triangle_found (tris : list uvec3) (e : IndexEntry) (ti : N) (t : uvec3) :
  tris !! N.to_nat ti = Some t ->
  remap_triangle tris e ti
  = if inside_entry e t then Ok (local_triangle e t)
    else Stop (runtime_error InvalidTriangle).
Proof.
  intros H. unfold remap_triangle, at_index. rewrite H. cbn [bind].
  unfold inside_entry, local_triangle, require.
  destruct (_ && _ && _); reflexivity.
Qed.

(** The remapping loop over [ti = b + s, ..., b + s + n - 1], all inside the
    triangle buffer: it either renumbers every triangle of that range, all
    of them inside the entry's vertex range, or throws. *)
Lemma remap_loop (tris : list uvec3) (e : IndexEntry) (b : N) (n s : nat)
    (acc : list uvec3) :
  (N.to_nat b + s + n <= length tris)%nat ->
  match for_each (fun acc ti => let* t := remap_triangle tris e ti in Ok (acc ++ [t]))
          (map (fun k => (b + N.of_nat k)%N) (seq s n)) acc with
  | Ok l =>
      l = acc ++ map (local_triangle e) (take n (drop (N.to_nat b + s) tris))
      /\ Forall (fun t => inside_entry e t = true)
           (take n (drop (N.to_nat b + s) tris))
  | Stop f => f = runtime_error InvalidTriangle
  end.
Proof.
  revert s acc. induction n as [|n IH]; intros s acc Hlen.
  - cbn. rewrite app_nil_r. split; [reflexivity | constructor].
  - cbn [seq map for_each].
    destruct (lookup_lt_is_Some_2 tris (N.to_nat b + s) ltac:(lia)) as [t Ht].
    rewrite (remap_triangle_found tris e _ t)
      by (rewrite <- Ht; f_equal; lia).
    rewrite (drop_S _ _ _ Ht). cbn [take map].
    destruct (inside_entry e t) eqn:Hin; cbn [bind]; [|reflexivity].
    specialize (IH (S s) (acc ++ [local_triangle e t]) ltac:(lia)).
    replace (N.to_nat b + S s)%nat with (S (N.to_nat b + s)) in IH by lia.
    destruct (for_each _ _ _) as [l|f]; [|exact IH].
    destruct IH as [-> IH]. rewrite <- app_assoc. split; [reflexivity|].
    constructor; assumption.
Qed.

Lemma length_slice {A : Type} (v : list A) (b e : N) :
  (b <= e)%N -> (N.to_nat e <= length v)%nat ->
  length (slice v b e) = N.to_nat (e - b).
Proof.
  intros Hbe He. unfold slice. rewrite length_take, length_drop. lia.
Qed.

Section Loader.

Variable inversesqrt : float -> float.

(** With every index inside both buffers the consistency check can only
    fail at its assertion. *)
Lemma check_normal_fault (vs ns : list vec3) (t : uvec3) (f : fault) :
  (N.to_nat (uvec3.x t) < length vs)%nat -> (N.to_nat (uvec3.y t) < length vs)%nat ->
  (N.to_nat (uvec3.z t) < length vs)%nat -> length ns = length vs ->
  check_normal inversesqrt vs ns t = Stop f -> f = assertion_failed.
Proof.
  intros Hx Hy Hz Hlen. unfold check_normal, at_index.
  destruct (lookup_lt_is_Some_2 vs _ Hx) as [a ->].
  destruct (lookup_lt_is_Some_2 vs _ Hy) as [b ->].
  destruct (lookup_lt_is_Some_2 vs _ Hz) as [c ->].
  rewrite <- Hlen in Hx, Hy, Hz.
  destruct (lookup_lt_is_Some_2 ns _ Hx) as [na ->].
  destruct (lookup_lt_is_Some_2 ns _ Hy) as [nb ->].
  destruct (lookup_lt_is_Some_2 ns _ Hz) as [nc ->].
  cbn [bind]. unfold assert. destruct (_ && _ && _); intros [=]. congruence.
Qed.

Lemma WalkMesh_new_fault (vs ns : list vec3) (tris : list uvec3) (f : fault) :
  length ns = length vs ->
  Forall (fun t => (N.to_nat (uvec3.x t) < length vs)%nat
                   /\ (N.to_nat (uvec3.y t) < length vs)%nat
                   /\ (N.to_nat (uvec3.z t) < length vs)%nat) tris ->
  WalkMesh_new inversesqrt vs ns tris = Stop f -> f = assertion_failed.
Proof.
  intros Hlen Hin. unfold WalkMesh_new.
  destruct (for_each insert_triangle tris ∅) as [nv|f'] eqn:E; cbn [bind];
    [|intros [= <-]; eapply for_each_insert_triangle_fault, E].
  clear E.
  assert (Hchk : forall f', for_each (fun _ tri => check_normal inversesqrt vs ns tri)
                              tris tt = Stop f' -> f' = assertion_failed).
  { induction Hin as [|t tris (Hx & Hy & Hz) _ IH]; intros f'; cbn [for_each];
      [discriminate|].
    destruct (check_normal inversesqrt vs ns t) as [[]|f''] eqn:E; cbn [bind];
      [apply IH | intros [= <-]; eapply check_normal_fault; eassumption]. }
  destruct (for_each _ tris tt) as [[]|f'] eqn:E; cbn [bind]; [discriminate|].
  intros [= <-]. apply Hchk. reflexivity.
Qed.

Lemma local_triangle_in_range (vs : list vec3) (e : IndexEntry) (t : uvec3) :
  (vertex_begin e <= vertex_end e)%N ->
  (N.to_nat (vertex_end e) <= length vs)%nat ->
  inside_entry e t = true ->
  let l := local_triangle e t in
  let n := length (slice vs (vertex_begin e) (vertex_end e)) in
  (N.to_nat (uvec3.x l) < n)%nat /\ (N.to_nat (uvec3.y l) < n)%nat
  /\ (N.to_nat (uvec3.z l) < n)%nat.
Proof.
  intros Hbe He Hin. cbv zeta. rewrite length_slice by assumption.
  unfold inside_entry in Hin. rewrite !andb_true_iff in Hin.
  rewrite !N.leb_le, !N.ltb_lt in Hin. unfold local_triangle. cbn. lia.
Qed.

(** What a successful iteration of the loop over the index did. *)
Lemma load_entry_Ok (vs ns : list vec3) (tris : list uvec3) (names : list ascii)
    (meshes meshes' : gmap string WalkMesh) (e : IndexEntry) :
  load_entry inversesqrt vs ns tris names meshes e = Ok meshes' ->
  entry_in_bounds names vs tris e = true
  /\ Forall (fun t => inside_entry e t = true)
       (slice tris (triangle_begin e) (triangle_end e))
  /\ meshes !! entry_name names e = None
  /\ exists wm,
       WalkMesh_new inversesqrt
         (slice vs (vertex_begin e) (vertex_end e))
         (slice ns (vertex_begin e) (vertex_end e))
         (map (local_triangle e) (slice tris (triangle_begin e) (triangle_end e)))
       = Ok wm
       /\ meshes' = <[entry_name names e := wm]> meshes.
Proof.
  unfold load_entry, entry_in_bounds, require.
  destruct ((name_begin e <=? name_end e)
            && (name_end e <=? N.of_nat (length names)))%N eqn:En; [|discriminate].
  destruct ((vertex_begin e <=? vertex_end e)
            && (vertex_end e <=? N.of_nat (length vs)))%N eqn:Ev; [|discriminate].
  destruct ((triangle_begin e <=? triangle_end e)
            && (triangle_end e <=? N.of_nat (length tris)))%N eqn:Et; [|discriminate].
  cbn [bind].
  apply andb_true_iff in En as [En1 En2], Ev as [Ev1 Ev2].
  pose proof Et as [Et1 Et2]%andb_true_iff.
  rewrite ?En1, ?En2, ?Ev1, ?Ev2, ?Et1, ?Et2. cbn [andb].
  apply N.leb_le in Et1, Et2.
  pose proof (remap_loop tris e (triangle_begin e)
                (N.to_nat (triangle_end e - triangle_begin e)) 0 [] ltac:(lia)) as Hloop.
  unfold index_range. destruct (for_each _ _ []) as [l|f]; [|discriminate].
  cbn [bind]. rewrite Nat.add_0_r in Hloop. destruct Hloop as [-> Hin].
  cbn [app]. fold (slice tris (triangle_begin e) (triangle_end e)) in *.
  fold (entry_name names e).
  destruct (WalkMesh_new inversesqrt _ _ _) as [wm|] eqn:Ewm; [|discriminate].
  cbn [bind]. destruct (meshes !! entry_name names e) eqn:Em; [discriminate|].
  intros [= <-]. split; [reflexivity|]. split; [exact Hin|].
  split; [reflexivity|]. exists wm. split; reflexivity.
Qed.

(** An iteration never runs past the end of a buffer. *)
Lemma load_entry_fault (vs ns : list vec3) (tris : list uvec3) (names : list ascii)
    (meshes : gmap string WalkMesh) (e : IndexEntry) (f : fault) :
  length vs = length ns ->
  load_entry inversesqrt vs ns tris names meshes e = Stop f ->
  f <> out_of_range.
Proof.
  intros Hlen. unfold load_entry, require.
  destruct (_ && _)%N eqn:En; [|intros [= <-]; discriminate].
  destruct (_ && _)%N eqn:Ev in |- *; [|intros [= <-]; discriminate].
  destruct (_ && _)%N eqn:Et in |- *; [|intros [= <-]; discriminate].
  cbn [bind].
  apply andb_true_iff in Ev as [Ev1 Ev2], Et as [Et1 Et2].
  apply N.leb_le in Ev1, Ev2, Et1, Et2.
  pose proof (remap_loop tris e (triangle_begin e)
                (N.to_nat (triangle_end e - triangle_begin e)) 0 [] ltac:(lia)) as Hloop.
  unfold index_range. destruct (for_each _ _ []) as [l|f'];
    [|subst f'; intros [= <-]; discriminate].
  cbn [bind]. rewrite Nat.add_0_r in Hloop. destruct Hloop as [-> Hin].
  cbn [app]. fold (slice tris (triangle_begin e) (triangle_end e)) in *.
  destruct (WalkMesh_new inversesqrt _ _ _) as [wm|f'] eqn:Ewm; cbn [bind].
  - destruct (meshes !! _); intros [=]. subst f. discriminate.
  - intros [= <-]. apply WalkMesh_new_fault in Ewm; [subst f'; discriminate | |].
    + rewrite !length_slice by lia. reflexivity.
    + apply Forall_map. eapply Forall_impl; [exact Hin|]. cbv beta.
      intros t Ht. apply (local_triangle_in_range vs e t); [lia | lia | exact Ht].
Qed.

End Loader.

Section LoaderTheorems.

Variable inversesqrt : float -> float.

Lemma load_all (vs ns : list vec3) (tris : list uvec3) (names : list ascii)
    (index : list IndexEntry) (acc meshes : gmap string WalkMesh) :
  for_each (load_entry inversesqrt vs ns tris names) index acc = Ok meshes ->
  NoDup (entry_name names <$> index)
  /\ (forall e, e ∈ index -> acc !! entry_name names e = None)
  /\ (forall k wm, acc !! k = Some wm -> meshes !! k = Some wm)
  /\ (forall k, is_Some (meshes !! k) ->
        is_Some (acc !! k) \/ k ∈ (entry_name names <$> index))
  /\ forall e, e ∈ index ->
       entry_in_bounds names vs tris e = true
       /\ Forall (fun t => inside_entry e t = true)
            (slice tris (triangle_begin e) (triangle_end e))
       /\ exists wm,
            meshes !! entry_name names e = Some wm
            /\ WalkMesh_new inversesqrt
                 (slice vs (vertex_begin e) (vertex_end e))
                 (slice ns (vertex_begin e) (vertex_end e))
                 (map (local_triangle e)
                    (slice tris (triangle_begin e) (triangle_end e)))
               = Ok wm.
Proof.
  revert acc. induction index as [|e index IH]; intros acc; cbn [for_each].
  - intros [= <-]. cbn. split; [constructor|].
    split; [intros e He; inversion He|]. split; [auto|].
    split; [auto | intros e He; inversion He].
  - destruct (load_entry inversesqrt vs ns tris names acc e) as [acc1|] eqn:E1;
      [|discriminate].
    cbn [bind]. intros E.
    apply load_entry_Ok in E1 as (Hb & Hin & Hnone & wm & Hwm & ->).
    apply IH in E as (Hnd & Hfresh & Hmono & Hdom & Hall).
    assert (Hself : meshes !! entry_name names e = Some wm)
      by (apply Hmono, lookup_insert_eq).
    split; [|split; [|split; [|split]]].
    + cbn [fmap list_fmap]. apply NoDup_cons. split; [|exact Hnd].
      intros (e' & Heq & He')%list_elem_of_fmap.
      specialize (Hfresh e' He'). rewrite <- Heq, lookup_insert_eq in Hfresh.
      discriminate.
    + intros e' [-> | He']%elem_of_cons; [exact Hnone|].
      specialize (Hfresh e' He').
      apply lookup_insert_None in Hfresh. tauto.
    + intros k wm' Hk. apply Hmono. rewrite lookup_insert_ne; [exact Hk|].
      intros <-. congruence.
    + intros k Hk. cbn [fmap list_fmap]. rewrite elem_of_cons.
      destruct (Hdom k Hk) as [Hacc | Hin']; [|auto].
      destruct (decide (entry_name names e = k)) as [<- | Hne]; [auto|].
      left. rewrite lookup_insert_ne in Hacc by exact Hne. exact Hacc.
    + intros e' [-> | He']%elem_of_cons; [|apply Hall, He'].
      split; [exact Hb|]. split; [exact Hin|]. exists wm. auto.
Qed.

Lemma WalkMeshes_new_Ok (vs ns : list vec3) (tris : list uvec3) (names : list ascii)
    (index : list IndexEntry) (meshes : gmap string WalkMesh) :
  WalkMeshes_new inversesqrt vs ns tris names index = Ok meshes ->
  length vs = length ns
  /\ for_each (load_entry inversesqrt vs ns tris names) index ∅ = Ok meshes.
Proof.
  unfold WalkMeshes_new, require.
  destruct (length vs =? length ns)%nat eqn:E; [|discriminate].
  cbn [bind]. apply Nat.eqb_eq in E. auto.
Qed.

(** X12: after a successful load every index entry is in bounds, all the
    triangles of its range use vertices of its vertex range only, and
    [lookup] of its name gives a mesh holding exactly the entry's slice of
    the vertex and normal buffers and its triangles renumbered from the
    entry's first vertex. *)
Theorem WalkMeshes_new_entries (vs ns : list vec3) (tris : list uvec3)
    (names : list ascii) (index : list IndexEntry) (meshes : gmap string WalkMesh)
    (e : IndexEntry) :
  WalkMeshes_new inversesqrt vs ns tris names index = Ok meshes ->
  e ∈ index ->
  entry_in_bounds names vs tris e = true
  /\ Forall (fun t => inside_entry e t = true)
       (slice tris (triangle_begin e) (triangle_end e))
  /\ exists wm,
       WalkMeshes_lookup meshes (entry_name names e) = inr wm
       /\ vertices wm = slice vs (vertex_begin e) (vertex_end e)
       /\ normals wm = slice ns (vertex_begin e) (vertex_end e)
       /\ triangles wm
          = map (local_triangle e) (slice tris (triangle_begin e) (triangle_end e)).
Proof.
  intros (_ & Hload)%WalkMeshes_new_Ok He.
  apply load_all in Hload as (_ & _ & _ & _ & Hall).
  destruct (Hall e He) as (Hb & Hin & wm & Hwm & Hnew).
  split; [exact Hb|]. split; [exact Hin|]. exists wm.
  unfold WalkMeshes_lookup. rewrite Hwm. split; [reflexivity|].
  apply WalkMesh_new_map in Hnew. tauto.
Qed.

(** X13: after a successful load [lookup] succeeds on the names of the
    index entries and on no other: any other name gets the
    [std::runtime_error] "WalkMesh with name '...' not found.". *)
Theorem WalkMeshes_lookup_after_load (vs ns : list vec3) (tris : list uvec3)
    (names : list ascii) (index : list IndexEntry) (meshes : gmap string WalkMesh)
    (name : string) :
  WalkMeshes_new inversesqrt vs ns tris names index = Ok meshes ->
  (name ∈ (entry_name names <$> index) ->
   exists wm, WalkMeshes_lookup meshes name = inr wm)
  /\ (name ∉ (entry_name names <$> index) ->
      WalkMeshes_lookup meshes name
      = inl (String.append "WalkMesh with name '"
               (String.append name "' not found."))).
Proof.
  intros (_ & Hload)%WalkMeshes_new_Ok.
  apply load_all in Hload as (_ & _ & _ & Hdom & Hall).
  unfold WalkMeshes_lookup. split.
  - intros (e & -> & He)%list_elem_of_fmap.
    destruct (Hall e He) as (_ & _ & wm & -> & _). eauto.
  - intros Hnot. destruct (meshes !! name) as [wm|] eqn:E; [|reflexivity].
    exfalso. destruct (Hdom name ltac:(rewrite E; eauto)) as [[? H] | H];
      [rewrite lookup_empty in H; discriminate | contradiction].
Qed.

(** X14: a successful load implies that the names of the index entries are
    pairwise different; a resource naming two sub-meshes alike does not
    load. *)
Theorem WalkMeshes_new_names_distinct (vs ns : list vec3) (tris : list uvec3)
    (names : list ascii) (index : list IndexEntry) (meshes : gmap string WalkMesh) :
  WalkMeshes_new inversesqrt vs ns tris names index = Ok meshes ->
  NoDup (entry_name names <$> index).
Proof.
  intros (_ & Hload)%WalkMeshes_new_Ok. apply load_all in Hload. tauto.
Qed.

(** X15: the loader never reads past the end of a buffer: whatever the
    chunks hold, it returns or stops at a thrown error or a failed
    assertion, never at an out-of-range access, in its own loops or in
    the constructor of a sub-mesh. *)
Theorem WalkMeshes_new_never_out_of_range (vs ns : list vec3) (tris : list uvec3)
    (names : list ascii) (index : list IndexEntry) :
  WalkMeshes_new inversesqrt vs ns tris names index <> Stop out_of_range.
Proof.
  unfold WalkMeshes_new, require.
  destruct (length vs =? length ns)%nat eqn:E; [|discriminate].
  cbn [bind]. apply Nat.eqb_eq in E.
  generalize (∅ : gmap string WalkMesh) as acc.
  induction index as [|e index IH]; intros acc; cbn [for_each]; [discriminate|].
  destruct (load_entry inversesqrt vs ns tris names acc e) as [acc1|f] eqn:E1;
    cbn [bind]; [apply IH|].
  intros [= ->]. eapply load_entry_fault; [exact E | exact E1 | reflexivity].
Qed.

End LoaderTheorems.

Lemma WalkMeshes_new_entries_witness :
  exists wm,
    WalkMeshes_lookup
      (<["b"%string := first_three]> (<["a"%string := first_three]> ∅)) "b"
    = inr wm
    /\ vertices wm = [q3 0 0 0; q3 1 0 0; q3 0 1 0]
    /\ triangles wm = [uvec3.mk 0 1 2].
Proof.
  destruct (WalkMeshes_new_entries inversesqrt_exact square_vertices square_normals
              [uvec3.mk 0 1 2] ["a"%char; "b"%char] twice_indexed
              (<["b"%string := first_three]> (<["a"%string := first_three]> ∅))
              (mkIndexEntry 1 2 0 3 0 1))
    as (_ & _ & wm & Hl & Hv & _ & Ht).
  - vm_compute. reflexivity.
  - apply list_elem_of_further, list_elem_of_here.
  - exists wm. split; [exact Hl|]. split; [exact Hv | exact Ht].
Defined.

Lemma WalkMeshes_lookup_after_load_witness :
  (exists wm,
     WalkMeshes_lookup
       (<["b"%string := first_three]> (<["a"%string := first_three]> ∅)) "a"
     = inr wm)
  /\ WalkMeshes_lookup
       (<["b"%string := first_three]> (<["a"%string := first_three]> ∅)) "c"
     = inl "WalkMesh with name 'c' not found."%string.
Proof.
  split.
  - apply (WalkMeshes_lookup_after_load inversesqrt_exact square_vertices
             square_normals [uvec3.mk 0 1 2] ["a"%char; "b"%char] twice_indexed).
    + vm_compute. reflexivity.
    + apply list_elem_of_here.
  - apply (WalkMeshes_lookup_after_load inversesqrt_exact square_vertices
             square_normals [uvec3.mk 0 1 2] ["a"%char; "b"%char] twice_indexed
             _ "c"%string).
    + vm_compute. reflexivity.
    + intros H. cbn in H. rewrite !elem_of_cons, elem_of_nil in H.
      destruct H as [H | [H | []]]; discriminate.
Defined.

Lemma WalkMeshes_new_names_distinct_witness :
  NoDup (entry_name ["a"%char; "b"%char] <$> twice_indexed).
Proof.
  apply (WalkMeshes_new_names_distinct inversesqrt_exact square_vertices
           square_normals [uvec3.mk 0 1 2] ["a"%char; "b"%char] twice_indexed
           (<["b"%string := first_three]> (<["a"%string := first_three]> ∅))).
  vm_compute. reflexivity.
Defined.

(** ** [nearest_walk_point] returns a nearest point of the surface *)









Section NearestOptimal.

Variable WalkPoint_default : WalkPoint.


End NearestOptimal.


(** ** Single precision *)

Import B32.FloatNotations B32.VecNotations.

(** *** The order of binary32 values *)

Ltac compare_cases ea eb ma mb :=
  change (Pos.compare_cont Eq ma mb) with (Pos.compare ma mb);
  destruct (Z.compare_spec ea eb) as [?|?|?];
    [subst; destruct (Pos.compare_spec ma mb) as [?|?|?]; subst|..];
    cbn; (split; [try discriminate; intros _; repeat split; (congruence || lia)
                 | try reflexivity; intros (_ & _ & Hk); exfalso;
                   (lia || (injection Hk; lia))]).

Lemma SFcompare_Lt (a b : B32.float) :
  SFcompare a b = Some Lt
  <-> B32.is_nan a = false /\ B32.is_nan b = false /\ key_lt (order_key a) (order_key b).
Proof.
  unfold key_lt.
  destruct a as [[]|[]| |[] ma ea], b as [[]|[]| |[] mb eb]; cbn;
    try (split; [discriminate | intros (? & ? & ?); (discriminate || lia)]);
    try (split; [intros _; repeat split; lia | reflexivity]);
    compare_cases ea eb ma mb.
Qed.

Lemma SFcompare_Eq (a b : B32.float) :
  SFcompare a b = Some Eq
  <-> B32.is_nan a = false /\ B32.is_nan b = false /\ order_key a = order_key b.
Proof.
  destruct a as [[]|[]| |[] ma ea], b as [[]|[]| |[] mb eb]; cbn;
    try (split; [discriminate | intros (? & ? & ?); discriminate]);
    try (split; [intros _; repeat split | reflexivity]);
    compare_cases ea eb ma mb.
Qed.

Lemma b32_fltb_true (a b : B32.float) :
  (a <? b)%B = true
  <-> B32.is_nan a = false /\ B32.is_nan b = false /\ key_lt (order_key a) (order_key b).
Proof.
  rewrite <- SFcompare_Lt. unfold B32.fltb, SFltb.
  destruct (SFcompare a b) as [[]|]; split; congruence.
Qed.

Lemma b32_feqb_true (a b : B32.float) :
  (a =? b)%B = true
  <-> B32.is_nan a = false /\ B32.is_nan b = false /\ order_key a = order_key b.
Proof.
  rewrite <- SFcompare_Eq. unfold B32.feqb, SFeqb.
  destruct (SFcompare a b) as [[]|]; split; congruence.
Qed.

Lemma b32_fleb_true (a b : B32.float) :
  (a <=? b)%B = true
  <-> B32.is_nan a = false /\ B32.is_nan b = false
      /\ (key_lt (order_key a) (order_key b) \/ order_key a = order_key b).
Proof.
  pose proof (SFcompare_Lt a b) as HL. pose proof (SFcompare_Eq a b) as HE.
  unfold B32.fleb, SFleb.
  destruct (SFcompare a b) as [[]|].
  - split; [intros _|reflexivity]. destruct (proj1 HE eq_refl) as (? & ? & ?). auto.
  - split; [intros _|reflexivity]. destruct (proj1 HL eq_refl) as (? & ? & ?). auto.
  - split; [discriminate|]. intros (Ha & Hb & [H|H]).
    + discriminate (proj2 HL (conj Ha (conj Hb H))).
    + discriminate (proj2 HE (conj Ha (conj Hb H))).
  - split; [discriminate|]. intros (Ha & Hb & [H|H]).
    + discriminate (proj2 HL (conj Ha (conj Hb H))).
    + discriminate (proj2 HE (conj Ha (conj Hb H))).
Qed.

(** Turn comparisons into statements on keys and decide them. *)
Ltac key_order :=
  unfold B32.fgtb, B32.fgeb in *;
  repeat match goal with
  | H : (_ <? _)%B = true |- _ => apply b32_fltb_true in H; destruct H as (? & ? & H)
  | H : (_ <=? _)%B = true |- _ => apply b32_fleb_true in H; destruct H as (? & ? & H)
  | H : (_ =? _)%B = true |- _ => apply b32_feqb_true in H; destruct H as (? & ? & H)
  | H : (_ <? _)%B = false |- _ =>
      apply not_true_iff_false in H; rewrite b32_fltb_true in H
  | H : (_ <=? _)%B = false |- _ =>
      apply not_true_iff_false in H; rewrite b32_fleb_true in H
  | H : (_ =? _)%B = false |- _ =>
      apply not_true_iff_false in H; rewrite b32_feqb_true in H
  end;
  try match goal with
  | |- (_ <? _)%B = true => apply b32_fltb_true
  | |- (_ <=? _)%B = true => apply b32_fleb_true
  | |- (_ =? _)%B = true => apply b32_feqb_true
  | |- (_ <? _)%B = false => apply not_true_iff_false; rewrite b32_fltb_true
  | |- (_ <=? _)%B = false => apply not_true_iff_false; rewrite b32_fleb_true
  | |- (_ =? _)%B = false => apply not_true_iff_false; rewrite b32_feqb_true
  end;
  unfold key_lt in *;
  repeat match goal with
  | |- context [order_key ?a] =>
      let k := fresh "k" in
      generalize dependent (order_key a); intros [[? ?] ?]
  | H : context [order_key ?a] |- _ =>
      let k := fresh "k" in
      generalize dependent (order_key a); intros [[? ?] ?]
  end;
  cbn [fst snd] in *.

Lemma b32_triple_eq (a b c d e f : Z) : (a, b, c) = (d, e, f) <-> a = d /\ b = e /\ c = f.
Proof. split; [intros [= -> -> ->]; auto | intros (-> & -> & ->); reflexivity]. Qed.

Ltac key_solve :=
  key_order; intros; rewrite ?b32_triple_eq in *;
  repeat match goal with
  | H : ~ (?A /\ ?B /\ ?C), HA : ?A, HB : ?B |- _ =>
      assert (~ C) by (intros ?; apply H; auto); clear H
  end;
  try match goal with
  | |- ~ (_ /\ _ /\ _) => intros (_ & _ & ?)
  end;
  repeat split; try assumption; try lia.

Lemma b32_fleb_trans (a b c : B32.float) :
  (a <=? b)%B = true -> (b <=? c)%B = true -> (a <=? c)%B = true.
Proof. intros H1 H2. key_solve. Qed.

Lemma b32_fltb_fleb_trans (a b c : B32.float) :
  (a <? b)%B = true -> (b <=? c)%B = true -> (a <? c)%B = true.
Proof. intros H1 H2. key_solve. Qed.

Lemma b32_fleb_fltb_trans (a b c : B32.float) :
  (a <=? b)%B = true -> (b <? c)%B = true -> (a <? c)%B = true.
Proof. intros H1 H2. key_solve. Qed.

Lemma b32_fltb_fleb (a b : B32.float) : (a <? b)%B = true -> (a <=? b)%B = true.
Proof. intros H1. key_solve. Qed.

Lemma b32_fleb_not_fltb (a b : B32.float) : (a <=? b)%B = true -> (b <? a)%B = false.
Proof. intros H1. key_solve. Qed.

Lemma b32_fltb_not_fleb (a b : B32.float) : (a <? b)%B = true -> (b <=? a)%B = false.
Proof. intros H1. key_solve. Qed.

(** Two values that are not NaN are comparable. *)
Lemma b32_fleb_total (a b : B32.float) :
  B32.is_nan a = false -> B32.is_nan b = false ->
  (a <? b)%B = false -> (b <=? a)%B = true.
Proof. intros Ha Hb H1. key_solve. Qed.

Lemma b32_fltb_not_nan (a b : B32.float) :
  (a <? b)%B = true -> B32.is_nan a = false /\ B32.is_nan b = false.
Proof. intros H. apply b32_fltb_true in H. tauto. Qed.

Lemma b32_fleb_not_nan (a b : B32.float) :
  (a <=? b)%B = true -> B32.is_nan a = false /\ B32.is_nan b = false.
Proof. intros H. apply b32_fleb_true in H. tauto. Qed.

(** A value equal to a non-zero finite one is that one. *)
Lemma b32_feqb_finite_eq (a : B32.float) (s : bool) (m : positive) (e : Z) :
  (a =? S754_finite s m e)%B = true -> a = S754_finite s m e.
Proof.
  intros H. apply b32_feqb_true in H as (_ & _ & H).
  destruct a as [[]|[]| |[] ma ea], s; cbn in H; try discriminate;
    injection H; intros; f_equal; lia.
Qed.

Lemma b32_fleb_cases (a b : B32.float) :
  (a <=? b)%B = true -> (a <? b)%B = true \/ (a =? b)%B = true.
Proof.
  intros H. destruct (a <? b)%B eqn:E; [left; reflexivity | right].
  key_solve.
Qed.

(** The zeros are the values equal to [0.0f]. *)
Lemma b32_feqb_zero (a : B32.float) :
  (a =? B32.zero)%B = true <-> exists s, a = S754_zero s.
Proof.
  split.
  - destruct a as [s|[]| |[] m e]; cbn; try discriminate. eauto.
  - intros [s ->]. reflexivity.
Qed.

(** *** [walk_in_triangle] in single precision *)

Lemma b32_walk_in_triangle_split (m : B32.WalkMesh) (start : B32.WalkPoint)
    (step : B32.vec3) :
  B32.walk_in_triangle m start step
  = let* dest := B32.destination_weights m start step in
    B32.walk_from (B32.indices start) (B32.weights start) dest.
Proof.
  unfold B32.walk_in_triangle, B32.destination_weights.
  destruct (at_index _ (uvec3.x _)) as [a|]; cbn [bind]; [|reflexivity].
  destruct (at_index _ (uvec3.y _)) as [b|]; cbn [bind]; [|reflexivity].
  destruct (at_index _ (uvec3.z _)) as [c|]; cbn [bind]; [|reflexivity].
  destruct (B32.to_world_point m start) as [p|]; cbn [bind]; reflexivity.
Qed.

(** One call of the lambda: the state is kept, at the guard or because the
    quotient is not below the recorded time, or the quotient is recorded. *)
Lemma b32_cross_on_edge_cases (st : B32.float * N) (coord : N) (d s : B32.float) :
  (B32.cross_on_edge st coord d s = st
   /\ ((d >? B32.zero)%B = true
       \/ (B32.crossing_quotient s d <? fst st)%B = false))
  \/ ((d >? B32.zero)%B = false
      /\ (B32.crossing_quotient s d <? fst st)%B = true
      /\ B32.cross_on_edge st coord d s = (B32.crossing_quotient s d, coord)).
Proof.
  unfold B32.cross_on_edge. fold (B32.crossing_quotient s d).
  destruct (d >? B32.zero)%B; [left; auto|].
  destruct (B32.crossing_quotient s d <? fst st)%B; [right; auto | left; auto].
Qed.

Lemma b32_cross_on_edge_guard (st : B32.float * N) (coord : N) (d s : B32.float) :
  (d >? B32.zero)%B = true -> B32.cross_on_edge st coord d s = st.
Proof. intros H. unfold B32.cross_on_edge. rewrite H. reflexivity. Qed.

Lemma b32_cross_on_edge_record (st : B32.float * N) (coord : N) (d s : B32.float) :
  (d >? B32.zero)%B = false ->
  (B32.crossing_quotient s d <? fst st)%B = true ->
  B32.cross_on_edge st coord d s = (B32.crossing_quotient s d, coord).
Proof.
  intros H1 H2. unfold B32.cross_on_edge. fold (B32.crossing_quotient s d).
  rewrite H1, H2. reflexivity.
Qed.

Lemma b32_N_lt_3 (j : N) : (j < 3)%N -> j = 0%N \/ j = 1%N \/ j = 2%N.
Proof. lia. Qed.

(** C6, as the program computes it: when the three destination weights are
    [> 0], [walk_in_triangle] returns the fraction one, the index triple of
    the start, and the weights
    [start.weights + 1.0f * (dest_bary - start.weights)] evaluated in
    single precision. *)
Theorem walk_in_triangle_inside_binary32 (m : B32.WalkMesh) (start : B32.WalkPoint)
    (step dest : B32.vec3) :
  B32.destination_weights m start step = Ok dest ->
  (B32.vec3.x dest >? B32.zero)%B = true ->
  (B32.vec3.y dest >? B32.zero)%B = true ->
  (B32.vec3.z dest >? B32.zero)%B = true ->
  B32.walk_in_triangle m start step
  = Ok (B32.mkWalkPoint (B32.indices start)
          (B32.walk_weights (B32.weights start) dest B32.one), B32.one).
Proof.
  intros Hd Hx Hy Hz. rewrite b32_walk_in_triangle_split, Hd. cbn [bind].
  unfold B32.walk_from. rewrite !b32_cross_on_edge_guard by assumption.
  reflexivity.
Qed.

Lemma b32_fmin_one (q : B32.float) :
  (q <=? B32.one)%B = true -> B32.fmin B32.one q = q.
Proof.
  intros H. unfold B32.fmin. destruct (q <? B32.one)%B eqn:E; [reflexivity|].
  destruct (b32_fleb_cases _ _ H) as [L|Eq]; [congruence|].
  symmetry. apply (b32_feqb_finite_eq q false 8388608 (-23)). exact Eq.
Qed.

Lemma b32_below_infinity (q : B32.float) :
  (q <=? B32.one)%B = true -> (q <? B32.infinity)%B = true.
Proof. intros H. apply (b32_fleb_fltb_trans _ _ _ H). reflexivity. Qed.

(** C1, as the program computes it: when exactly one destination weight is
    [<= 0] and the quotient [-start_w / (dest_w - start_w)] of that
    component, evaluated in single precision, lies in [(0, 1]], the call
    returns that quotient as the fraction and a point whose third weight
    is exactly zero, named on the rotation of the start's triple that puts
    the crossed edge in the first two slots. *)
Theorem walk_in_triangle_single_crossing_binary32 (m : B32.WalkMesh)
    (start : B32.WalkPoint) (step dest : B32.vec3) (k : N) :
  B32.destination_weights m start step = Ok dest ->
  (k < 3)%N ->
  (B32.component k dest <=? B32.zero)%B = true ->
  (forall j, (j < 3)%N -> j <> k -> (B32.component j dest >? B32.zero)%B = true) ->
  let q := B32.crossing_quotient (B32.component k (B32.weights start))
             (B32.component k dest) in
  (B32.zero <? q)%B = true ->
  (q <=? B32.one)%B = true ->
  exists end_,
    B32.walk_in_triangle m start step = Ok (end_, q)
    /\ B32.indices end_ = edge_to_front k (B32.indices start)
    /\ B32.weights end_
       = B32.front_weights k (B32.walk_weights (B32.weights start) dest q)
    /\ B32.vec3.z (B32.weights end_) = B32.zero.
Proof.
  intros Hd Hk Hle Hrest q Hpos Hone.
  rewrite b32_walk_in_triangle_split, Hd. cbn [bind]. unfold B32.walk_from.
  pose proof (b32_fleb_not_fltb _ _ Hle) as Hguard.
  pose proof (b32_below_infinity q Hone) as Hinf.
  pose proof (Hrest 0%N ltac:(lia)) as H0.
  pose proof (Hrest 1%N ltac:(lia)) as H1.
  pose proof (Hrest 2%N ltac:(lia)) as H2.
  destruct (b32_N_lt_3 k Hk) as [-> | [-> | ->]]; cbn [B32.component] in *.
  - rewrite (b32_cross_on_edge_record (B32.infinity, UINT_MAX) _ _ _ Hguard Hinf).
    rewrite !b32_cross_on_edge_guard by (auto; lia).
    fold q. rewrite (b32_fmin_one q Hone).
    unfold assert, B32.fgtb. rewrite Hpos. cbn [bind].
    eexists. repeat split.
  - rewrite (b32_cross_on_edge_guard _ 0) by (apply H0; lia).
    rewrite (b32_cross_on_edge_record (B32.infinity, UINT_MAX) _ _ _ Hguard Hinf).
    rewrite b32_cross_on_edge_guard by (apply H2; lia).
    fold q. rewrite (b32_fmin_one q Hone).
    unfold assert, B32.fgtb. rewrite Hpos. cbn [bind].
    eexists. repeat split.
  - rewrite (b32_cross_on_edge_guard _ 0) by (apply H0; lia).
    rewrite (b32_cross_on_edge_guard _ 1) by (apply H1; lia).
    rewrite (b32_cross_on_edge_record (B32.infinity, UINT_MAX) _ _ _ Hguard Hinf).
    fold q. rewrite (b32_fmin_one q Hone).
    unfold assert, B32.fgtb. rewrite Hpos. cbn [bind].
    eexists. repeat split.
Qed.

Lemma b32_weight_ok_cases (s : B32.float) :
  B32.weight_ok s = true ->
  (exists sg, s = S754_zero sg) \/ (exists mant e, s = S754_finite false mant e).
Proof.
  destruct s as [sg|[]| |[] mant e]; cbn; try discriminate; eauto.
Qed.

Lemma b32_fsub_diag (s : bool) (mant : positive) (e : Z) :
  (S754_finite s mant e - S754_finite s mant e)%B = B32.zero.
Proof.
  unfold B32.fsub, SFsub. cbv zeta. rewrite Z.sub_diag. reflexivity.
Qed.

(** A component whose destination weight equals a finite non-negative
    start weight leaves the search state alone, and the interpolation
    [s + 1.0f * (r - s)] is [s] again. *)
Lemma b32_unmoved_component (st : B32.float * N) (coord : N) (s r : B32.float) :
  B32.weight_ok s = true -> (r =? s)%B = true ->
  B32.cross_on_edge st coord r s = st
  /\ ((s + B32.one * (r - s))%B =? s)%B = true.
Proof.
  intros [[sg ->] | (mant & e & ->)]%b32_weight_ok_cases Hr.
  - apply b32_feqb_true in Hr as (Hn & _ & Hk).
    destruct r as [sr|[]| |[] mr er]; try discriminate.
    split; [|destruct sg, sr; reflexivity].
    unfold B32.cross_on_edge. destruct sg, sr; reflexivity.
  - apply b32_feqb_finite_eq in Hr as ->. split.
    + apply b32_cross_on_edge_guard. reflexivity.
    + rewrite b32_fsub_diag.
      replace (B32.one * B32.zero)%B with B32.zero by reflexivity.
      cbn. rewrite Z.compare_refl, Pos.compare_cont_refl. reflexivity.
Qed.

(** C5, as the program computes it: when the reprojection of the world
    position of [p] gives the weights of [p] back (all finite and [>= 0]),
    walking by the zero vector returns [p] with the fraction one: the same
    index triple, and weights equal to those of [p]. *)
Theorem walk_in_triangle_zero_step_binary32 (m : B32.WalkMesh) (p : B32.WalkPoint)
    (r : B32.vec3) :
  B32.weight_ok (B32.vec3.x (B32.weights p)) = true ->
  B32.weight_ok (B32.vec3.y (B32.weights p)) = true ->
  B32.weight_ok (B32.vec3.z (B32.weights p)) = true ->
  B32.destination_weights m p (B32.v3 B32.zero B32.zero B32.zero) = Ok r ->
  B32.same_vec r (B32.weights p) ->
  exists p',
    B32.walk_in_triangle m p (B32.v3 B32.zero B32.zero B32.zero) = Ok (p', B32.one)
    /\ B32.indices p' = B32.indices p
    /\ B32.same_vec (B32.weights p') (B32.weights p).
Proof.
  intros Hx Hy Hz Hd (Rx & Ry & Rz).
  rewrite b32_walk_in_triangle_split, Hd. cbn [bind]. unfold B32.walk_from.
  destruct (b32_unmoved_component (B32.infinity, UINT_MAX) 0 _ _ Hx Rx) as [-> Wx].
  destruct (b32_unmoved_component (B32.infinity, UINT_MAX) 1 _ _ Hy Ry) as [-> Wy].
  destruct (b32_unmoved_component (B32.infinity, UINT_MAX) 2 _ _ Hz Rz) as [-> Wz].
  eexists. split; [reflexivity|]. split; [reflexivity|].
  repeat split; assumption.
Qed.

Lemma b32_fleb_refl (a : B32.float) : B32.is_nan a = false -> (a <=? a)%B = true.
Proof. intros H. key_solve. Qed.

Lemma b32_fltb_irrefl (a : B32.float) : (a <? a)%B = false.
Proof. key_solve. Qed.

Lemma b32_fltb_below (q a b : B32.float) :
  (q <? b)%B = false -> (a <=? b)%B = true -> (q <? a)%B = false.
Proof.
  intros H1 H2. destruct (q <? a)%B eqn:E; [|reflexivity].
  rewrite (b32_fltb_fleb_trans _ _ _ E H2) in H1. discriminate.
Qed.

(** One call of the lambda keeps the recorded time a number, never raises
    it, leaves it at or below the quotient of a component that passed the
    guard, and records nothing but such a quotient. *)
Lemma b32_cross_on_edge_min (st : B32.float * N) (coord : N) (d s : B32.float) :
  B32.is_nan (fst st) = false ->
  B32.is_nan (fst (B32.cross_on_edge st coord d s)) = false
  /\ (fst (B32.cross_on_edge st coord d s) <=? fst st)%B = true
  /\ ((d >? B32.zero)%B = false ->
      (B32.crossing_quotient s d <? fst (B32.cross_on_edge st coord d s))%B = false)
  /\ (B32.cross_on_edge st coord d s = st
      \/ (d >? B32.zero)%B = false
         /\ B32.cross_on_edge st coord d s = (B32.crossing_quotient s d, coord)).
Proof.
  intros Hn.
  destruct (b32_cross_on_edge_cases st coord d s) as [[-> H] | (Hg & Hq & ->)].
  - split; [exact Hn|]. split; [apply b32_fleb_refl, Hn|]. split; [|left; reflexivity].
    intros Hg. destruct H as [H|H]; [congruence | exact H].
  - cbn [fst]. split; [apply (b32_fltb_not_nan _ _ Hq)|].
    split; [apply b32_fltb_fleb, Hq|]. split; [|right; auto].
    intros _. apply b32_fltb_irrefl.
Qed.

Lemma b32_crossing_state_min (s d : B32.vec3) :
  B32.is_nan (fst (b32_crossing_state s d)) = false
  /\ (forall j, (j < 3)%N ->
        (B32.component j d >? B32.zero)%B = false ->
        (B32.crossing_quotient (B32.component j s) (B32.component j d)
         <? fst (b32_crossing_state s d))%B = false)
  /\ (b32_crossing_state s d = (B32.infinity, UINT_MAX)
      \/ exists j, (j < 3)%N /\ (B32.component j d >? B32.zero)%B = false
           /\ b32_crossing_state s d
              = (B32.crossing_quotient (B32.component j s) (B32.component j d), j)).
Proof.
  unfold b32_crossing_state.
  destruct (b32_cross_on_edge_min (B32.infinity, UINT_MAX) 0
              (B32.vec3.x d) (B32.vec3.x s) eq_refl) as (N0 & L0 & Q0 & P0).
  set (st0 := B32.cross_on_edge _ 0 _ _) in *.
  destruct (b32_cross_on_edge_min st0 1 (B32.vec3.y d) (B32.vec3.y s) N0)
    as (N1 & L1 & Q1 & P1).
  set (st1 := B32.cross_on_edge st0 1 _ _) in *.
  destruct (b32_cross_on_edge_min st1 2 (B32.vec3.z d) (B32.vec3.z s) N1)
    as (N2 & L2 & Q2 & P2).
  set (st2 := B32.cross_on_edge st1 2 _ _) in *.
  split; [exact N2|]. split.
  - intros j Hj Hg. destruct (b32_N_lt_3 j Hj) as [-> | [-> | ->]];
      cbn [B32.component] in *.
    + apply (b32_fltb_below _ _ _ (Q0 Hg)). apply (b32_fleb_trans _ _ _ L2 L1).
    + apply (b32_fltb_below _ _ _ (Q1 Hg) L2).
    + apply (Q2 Hg).
  - destruct P2 as [-> | [G2 ->]];
      [|right; exists 2%N; split; [lia|]; split; [exact G2 | reflexivity]].
    destruct P1 as [-> | [G1 ->]];
      [|right; exists 1%N; split; [lia|]; split; [exact G1 | reflexivity]].
    destruct P0 as [-> | [G0 ->]]; [left; reflexivity|].
    right. exists 0%N. split; [lia|]. split; [exact G0 | reflexivity].
Qed.

Lemma b32_walk_from_state (i : uvec3) (s d : B32.vec3) :
  B32.walk_from i s d
  = let '(min_time, min_coord) := b32_crossing_state s d in
    let time := B32.fmin B32.one min_time in
    let* _ := assert (time >? B32.zero)%B in
    let w := B32.walk_weights s d time in
    Ok (match min_coord with
        | 0%N | 1%N | 2%N =>
            B32.mkWalkPoint (edge_to_front min_coord i) (B32.front_weights min_coord w)
        | _ => B32.mkWalkPoint i w
        end, time).
Proof.
  unfold B32.walk_from. fold (b32_crossing_state s d).
  destruct (b32_crossing_state s d) as [mt mc].
  destruct (assert _) as [[]|]; cbn [bind]; [|reflexivity].
  destruct mc as [|[[]|[]|]]; reflexivity.
Qed.

(** C7, as the program computes it: the assertion [time > 0.0f] fails
    exactly when some component that passes the guard (its destination
    weight is not [> 0]) has a quotient [-start_w / (dest_w - start_w)],
    evaluated in single precision, that is [<= 0]; otherwise the call
    returns a fraction in [(0, 1]]. *)
Theorem walk_in_triangle_assertion_binary32 (m : B32.WalkMesh) (start : B32.WalkPoint)
    (step dest : B32.vec3) :
  B32.destination_weights m start step = Ok dest ->
  let q j := B32.crossing_quotient (B32.component j (B32.weights start))
               (B32.component j dest) in
  let outward :=
    exists j, (j < 3)%N /\ (B32.component j dest >? B32.zero)%B = false
              /\ (q j <=? B32.zero)%B = true in
  (B32.walk_in_triangle m start step = Stop assertion_failed <-> outward)
  /\ (~ outward ->
      exists end_ t,
        B32.walk_in_triangle m start step = Ok (end_, t)
        /\ (B32.zero <? t)%B = true /\ (t <=? B32.one)%B = true).
Proof.
  intros Hd q outward.
  rewrite b32_walk_in_triangle_split, Hd. cbn [bind]. rewrite b32_walk_from_state.
  destruct (b32_crossing_state_min (B32.weights start) dest) as (Hn & Hmin & Hprov).
  destruct (b32_crossing_state (B32.weights start) dest) as [mt mc].
  cbn [fst] in *. cbv zeta.
  assert (Hfail : (B32.fmin B32.one mt >? B32.zero)%B = false <-> outward).
  { unfold B32.fmin, B32.fgtb. split.
    - intros H. destruct (mt <? B32.one)%B eqn:E; [|discriminate].
      destruct Hprov as [[= -> ->] | (j & Hj & Hg & [= -> ->])]; [discriminate|].
      exists j. repeat split; [exact Hj | exact Hg|].
      apply b32_fleb_total; [reflexivity | exact Hn | exact H].
    - intros (j & Hj & Hg & Hq).
      assert (Hle : (mt <=? B32.zero)%B = true).
      { apply (b32_fleb_trans _ (q j)); [|exact Hq].
        apply b32_fleb_total; [apply (b32_fleb_not_nan _ _ Hq) | exact Hn | apply (Hmin j Hj Hg)]. }
      rewrite (b32_fleb_fltb_trans mt B32.zero B32.one Hle eq_refl).
      apply b32_fleb_not_fltb, Hle. }
  split.
  - rewrite <- Hfail. unfold assert.
    destruct (B32.fmin B32.one mt >? B32.zero)%B; cbn [bind]; split;
      (discriminate || reflexivity).
  - intros Hnot. unfold assert.
    destruct (B32.fmin B32.one mt >? B32.zero)%B eqn:E; cbn [bind].
    + eexists _, _. split; [reflexivity|]. split; [exact E|].
      unfold B32.fmin. destruct (mt <? B32.one)%B eqn:E1.
      * apply b32_fltb_fleb, E1.
      * reflexivity.
    + exfalso. apply Hnot, Hfail. reflexivity.
Qed.

(** *** [nearest_walk_point] in single precision *)

Lemma b32_corners_Some (vs : list B32.vec3) (t : uvec3) (a b c : B32.vec3) :
  B32.corners vs t = Some (a, b, c)
  <-> at_index vs (uvec3.x t) = Ok a /\ at_index vs (uvec3.y t) = Ok b
      /\ at_index vs (uvec3.z t) = Ok c.
Proof.
  unfold B32.corners, at_index.
  destruct (vs !! N.to_nat (uvec3.x t)) as [a'|]; cbn;
    [|split; [discriminate | intros ([=] & _)]].
  destruct (vs !! N.to_nat (uvec3.y t)) as [b'|]; cbn;
    [|split; [discriminate | intros (_ & [=] & _)]].
  destruct (vs !! N.to_nat (uvec3.z t)) as [c'|]; cbn;
    [|split; [discriminate | intros (_ & _ & [=])]].
  split; [intros [= -> -> ->]; auto | intros ([= ->] & [= ->] & [= ->]); reflexivity].
Qed.

Lemma b32_corners_in_range (vs : list B32.vec3) (s : uvec3) (a b c : B32.vec3) :
  B32.corners vs s = Some (a, b, c) ->
  ((uvec3.x s <? N.of_nat (length vs)) = true
   /\ (uvec3.y s <? N.of_nat (length vs)) = true
   /\ (uvec3.z s <? N.of_nat (length vs)) = true)%N.
Proof.
  intros (Ha & Hb & Hc)%b32_corners_Some. unfold at_index in *.
  destruct (vs !! _) eqn:Ea in Ha; [|discriminate].
  destruct (vs !! _) eqn:Eb in Hb; [|discriminate].
  destruct (vs !! _) eqn:Ec in Hc; [|discriminate].
  apply lookup_lt_Some in Ea, Eb, Ec. rewrite !N.ltb_lt. lia.
Qed.

Lemma b32_corners_cyclic (vs : list B32.vec3) (t s : uvec3) :
  is_Some (B32.corners vs t) -> cyclic t s -> is_Some (B32.corners vs s).
Proof.
  intros [[[a b] c] (Ha & Hb & Hc)%b32_corners_Some] [-> | [-> | ->]].
  - exists (a, b, c). apply b32_corners_Some. auto.
  - exists (b, c, a). apply b32_corners_Some. cbn. auto.
  - exists (c, a, b). apply b32_corners_Some. cbn. auto.
Qed.

Lemma b32_fmul_comm (a b : B32.float) : (a * b)%B = (b * a)%B.
Proof.
  unfold B32.fmul, SFmul.
  destruct a as [[]|[]| |sa ma ea], b as [[]|[]| |sb mb eb]; try reflexivity;
    try (destruct sa; reflexivity); try (destruct sb; reflexivity).
  rewrite (xorb_comm sa sb), (Pos.mul_comm ma mb), (Z.add_comm ea eb). reflexivity.
Qed.

(** The weights of the code are those of the specification's wording. *)
Lemma b32_barycentric_weights_spec (a b c point : B32.vec3) :
  B32.barycentric_weights a b c point = B32.spec_plane_weights a b c point.
Proof.
  unfold B32.barycentric_weights, B32.spec_plane_weights. cbv zeta.
  rewrite (b32_fmul_comm (B32.dot (c - a) (c - a)) (B32.dot (point - a) (b - a))).
  rewrite (b32_fmul_comm (B32.dot (b - a) (c - a)) (B32.dot (point - a) (b - a))).
  reflexivity.
Qed.

Lemma b32_check_edge_spec (vs : list B32.vec3) (world_point : B32.vec3)
    (st : B32.nearest_state) (ai bi ci : N) (a b : B32.vec3) :
  at_index vs ai = Ok a -> at_index vs bi = Ok b ->
  B32.check_edge vs world_point st ai bi ci
  = Ok (B32.consider st (B32.spec_edge_candidate a b ai bi ci world_point)).
Proof.
  intros Ha Hb. unfold B32.check_edge, B32.consider, B32.spec_edge_candidate.
  rewrite Ha, Hb. cbn [bind]. cbv zeta. unfold B32.fgtb.
  destruct (B32.dot (world_point - a) (b - a) <? B32.zero)%B; cbn [fst snd].
  - destruct (_ <? B32.closest_dis2 st)%B; reflexivity.
  - destruct (B32.dot (b - a) (b - a) <? B32.dot (world_point - a) (b - a))%B;
      cbn [fst snd]; destruct (_ <? B32.closest_dis2 st)%B; reflexivity.
Qed.

Lemma b32_nearest_step_spec (m : B32.WalkMesh) (world_point : B32.vec3)
    (st : B32.nearest_state) (tri : uvec3) (a b c : B32.vec3) :
  B32.corners (B32.vertices m) tri = Some (a, b, c) ->
  B32.nearest_step m world_point st tri
  = Ok (fold_left B32.consider
          (B32.spec_triangle_candidates a b c tri world_point) st).
Proof.
  intros Hcs. unfold B32.nearest_step, B32.spec_triangle_candidates.
  pose proof Hcs as (Ha & Hb & Hc)%b32_corners_Some. rewrite Ha, Hb, Hc.
  cbn [bind]. cbv zeta. rewrite b32_barycentric_weights_spec.
  unfold B32.to_world_point. cbn [B32.indices B32.weights].
  rewrite Ha, Hb, Hc. cbn [bind]. unfold B32.fgeb.
  destruct (_ && _ && _).
  - cbn [fold_left]. unfold B32.consider at 1. cbn [fst snd].
    destruct (_ <? B32.closest_dis2 st)%B; reflexivity.
  - rewrite (b32_check_edge_spec _ _ _ _ _ _ a b Ha Hb). cbn [bind].
    rewrite (b32_check_edge_spec _ _ _ _ _ _ b c Hb Hc). cbn [bind].
    rewrite (b32_check_edge_spec _ _ _ _ _ _ c a Hc Ha). reflexivity.
Qed.

Lemma b32_for_each_nearest_step (m : B32.WalkMesh) (world_point : B32.vec3)
    (tris : list uvec3) (st : B32.nearest_state) :
  Forall (fun tri => is_Some (B32.corners (B32.vertices m) tri)) tris ->
  for_each (B32.nearest_step m world_point) tris st
  = Ok (fold_left B32.consider
          (flat_map (fun tri =>
                       match B32.corners (B32.vertices m) tri with
                       | Some (a, b, c) =>
                           B32.spec_triangle_candidates a b c tri world_point
                       | None => []
                       end) tris) st).
Proof.
  intros Hok. revert st. induction Hok as [|tri tris [[[a b] c] Hc] _ IH];
    intros st; [reflexivity|].
  cbn [for_each flat_map]. rewrite (b32_nearest_step_spec _ _ _ _ _ _ _ Hc), Hc.
  cbn [bind]. rewrite IH, fold_left_app. reflexivity.
Qed.

(** The fold keeps the first candidate of least distance, or nothing when
    no distance is below [+inf]. *)
Lemma b32_fold_consider (dflt : B32.WalkPoint) (l : list (B32.WalkPoint * B32.float)) :
  (fold_left B32.consider l (B32.mkNearest dflt B32.infinity)
   = B32.mkNearest dflt B32.infinity
   /\ forall c, c ∈ l -> (snd c <? B32.infinity)%B = false)
  \/ (exists k p d,
        B32.first_minimum l k p d
        /\ fold_left B32.consider l (B32.mkNearest dflt B32.infinity)
           = B32.mkNearest p d).
Proof.
  induction l as [|[pc dc] l IH] using rev_ind.
  - left. split; [reflexivity|]. intros c Hc. inversion Hc.
  - rewrite fold_left_app. cbn [fold_left].
    destruct IH as [[-> Hnone] | (k & p & d & (Hk & Hd & Hmin) & ->)];
      unfold B32.consider; cbn [fst snd B32.closest_dis2].
    + destruct (dc <? B32.infinity)%B eqn:E.
      * right. exists (length l), pc, dc. split; [|reflexivity].
        split; [apply list_lookup_middle; reflexivity|]. split; [exact E|].
        intros j p' d' [[Hj Hlj] | [-> [= <- <-]]]%lookup_snoc_Some.
        -- pose proof (Hnone (p', d') (list_elem_of_lookup_2 _ _ _ Hlj)) as Hn.
           cbn [snd] in Hn. split.
           ++ destruct (d' <? dc)%B eqn:E'; [|reflexivity].
              rewrite (b32_fltb_fleb_trans _ _ _ E' (b32_fltb_fleb _ _ E)) in Hn. discriminate.
           ++ intros _. destruct (d' <=? dc)%B eqn:E'; [|reflexivity].
              rewrite (b32_fleb_fltb_trans _ _ _ E' E) in Hn. discriminate.
        -- split; [apply b32_fltb_irrefl | lia].
      * left. split; [reflexivity|].
        intros c [Hc | ->%list_elem_of_singleton]%elem_of_app; [auto | exact E].
    + pose proof (lookup_lt_Some _ _ _ Hk) as Hklt.
      destruct (dc <? d)%B eqn:E.
      * right. exists (length l), pc, dc. split; [|reflexivity].
        split; [apply list_lookup_middle; reflexivity|].
        split; [apply (b32_fltb_fleb_trans _ _ _ E (b32_fltb_fleb _ _ Hd))|].
        intros j p' d' [[Hj Hlj] | [-> [= <- <-]]]%lookup_snoc_Some.
        -- destruct (Hmin j p' d' Hlj) as [Hn _]. split.
           ++ destruct (d' <? dc)%B eqn:E'; [|reflexivity].
              rewrite (b32_fltb_fleb_trans _ _ _ E' (b32_fltb_fleb _ _ E)) in Hn. discriminate.
           ++ intros _. destruct (d' <=? dc)%B eqn:E'; [|reflexivity].
              rewrite (b32_fleb_fltb_trans _ _ _ E' E) in Hn. discriminate.
        -- split; [apply b32_fltb_irrefl | lia].
      * right. exists k, p, d. split; [|reflexivity].
        split; [rewrite lookup_app_l by assumption; exact Hk|]. split; [exact Hd|].
        intros j p' d' [[Hj Hlj] | [-> [= <- <-]]]%lookup_snoc_Some.
        -- apply (Hmin j p' d' Hlj).
        -- split; [exact E | lia].
Qed.

Lemma b32_spec_edge_candidate_indices (p q : B32.vec3) (pi qi ri : N)
    (point : B32.vec3) :
  B32.indices (fst (B32.spec_edge_candidate p q pi qi ri point)) = uvec3.mk pi qi ri.
Proof.
  unfold B32.spec_edge_candidate. cbv zeta.
  destruct (_ <? B32.zero)%B; [reflexivity|]. destruct (_ <? _)%B; reflexivity.
Qed.

(** Every candidate is named on a rotation of a triangle of the list. *)
Lemma b32_spec_candidates_indices (m : B32.WalkMesh) (point : B32.vec3)
    (c : B32.WalkPoint * B32.float) :
  c ∈ B32.spec_candidates m point ->
  exists tri, tri ∈ B32.triangles m /\ cyclic tri (B32.indices (fst c)).
Proof.
  unfold B32.spec_candidates. rewrite list_elem_of_In, in_flat_map.
  intros (tri & Htri%list_elem_of_In & Hin). exists tri. split; [exact Htri|].
  destruct (B32.corners _ tri) as [[[a b] cc]|]; [|inversion Hin].
  unfold B32.spec_triangle_candidates in Hin. cbv zeta in Hin.
  destruct (_ && _ && _).
  - destruct Hin as [<- | []]. left. reflexivity.
  - destruct Hin as [<- | [<- | [<- | []]]];
      rewrite b32_spec_edge_candidate_indices; unfold cyclic, rotate; cbn.
    + left. destruct tri; reflexivity.
    + right. left. reflexivity.
    + right. right. reflexivity.
Qed.

Section NearestBinary32.

Variable WalkPoint_default : B32.WalkPoint.

(** The run of [nearest_walk_point] on a non-empty list of triangles with
    indices in range. *)
Lemma b32_nearest_walk_point_run (m : B32.WalkMesh) (point : B32.vec3) :
  B32.triangles m <> [] -> B32.indices_in_range m ->
  ((exists c, c ∈ B32.spec_candidates m point /\ (snd c <? B32.infinity)%B = true) ->
   exists k wp d,
     B32.nearest_walk_point WalkPoint_default m point = Ok wp
     /\ B32.first_minimum (B32.spec_candidates m point) k wp d)
  /\
  ((forall c, c ∈ B32.spec_candidates m point -> (snd c <? B32.infinity)%B = false) ->
   B32.nearest_walk_point WalkPoint_default m point
   = B32.nothing_nearer m WalkPoint_default).
Proof.
  intros Hne Hok.
  assert (Hrun : B32.nearest_walk_point WalkPoint_default m point
                 = B32.nothing_nearer m
                     (B32.closest
                        (fold_left B32.consider (B32.spec_candidates m point)
                           (B32.mkNearest WalkPoint_default B32.infinity)))).
  { unfold B32.nearest_walk_point.
    rewrite bool_decide_eq_false_2 by exact Hne. cbn [negb assert bind].
    rewrite (b32_for_each_nearest_step m point _ _ Hok). reflexivity. }
  rewrite Hrun.
  destruct (b32_fold_consider WalkPoint_default (B32.spec_candidates m point))
    as [[-> Hnone] | (k & wp & d & Hmin & ->)]; cbn [B32.closest]; split.
  - intros (c & Hc & Hlt). rewrite (Hnone c Hc) in Hlt. discriminate.
  - intros _. reflexivity.
  - intros _. exists k, wp, d. split; [|exact Hmin].
    destruct Hmin as (Hk & _).
    destruct (b32_spec_candidates_indices m point (wp, d)
                (list_elem_of_lookup_2 _ _ _ Hk)) as (tri & Htri & Hcy).
    cbn [fst] in Hcy. unfold B32.indices_in_range in Hok.
    rewrite Forall_forall in Hok.
    destruct (b32_corners_cyclic _ _ _ (Hok tri Htri) Hcy) as [[[a b] c] Hc].
    apply b32_corners_in_range in Hc as (Rx & Ry & Rz).
    unfold B32.nothing_nearer. rewrite Rx, Ry, Rz. reflexivity.
  - intros Hnone. destruct Hmin as (Hk & Hd & _).
    pose proof (Hnone (wp, d) (list_elem_of_lookup_2 _ _ _ Hk)) as Hn.
    cbn [snd] in Hn. congruence.
Qed.

(** C2, as the program computes it: on an empty triangle list
    [nearest_walk_point] stops at its assertion.  On a non-empty list of
    triangles with indices in range it goes through the candidates of
    sections 4.1 and 4.2 in order (per triangle the plane projection when
    its weights are all [>= 0], else the three edge points), all evaluated
    in single precision, and returns the first one of least squared
    distance, provided one of the distances is below [+inf]; when none is
    (every distance overflowed or is NaN), nothing is recorded and the
    final assertions are made on the default-constructed [closest]. *)
Theorem nearest_walk_point_first_minimum_binary32 (m : B32.WalkMesh)
    (point : B32.vec3) :
  (B32.triangles m = [] ->
   B32.nearest_walk_point WalkPoint_default m point = Stop assertion_failed)
  /\
  (B32.triangles m <> [] -> B32.indices_in_range m ->
   ((exists c, c ∈ B32.spec_candidates m point /\ (snd c <? B32.infinity)%B = true) ->
    exists k wp d,
      B32.nearest_walk_point WalkPoint_default m point = Ok wp
      /\ B32.first_minimum (B32.spec_candidates m point) k wp d)
   /\
   ((forall c, c ∈ B32.spec_candidates m point -> (snd c <? B32.infinity)%B = false) ->
    B32.nearest_walk_point WalkPoint_default m point
    = B32.nothing_nearer m WalkPoint_default)).
Proof.
  split.
  - intros E. unfold B32.nearest_walk_point. rewrite E. reflexivity.
  - apply b32_nearest_walk_point_run.
Qed.

End NearestBinary32.

(** *** Worked examples in single precision *)

(** C2 does not hold for a far query: from [(1e20f, 0, 0)] every squared
    distance to the unit square overflows to [+inf], no candidate passes
    [dis2 < closest_dis2], and the call stops at the assertion on the
    indices of the default-constructed [closest]. *)
Lemma nearest_walk_point_overflow :
  Forall (fun c => snd c = B32.infinity)
    (B32.spec_candidates B32.flat_square (B32.v3 (B32.of_Z (10 ^ 20)) B32.zero B32.zero))
  /\ B32.nearest_walk_point B32.WalkPoint_unset B32.flat_square
       (B32.v3 (B32.of_Z (10 ^ 20)) B32.zero B32.zero)
     = Stop assertion_failed.
Proof. split; [vm_compute; repeat constructor | vm_compute; reflexivity]. Qed.

Lemma nearest_walk_point_first_minimum_binary32_witness :
  exists k wp d,
    B32.nearest_walk_point B32.WalkPoint_unset B32.flat_square
      (B32.v3 B32.one B32.one B32.one) = Ok wp
    /\ B32.first_minimum
         (B32.spec_candidates B32.flat_square (B32.v3 B32.one B32.one B32.one)) k wp d.
Proof.
  apply (nearest_walk_point_first_minimum_binary32 B32.WalkPoint_unset B32.flat_square
           (B32.v3 B32.one B32.one B32.one)).
  - discriminate.
  - repeat constructor; eexists; reflexivity.
  - exists (B32.mkWalkPoint (uvec3.mk 1 2 0)
              (B32.v3 (B32.of_scaled 1 (-1)) (B32.of_scaled 1 (-1)) B32.zero),
            B32.of_scaled 3 (-1)).
    split; [|reflexivity]. vm_compute. apply list_elem_of_further, list_elem_of_here.
Defined.

(** C5 does not hold on the triangle [(0,0,0) (1,2,0) (1,3,0)]: the point
    of weights [(0.3f, 0.7f, 0)] is valid (its weights are [>= 0] and add
    up to exactly one), but the reprojection of its world position has a
    third weight of [-2^-19], the quotient of that component is zero, and
    walking by the zero vector stops at [assert(time > 0.0f)]. *)
Lemma walk_in_triangle_zero_step_rounds :
  B32.weight_ok (B32.vec3.x (B32.weights B32.slanted_point)) = true
  /\ B32.weight_ok (B32.vec3.y (B32.weights B32.slanted_point)) = true
  /\ B32.weight_ok (B32.vec3.z (B32.weights B32.slanted_point)) = true
  /\ (B32.vec3.x (B32.weights B32.slanted_point)
      + B32.vec3.y (B32.weights B32.slanted_point)
      + B32.vec3.z (B32.weights B32.slanted_point))%B = B32.one
  /\ B32.destination_weights B32.slanted_triangle B32.slanted_point
       (B32.v3 B32.zero B32.zero B32.zero)
     = Ok (B32.v3 (B32.of_scaled 10066240 (-25)) (B32.of_scaled 11744128 (-24))
             (B32.of_scaled (-1) (-19)))
  /\ B32.walk_in_triangle B32.slanted_triangle B32.slanted_point
       (B32.v3 B32.zero B32.zero B32.zero)
     = Stop assertion_failed.
Proof. repeat split; vm_compute; reflexivity. Qed.

Lemma walk_in_triangle_zero_step_binary32_witness :
  exists p',
    B32.walk_in_triangle B32.flat_triangle B32.inner_point
      (B32.v3 B32.zero B32.zero B32.zero) = Ok (p', B32.one)
    /\ B32.indices p' = uvec3.mk 0 1 2
    /\ B32.same_vec (B32.weights p') (B32.weights B32.inner_point).
Proof.
  apply (walk_in_triangle_zero_step_binary32 B32.flat_triangle B32.inner_point
           (B32.weights B32.inner_point)).
  - reflexivity.
  - reflexivity.
  - reflexivity.
  - vm_compute. reflexivity.
  - repeat split.
Defined.

(** C6 does not hold to the last bit: from [long_start], the step
    [long_step] has destination weights that are all [> 0], the call
    returns the fraction one, and the first returned weight
    [start + 1.0f * (dest - start)] is [14519780 * 2^-24] where the
    destination weight is [14519779 * 2^-24]. *)
Lemma walk_in_triangle_inside_rounds :
  exists dest end_,
    B32.destination_weights B32.flat_triangle B32.long_start B32.long_step = Ok dest
    /\ (B32.vec3.x dest >? B32.zero)%B = true
    /\ (B32.vec3.y dest >? B32.zero)%B = true
    /\ (B32.vec3.z dest >? B32.zero)%B = true
    /\ B32.walk_in_triangle B32.flat_triangle B32.long_start B32.long_step
       = Ok (end_, B32.one)
    /\ B32.vec3.x dest = B32.of_scaled 14519779 (-24)
    /\ B32.vec3.x (B32.weights end_) = B32.of_scaled 14519780 (-24)
    /\ (B32.vec3.x (B32.weights end_) =? B32.vec3.x dest)%B = false.
Proof.
  eexists _, _. split; [vm_compute; reflexivity|].
  repeat split; vm_compute; reflexivity.
Qed.

Lemma walk_in_triangle_inside_binary32_witness :
  B32.walk_in_triangle B32.flat_triangle B32.inner_point
    (B32.v3 (B32.of_scaled 1 (-3)) B32.zero B32.zero)
  = Ok (B32.mkWalkPoint (uvec3.mk 0 1 2)
          (B32.v3 (B32.of_scaled 3 (-3)) (B32.of_scaled 3 (-3)) (B32.of_scaled 1 (-2))),
        B32.one).
Proof.
  apply (walk_in_triangle_inside_binary32 B32.flat_triangle B32.inner_point
           (B32.v3 (B32.of_scaled 1 (-3)) B32.zero B32.zero)
           (B32.v3 (B32.of_scaled 3 (-3)) (B32.of_scaled 3 (-3)) (B32.of_scaled 1 (-2))));
    vm_compute; reflexivity.
Defined.

Lemma walk_in_triangle_single_crossing_binary32_witness :
  exists end_,
    B32.walk_in_triangle B32.flat_triangle B32.inner_point
      (B32.v3 B32.one B32.one B32.zero) = Ok (end_, B32.of_scaled 1 (-2))
    /\ B32.indices end_ = uvec3.mk 1 2 0
    /\ B32.vec3.z (B32.weights end_) = B32.zero.
Proof.
  destruct (walk_in_triangle_single_crossing_binary32 B32.flat_triangle B32.inner_point
              (B32.v3 B32.one B32.one B32.zero)
              (B32.v3 (- B32.of_scaled 3 (-1))%B (B32.of_scaled 5 (-2))
                 (B32.of_scaled 5 (-2))) 0%N)
    as (end_ & Hres & Hi & _ & Hz).
  - vm_compute. reflexivity.
  - lia.
  - reflexivity.
  - intros j Hj Hne. destruct (b32_N_lt_3 j Hj) as [-> | [-> | ->]];
      [congruence | reflexivity | reflexivity].
  - reflexivity.
  - reflexivity.
  - exists end_. split; [exact Hres|]. split; [exact Hi | exact Hz].
Defined.

(** Start weights that are all [> 0] do not keep the quotient positive:
    from [shallow_start], whose third weight is [2^-25], the step
    [(0, -3e38f, 0)] gives the quotient [2^-25 / 3e38], which underflows
    to zero, and the call stops at [assert(time > 0.0f)]. *)
Lemma walk_in_triangle_quotient_underflows :
  (B32.zero <? B32.vec3.x (B32.weights B32.shallow_start))%B = true
  /\ (B32.zero <? B32.vec3.y (B32.weights B32.shallow_start))%B = true
  /\ (B32.zero <? B32.vec3.z (B32.weights B32.shallow_start))%B = true
  /\ (B32.vec3.x (B32.weights B32.shallow_start)
      + B32.vec3.y (B32.weights B32.shallow_start)
      + B32.vec3.z (B32.weights B32.shallow_start))%B = B32.one
  /\ B32.walk_in_triangle B32.flat_triangle B32.shallow_start B32.huge_step
     = Stop assertion_failed.
Proof. repeat split; vm_compute; reflexivity. Qed.

Lemma walk_in_triangle_assertion_binary32_witness :
  B32.walk_in_triangle B32.flat_triangle B32.edge_point
    (B32.v3 B32.zero (- B32.one)%B B32.zero)
  = Stop assertion_failed.
Proof.
  apply (walk_in_triangle_assertion_binary32 B32.flat_triangle B32.edge_point
           (B32.v3 B32.zero (- B32.one)%B B32.zero)
           (B32.v3 (B32.of_scaled 3 (-1)) (B32.of_scaled 1 (-1)) (- B32.one)%B)).
  - vm_compute. reflexivity.
  - exists 2%N. repeat split.
Defined.


(** *** The triangle a returned point is named on *)

Lemma b32_walk_in_triangle_indices (m : B32.WalkMesh) (start end_ : B32.WalkPoint)
    (step : B32.vec3) (t : B32.float) :
  B32.walk_in_triangle m start step = Ok (end_, t) ->
  cyclic (B32.indices start) (B32.indices end_).
Proof.
  rewrite b32_walk_in_triangle_split.
  destruct (B32.destination_weights m start step) as [dest|]; [|discriminate].
  cbn [bind]. rewrite b32_walk_from_state.
  destruct (b32_crossing_state _ _) as [mt mc]. cbv zeta.
  destruct (assert _) as [[]|]; [|discriminate]. cbn [bind].
  assert (Hrefl : cyclic (B32.indices start) (B32.indices start)) by (left; reflexivity).
  destruct mc as [|[[]|[]|]]; intros [= <- _]; cbn [B32.indices];
    first [exact Hrefl | right; left; reflexivity | right; right; reflexivity].
Qed.

Section IndicesBinary32.

Variable inversesqrt : B32.float -> B32.float.
Variable rotation : B32.vec3 -> B32.vec3 -> B32.quat.
Variable WalkPoint_default : B32.WalkPoint.

Lemma b32_cross_edge_indices (m : B32.WalkMesh) (start end_ : B32.WalkPoint)
    (crossed : bool) (r : B32.quat) :
  B32.map_sound m ->
  (exists t, t ∈ B32.triangles m /\ cyclic t (B32.indices start)) ->
  B32.cross_edge inversesqrt rotation m start = Ok (crossed, end_, r) ->
  exists t, t ∈ B32.triangles m /\ cyclic t (B32.indices end_).
Proof.
  intros Hmap Hstart. unfold B32.cross_edge.
  destruct (assert _) as [[]|]; [|discriminate]. cbn [bind]. cbv zeta.
  destruct (B32.next_vertex m !! _) as [d|] eqn:Hnv; cbn [uvec3.x].
  - destruct (negb _); [|intros [= _ <- _]; exact Hstart].
    repeat first [ destruct (at_index _ _); [|discriminate]; cbn [bind]
                 | destruct (B32.to_world_point m start); [|discriminate]; cbn [bind] ].
    intros [= _ <- _]. cbn [B32.indices]. exact (Hmap _ _ _ Hnv).
  - rewrite N.eqb_refl. cbn [negb]. intros [= _ <- _]. exact Hstart.
Qed.

(** X17: in single precision as in exact arithmetic, a returned WalkPoint
    is named on a triangle of the mesh.  On a mesh whose triangles index
    existing vertices and whose directed-edge map holds edges of its
    triangles only, the index triple of the point that
    [nearest_walk_point] returns (the default-constructed point failing the
    final assertions), that [walk_in_triangle] returns, and that
    [cross_edge] returns from a point named on a mesh triangle, is a cyclic
    permutation of a triangle of the triangle list, whatever rounding did
    to the weights. *)
Theorem returned_indices_binary32 (m : B32.WalkMesh) :
  B32.indices_in_range m ->
  B32.map_sound m ->
  B32.nothing_nearer m WalkPoint_default = Stop assertion_failed ->
  (forall point wp,
     B32.nearest_walk_point WalkPoint_default m point = Ok wp ->
     exists t, t ∈ B32.triangles m /\ cyclic t (B32.indices wp))
  /\ (forall start step end_ t,
        B32.walk_in_triangle m start step = Ok (end_, t) ->
        cyclic (B32.indices start) (B32.indices end_))
  /\ (forall start crossed end_ r,
        (exists t, t ∈ B32.triangles m /\ cyclic t (B32.indices start)) ->
        B32.cross_edge inversesqrt rotation m start = Ok (crossed, end_, r) ->
        exists t, t ∈ B32.triangles m /\ cyclic t (B32.indices end_)).
Proof.
  intros Hok Hmap Hdflt. split; [|split].
  - intros point wp Hres.
    destruct (decide (B32.triangles m = [])) as [E | Hne].
    { unfold B32.nearest_walk_point in Hres. rewrite E in Hres. discriminate. }
    destruct (b32_nearest_walk_point_run WalkPoint_default m point
                Hne Hok) as [Hsome Hnone].
    destruct (b32_fold_consider WalkPoint_default (B32.spec_candidates m point))
      as [[_ Hn] | (k & p & d & (Hk & Hd & _) & _)].
    + rewrite (Hnone Hn), Hdflt in Hres. discriminate.
    + destruct Hsome as (k' & wp' & d' & Hres' & (Hk' & _)).
      { exists (p, d). split; [exact (list_elem_of_lookup_2 _ _ _ Hk) | exact Hd]. }
      rewrite Hres' in Hres. injection Hres as <-.
      apply (b32_spec_candidates_indices m point (wp', d')).
      exact (list_elem_of_lookup_2 _ _ _ Hk').
  - intros start step end_ t. apply b32_walk_in_triangle_indices.
  - intros start crossed end_ r Hstart. apply b32_cross_edge_indices; assumption.
Qed.

End IndicesBinary32.

Lemma returned_indices_binary32_witness :
  exists wp t,
    B32.nearest_walk_point B32.WalkPoint_unset B32.flat_square
      (B32.v3 B32.one B32.one B32.one) = Ok wp
    /\ t ∈ B32.triangles B32.flat_square /\ cyclic t (B32.indices wp).
Proof.
  destruct (returned_indices_binary32 B32.inversesqrt_ieee B32.rotation_unused
              B32.WalkPoint_unset B32.flat_square) as (Hn & _ & _).
  - repeat constructor; eexists; reflexivity.
  - intros a b c H. exact (ok_next_vertex flat_square flat_square_ok a b c H).
  - reflexivity.
  - destruct (Hn (B32.v3 B32.one B32.one B32.one)
                (B32.mkWalkPoint (uvec3.mk 2 1 3) (B32.v3 B32.zero B32.zero B32.one)))
      as (t & Ht & Hc); [vm_compute; reflexivity|].
    eexists _, t. split; [vm_compute; reflexivity|]. split; [exact Ht | exact Hc].
Defined.
